(** * Case-safe jar extraction (Luxxit BuildTools, main.py)

    A shallow embedding of [extract_jar_case_safe] and of its nested helper
    [fix_case_conflict], over a small model of the two collaborators the
    function talks to: the zip reader ([zipfile.ZipFile]) and the local file
    system ([os.makedirs], [open(..., 'wb')]).

    Conventions of the model.
    - Python [str] values are [string]s of 8-bit characters, the code points
      below 256.  [str.lower] is a parameter of the model ([StrLower]): it
      is only known to lower the ASCII letters and to leave the other ASCII
      characters alone.  [python_lower] is what Python does on the
      characters of the model; the runs on concrete archives use it.
    - A Python [set] of names is a [gset string].  The order in which a [for]
      loop enumerates a set is not fixed by Python: it is a parameter
      ([set_iteration]) of every function that iterates.
    - A file-system path is kept as the list of its '/'-separated components
      ([os.path.dirname] drops the last one, [str] of a path is the path
      itself, so that two paths are equal exactly when their texts are).
      [os.path.join] depends on the host and is a parameter of the model
      ([OsPath]); [posixpath], which appends the part as one component, is
      the one of the runs on concrete archives, and the file system of the
      model is that of a POSIX host.
    - Exceptions are values of [exn]; code that may raise returns a [result];
      code that also touches the file system returns the file system it
      leaves behind together with its [result], because what was written
      before an exception stays written. *)

From Stdlib Require Import Strings.Byte Strings.Ascii Strings.String.
From stdpp Require Import base option strings list gmap sets.

#[local] Set Warnings "-clear-no-such-hyp".

(** ** Python values *)

(** [bytes]. *)
Definition bytes : Type := list byte.

#[global] Instance byte_eq_dec : EqDecision byte := Byte.byte_eq_dec.

(** A path, component by component. *)
Definition path : Type := list string.

(** The subclasses of [OSError] that the calls on paths can raise. *)
Inductive os_error : Type :=
  | FileExistsError
  | FileNotFoundError
  | NotADirectoryError
  | IsADirectoryError.

(** Exceptions.  [BadZipFile] stands for whatever the zip reader raises (its
    message is the reader's own); [OSError] carries the [filename] attribute
    that Python sets to the path handed to the failing call; [WriteError] is
    the [OSError] of a failed [write] (disk full, quota, I/O error): it has
    an [errno] and no [filename]. *)
Inductive exn : Type :=
  | IndexError
  | BadZipFile (msg : string)
  | OSError (kind : os_error) (filename : path)
  | WriteError (errno : nat).

Inductive result (A : Type) : Type :=
  | Ok (a : A)
  | Raise (e : exn).
Arguments Ok {A} a.
Arguments Raise {A} e.

#[global] Instance os_error_eq_dec : EqDecision os_error.
Proof. solve_decision. Defined.
#[global] Instance exn_eq_dec : EqDecision exn.
Proof. solve_decision. Defined.
#[global] Instance result_eq_dec {A} `{EqDecision A} : EqDecision (result A).
Proof. solve_decision. Defined.

#[global] Instance result_ret : MRet result := λ A a, Ok a.
#[global] Instance result_bind : MBind result := λ A B f r,
  match r with
  | Ok a => f a
  | Raise e => Raise e
  end.

(** [s[0]]: raises [IndexError] on the empty string. *)
Definition index0 (s : string) : result ascii :=
  match s with
  | EmptyString => Raise IndexError
  | String c _ => Ok c
  end.

(** [s[1:]]: slicing never raises. *)
Definition slice1 (s : string) : string :=
  match s with
  | EmptyString => EmptyString
  | String _ t => t
  end.

(** [c.lower()] for an ASCII character: the letters A..Z are lowered. *)
Definition ascii_lower (c : ascii) : ascii :=
  let n := nat_of_ascii c in
  if (65 <=? n)%nat && (n <=? 90)%nat then ascii_of_nat (n + 32) else c.

(** [c.lower()] for a one-character string [c]: a string, which for some
    characters outside ASCII has more than one character, and which several
    characters may share (K, k and the Kelvin sign).  What it is on ASCII
    is all that the model relies on. *)
Class StrLower : Type := {
  str_lower : ascii → string;
  str_lower_ascii c :
    (nat_of_ascii c < 128)%nat →
    str_lower c = String (ascii_lower c) EmptyString
}.

(** [c.lower()] in Python for the code points below 256: the letters A..Z,
    U+00C0..U+00D6 and U+00D8..U+00DE are lowered, to the code point 32
    above. *)
Definition latin1_lower (c : ascii) : ascii :=
  let n := nat_of_ascii c in
  if ((65 <=? n)%nat && (n <=? 90)%nat)
     || ((192 <=? n)%nat && (n <=? 214)%nat)
     || ((216 <=? n)%nat && (n <=? 222)%nat)
  then ascii_of_nat (n + 32) else c.

#[global] Instance python_lower : StrLower.
Proof.
  refine {| str_lower := λ c, String (latin1_lower c) EmptyString |}.
  intros c Hc. f_equal. unfold latin1_lower, ascii_lower.
  destruct (Nat.leb_spec 192 (nat_of_ascii c)); [lia|].
  destruct (Nat.leb_spec 216 (nat_of_ascii c)); [lia|].
  simpl. by rewrite !orb_false_r.
Defined.

(** The key of a case-insensitive comparison: the lower cases of the
    characters, one after the other. *)
Fixpoint lower_str {L : StrLower} (s : string) : string :=
  match s with
  | EmptyString => EmptyString
  | String c t => str_lower c +:+ lower_str t
  end.

(** [os.path.join(a, p)] for a path [a] and a part [p] that holds no
    '/'.  It is the host's: [posixpath.join] appends the part as one
    component, [ntpath.join] drops [a] when the part names a drive. *)
Class OsPath : Type := os_path_join : path → string → path.

#[global] Instance posixpath : OsPath := λ a p, a ++ [p].

(** [s.split('/')]: never empty, [''.split('/') == ['']]. *)
Fixpoint split_slash (s : string) : list string :=
  match s with
  | EmptyString => [EmptyString]
  | String c t =>
      if decide (c = "/"%char) then EmptyString :: split_slash t
      else match split_slash t with
           | [] => [String c EmptyString]
           | p :: ps => String c p :: ps
           end
  end.

(** [s.endswith('/')]. *)
Fixpoint endswith_slash (s : string) : bool :=
  match s with
  | EmptyString => false
  | String c EmptyString => bool_decide (c = "/"%char)
  | String _ t => endswith_slash t
  end.

(** The enumeration order of a Python set: some arrangement of its
    elements, not fixed by the language. *)
Record set_iteration : Type := SetIteration {
  iter : gset string → list string;
  iter_perm : ∀ X, iter X ≡ₚ elements X
}.

Definition sorted_iteration : set_iteration :=
  {| iter := elements; iter_perm := λ X, reflexivity (elements X) |}.

Definition reversed_iteration : set_iteration :=
  {| iter := λ X, reverse (elements X);
     iter_perm := λ X, reverse_Permutation (elements X) |}.

(** ** fix_case_conflict *)

(** The name a conflicting segment is given: [name[0] + "_" + name[1:]]. *)
Definition inject_separator (name : string) : result string :=
  c ← index0 name; Ok (String c ("_" +:+ slice1 name)).

(** The test of the loop body:
    [exist_name[1:] == name[1:] and exist_name[0].lower() == name[0].lower()
     and exist_name[0] != name[0]], with [and] evaluated left to right. *)
Definition case_conflict {L : StrLower} (exist_name name : string)
  : result bool :=
  if decide (slice1 exist_name = slice1 name) then
    e0 ← index0 exist_name;
    n0 ← index0 name;
    if decide (str_lower e0 = str_lower n0) then Ok (bool_decide (e0 ≠ n0))
    else Ok false
  else Ok false.

(** [for exist_name in existing: if ...: return ...] followed by
    [return name], over the names in the order the set yields them. *)
Fixpoint fix_case_conflict_loop {L : StrLower} (names : list string)
  (name : string) : result string :=
  match names with
  | [] => Ok name
  | exist_name :: rest =>
      b ← case_conflict exist_name name;
      if b : bool then inject_separator name
      else fix_case_conflict_loop rest name
  end.

Definition fix_case_conflict {L : StrLower} (o : set_iteration)
  (existing : gset string) (name : string) : result string :=
  if decide (existing = ∅) then Ok name
  else fix_case_conflict_loop (iter o existing) name.

(** ** The zip reader

    What [zipfile] hands to the extractor: the entries in archive order, each
    with its name and with what reading it yields. *)

(** What happens to the bytes of an entry when its turn comes: the outcome
    of [jar.open(file_info)], of [src.read()] and of [dst.write(...)].  A
    write that fails (disk full, quota, I/O error) has put some of the bytes
    in the file, [written] of them at most, and raises an [OSError] with
    that [errno]. *)
Inductive member : Type :=
  | Readable (data : bytes)       (* all succeed, [src.read()] is [data] *)
  | Unreadable (msg : string)     (* [jar.open] succeeds, [src.read()] raises *)
  | Unopenable (msg : string)     (* [jar.open] raises *)
  | Unwritable (data : bytes) (written errno : nat).
                                  (* [src.read()] is [data], [dst.write] raises *)

Record ZipInfo : Type := mkZipInfo {
  filename : string;
  content : member
}.

#[global] Instance member_eq_dec : EqDecision member.
Proof. solve_decision. Defined.
#[global] Instance ZipInfo_eq_dec : EqDecision ZipInfo.
Proof. solve_decision. Defined.

(** [ZipInfo.is_dir()] on a POSIX host: the name ends with a slash. *)
Definition is_dir (file_info : ZipInfo) : bool :=
  endswith_slash (filename file_info).

(** [zipfile.ZipFile(jar_path, 'r')]: either it raises, or [infolist()] is
    the list of entries. *)
Inductive ZipFile : Type :=
  | NotAZipFile (msg : string)
  | Archive (infolist : list ZipInfo).

(** ** The file system

    A tree of directories and regular files, kept as a finite map from
    locations to nodes.  A location is the list of names leading from the
    root to the node; the root itself, [[]], is a directory and is not
    stored.  The working directory of the process is the root.  There are no
    symbolic links, and an operation is refused only for a structural reason
    (a regular file where a directory is needed, a directory where a regular
    file is to be written, a missing parent). *)

Inductive node : Type :=
  | Dir
  | File (data : bytes).

#[global] Instance node_eq_dec : EqDecision node.
Proof. solve_decision. Defined.

Abbreviation fs := (gmap (list string) node).

(** Code that runs against the file system. *)
Definition io (A : Type) : Type := fs → fs * result A.

#[global] Instance io_ret : MRet io := λ A a m, (m, Ok a).
#[global] Instance io_bind : MBind io := λ A B k c m,
  match c m with
  | (m', Ok a) => k a m'
  | (m', Raise e) => (m', Raise e)
  end.

Definition raise {A} (e : exn) : io A := λ m, (m, Raise e).

(** A computation that does not touch the file system. *)
Definition pure {A} (r : result A) : io A := λ m, (m, r).

(** A component that names no child: empty, or the directory itself. *)
Definition is_dot (c : string) : bool :=
  bool_decide (c = "") || bool_decide (c = ".").

(** [os.makedirs(name, exist_ok=True)], walking [name] from the location
    [cur]; [seen] is the part of [name] already walked.  A missing directory
    is created, an existing one is entered, [..] goes to the parent.  A
    regular file in the way makes the [mkdir] of the next component fail
    ([NotADirectoryError]), or that of [name] itself when the file is its last
    component ([FileExistsError], which [exist_ok] does not silence for a
    file). *)
Fixpoint makedirs_from (cur : list string) (seen todo : path) : io () :=
  match todo with
  | [] => mret ()
  | c :: rest =>
      if is_dot c then makedirs_from cur (seen ++ [c]) rest
      else if decide (c = "..") then
        makedirs_from (removelast cur) (seen ++ [c]) rest
      else λ m,
        match m !! (cur ++ [c]) with
        | Some Dir => makedirs_from (cur ++ [c]) (seen ++ [c]) rest m
        | Some (File _) =>
            match rest with
            | [] => (m, Raise (OSError FileExistsError (seen ++ [c])))
            | c' :: _ =>
                (m, Raise (OSError NotADirectoryError (seen ++ [c; c'])))
            end
        | None =>
            makedirs_from (cur ++ [c]) (seen ++ [c]) rest
              (<[cur ++ [c] := Dir]> m)
        end
  end.

Definition os_makedirs (name : path) : io () := makedirs_from [] [] name.

(** Resolution of a directory path: every component must lead to a
    directory that exists. *)
Fixpoint lookup_dir (m : fs) (cur : list string) (p : path)
  : option (list string) :=
  match p with
  | [] => Some cur
  | c :: rest =>
      if is_dot c then lookup_dir m cur rest
      else if decide (c = "..") then lookup_dir m (removelast cur) rest
      else match m !! (cur ++ [c]) with
           | Some Dir => lookup_dir m (cur ++ [c]) rest
           | _ => None
           end
  end.

(** [os.path.dirname]. *)
Definition dirname (p : path) : path := removelast p.

(** [open(name, 'wb')]: the file is created, or emptied when it exists; the
    result is the location that the handle writes to. *)
Definition open_wb (name : path) : io (list string) := λ m,
  match lookup_dir m [] (dirname name), last name with
  | Some d, Some c =>
      if is_dot c || bool_decide (c = "..") then
        (m, Raise (OSError IsADirectoryError name))
      else match m !! (d ++ [c]) with
           | Some Dir => (m, Raise (OSError IsADirectoryError name))
           | _ => (<[d ++ [c] := File []]> m, Ok (d ++ [c]))
           end
  | Some d, None => (m, Raise (OSError IsADirectoryError name))
  | None, _ => (m, Raise (OSError FileNotFoundError name))
  end.

(** [dst.write(data)] on a freshly opened handle, when it succeeds. *)
Definition write (handle : list string) (data : bytes) : io () := λ m,
  (<[handle := File data]> m, Ok ()).

(** [dst.write(data)] when it fails after [written] bytes: the file holds
    that much of [data]. *)
Definition write_fails (handle : list string) (data : bytes)
  (written errno : nat) : io () := λ m,
  (<[handle := File (take written data)]> m, Raise (WriteError errno)).

(** ** extract_jar_case_safe *)

(** [dir_contents]: the names recorded so far under each directory. *)
Abbreviation ledger := (gmap (list string) (gset string)).

(** [if parent not in dir_contents: dir_contents[parent] = set()]. *)
Definition ensure_entry (dir_contents : ledger) (parent : path) : ledger :=
  match dir_contents !! parent with
  | Some _ => dir_contents
  | None => <[parent := ∅]> dir_contents
  end.

(** The loop over [parts]: it returns the ledger it leaves and the path it
    has built. *)
Fixpoint resolve_parts {L : StrLower} {P : OsPath} (o : set_iteration)
  (dir_contents : ledger) (curr_dir : path) (parts : list string)
  : result (ledger * path) :=
  match parts with
  | [] => Ok (dir_contents, curr_dir)
  | part :: rest =>
      if decide (part = "") then resolve_parts o dir_contents curr_dir rest
      else
        let parent := curr_dir in
        let dir_contents := ensure_entry dir_contents parent in
        let existing := dir_contents !!! parent in
        fixed_part ← fix_case_conflict o existing part;
        resolve_parts o
          (<[parent := {[fixed_part]} ∪ existing]> dir_contents)
          (os_path_join curr_dir fixed_part) rest
  end.

(** The [with jar.open(file_info) as src, open(target_path, 'wb') as dst:
    dst.write(src.read())] statement: the entry is opened, then the target,
    then the bytes are read, then written. *)
Definition copy_member (file_info : ZipInfo) (target_path : path) : io () :=
  match content file_info with
  | Unopenable msg => raise (BadZipFile msg)
  | Unreadable msg => dst ← open_wb target_path; raise (BadZipFile msg)
  | Readable data => dst ← open_wb target_path; write dst data
  | Unwritable data written errno =>
      dst ← open_wb target_path; write_fails dst data written errno
  end.

(** What is done with the resolved path of an entry. *)
Definition materialize (file_info : ZipInfo) (target_path : path) : io () :=
  if is_dir file_info then os_makedirs target_path
  else os_makedirs (dirname target_path);; copy_member file_info target_path.

(** One turn of the loop over [jar.infolist()]. *)
Definition extract_entry {L : StrLower} {P : OsPath} (o : set_iteration)
  (output_dir : path)
  (dir_contents : ledger) (file_info : ZipInfo) : io ledger :=
  let parts := split_slash (filename file_info) in
  if decide (parts = [] ∨ parts = [""]) then mret dir_contents
  else
    '(dir_contents, target_path) ← pure (resolve_parts o dir_contents output_dir parts);
    materialize file_info target_path;;
    mret dir_contents.

Fixpoint extract_entries {L : StrLower} {P : OsPath} (o : set_iteration)
  (output_dir : path)
  (dir_contents : ledger) (infolist : list ZipInfo) : io ledger :=
  match infolist with
  | [] => mret dir_contents
  | file_info :: rest =>
      dir_contents ← extract_entry o output_dir dir_contents file_info;
      extract_entries o output_dir dir_contents rest
  end.

Definition extract_jar_case_safe {L : StrLower} {P : OsPath}
  (o : set_iteration) (jar : ZipFile) (output_dir : path) : io () :=
  match jar with
  | NotAZipFile msg => raise (BadZipFile msg)
  | Archive infolist => extract_entries o output_dir ∅ infolist;; mret ()
  end.

(** ['/' in s]. *)
Fixpoint contains_slash (s : string) : bool :=
  match s with
  | EmptyString => false
  | String c t => bool_decide (c = "/"%char) || contains_slash t
  end.

(** ** process_renames: the lines of the rename file

    The loop of [process_renames] reads the file line by line; what it
    does with one line, up to the call of [safe_rename], is a function of
    the text of the line. *)

(** [c.isspace()] for a character below 256: the ASCII white space, the
    separators 28 to 31, NEL and the no-break space. *)
Definition isspace (c : ascii) : bool :=
  let n := nat_of_ascii c in
  ((9 <=? n)%nat && (n <=? 13)%nat) || ((28 <=? n)%nat && (n <=? 32)%nat)
  || (n =? 133)%nat || (n =? 160)%nat.

(** [s.lstrip()], [s.rstrip()], [s.strip()]. *)
Fixpoint lstrip (s : string) : string :=
  match s with
  | EmptyString => EmptyString
  | String c t => if isspace c then lstrip t else s
  end.

Fixpoint rstrip (s : string) : string :=
  match s with
  | EmptyString => EmptyString
  | String c t =>
      match rstrip t with
      | EmptyString => if isspace c then EmptyString else String c EmptyString
      | t' => String c t'
      end
  end.

Definition strip (s : string) : string := rstrip (lstrip s).

(** [s.startswith(c)] for a one-character prefix. *)
Definition startswith_char (c : ascii) (s : string) : bool :=
  match s with
  | String c' _ => bool_decide (c' = c)
  | EmptyString => false
  end.

(** [s.startswith('=>')]. *)
Definition startswith_arrow (s : string) : bool :=
  match s with
  | String c t => bool_decide (c = "="%char) && startswith_char ">" t
  | EmptyString => false
  end.

(** ['=>' in s]. *)
Fixpoint contains_arrow (s : string) : bool :=
  match s with
  | EmptyString => false
  | String c t => startswith_arrow s || contains_arrow t
  end.

(** [s.split('=>', 1)]: cut at the first arrow, if there is one. *)
Fixpoint split_arrow (s : string) : list string :=
  match s with
  | EmptyString => [EmptyString]
  | String c t =>
      if startswith_arrow s then [EmptyString; slice1 t]
      else match split_arrow t with
           | [] => [s]
           | a :: rest => String c a :: rest
           end
  end.

(** The string is made of white space only. *)
Fixpoint all_space (s : string) : bool :=
  match s with
  | EmptyString => true
  | String c t => isspace c && all_space t
  end.

(** What the loop does with a line. *)
Inductive rename_line : Type :=
  | Skipped                                (* [continue], silently *)
  | Invalid (line : string)                (* "Skipping invalid line" *)
  | Renames (src_rel dst_rel : string).    (* [safe_rename] is called *)

(** The body of the loop, up to the call of [safe_rename]; [None] stands
    for the [ValueError] of an unpacking that does not find two parts. *)
Definition rename_line_of (line : string) : option rename_line :=
  let line := strip line in
  if bool_decide (line = "") || startswith_char "#" line then Some Skipped
  else if negb (contains_arrow line) then Some (Invalid line)
  else match strip <$> split_arrow line with
       | [src_rel; dst_rel] => Some (Renames src_rel dst_rel)
       | _ => None
       end.

(** ** The functions around the extraction

    They raise exceptions of their own ([raise Exception(...)]) besides
    those of the library calls. *)

Inductive raised : Type :=
  | Exception (msg : string)
  | Library (e : exn).

Inductive outcome (A : Type) : Type :=
  | Returns (a : A)
  | Raises (r : raised).
Arguments Returns {A} a.
Arguments Raises {A} r.

(** The entries of the directory at [loc]: the names stored right below
    it, each with its node. *)
Definition children (m : fs) (loc : list string) : list (string * node) :=
  omap (λ '(q, n),
          c ← last q; if decide (q = loc ++ [c]) then Some (c, n) else None)
       (map_to_list m).

(** The order in which [os.scandir] yields the entries of a directory:
    some arrangement of them. *)
Record dir_iteration : Type := DirIteration {
  scan : fs → list string → list (string * node);
  scan_perm : ∀ m loc, scan m loc ≡ₚ children m loc
}.

Definition listing_order : dir_iteration :=
  {| scan := children; scan_perm := λ m loc, reflexivity (children m loc) |}.

(** The directory that a call such as [os.scandir(name)] works on: every
    component of the path must lead to a directory; a regular file in the
    way gives [NotADirectoryError], a missing name [FileNotFoundError]. *)
Fixpoint enter_dir (name : path) (m : fs) (cur : list string) (p : path)
  : result (list string) :=
  match p with
  | [] => Ok cur
  | c :: rest =>
      if is_dot c then enter_dir name m cur rest
      else if decide (c = "..") then enter_dir name m (removelast cur) rest
      else match m !! (cur ++ [c]) with
           | Some Dir => enter_dir name m (cur ++ [c]) rest
           | Some (File _) => Raise (OSError NotADirectoryError name)
           | None => Raise (OSError FileNotFoundError name)
           end
  end.

(** The loop of [find_java_bin_dir] over the entries of [java_path], which
    is the directory at [loc]: the first entry that is a directory and has
    something named [bin] wins. *)
Fixpoint first_bin_dir (m : fs) (loc : list string) (java_path : path)
  (entries : list (string * node)) : outcome path :=
  match entries with
  | [] => Raises (Exception "Could not find Java bin directory")
  | (name, n) :: rest =>
      match n, m !! (loc ++ [name; "bin"]) with
      | Dir, Some _ => Returns (java_path ++ [name; "bin"])
      | _, _ => first_bin_dir m loc java_path rest
      end
  end.

Definition find_java_bin_dir (d : dir_iteration) (java_path : path) (m : fs)
  : outcome path :=
  match enter_dir java_path m [] java_path with
  | Raise e => Raises (Library e)
  | Ok loc => first_bin_dir m loc java_path (scan d m loc)
  end.

(** The constants of the tool, below the directory of the script
    ([SCRIPT_PATH], an absolute path). *)
Definition LUX_PATH (script_path : path) : path := script_path ++ [".luxxit"].
Definition JAVA_PATH (script_path : path) : path :=
  LUX_PATH script_path ++ [".java"].
Definition LUX_FOLDER (script_path : path) : path :=
  LUX_PATH script_path ++ [".lux"].
Definition MAVEN_FOLDER (script_path : path) : path :=
  LUX_PATH script_path ++ [".maven"].
Definition FERNFLOWER_FOLDER (script_path : path) : path :=
  LUX_PATH script_path ++ [".fernflower"].
Definition LUXXIT_FOLDER (script_path : path) : path :=
  LUX_PATH script_path ++ ["Luxxit"].

(** The node at a location; the root is a directory. *)
Definition node_at (m : fs) (loc : list string) : option node :=
  if decide (loc = []) then Some Dir else m !! loc.

(** [os.stat(p)]: the node that the path leads to, if there is one;
    [Path.exists()] is whether there is one. *)
Definition stat (m : fs) (p : path) : option node :=
  d ← lookup_dir m [] (dirname p);
  match last p with
  | None => Some Dir
  | Some c =>
      if is_dot c then node_at m d
      else if decide (c = "..") then node_at m (removelast d)
      else m !! (d ++ [c])
  end.

Definition path_exists (m : fs) (p : path) : bool :=
  bool_decide (is_Some (stat m p)).

(** [shutil.rmtree(p, onerror=on_rm_error)] in a tree where nothing is
    write-protected (the model has no permissions, so [on_rm_error] is
    only reached for errors that it raises again): a directory goes away
    with all that it holds; anything else makes the scan fail. *)
Definition rmtree (p : path) : io () := λ m,
  match enter_dir p m [] p with
  | Ok loc => (filter (λ kv, ¬ loc `prefix_of` kv.1) m, Ok ())
  | Raise e => (m, Raise e)
  end.

(** [p.mkdir(parents=True, exist_ok=True)] for a path without [..]: the
    tree it leaves and the kind of its failure are those of [os.makedirs];
    the exception names [p] itself. *)
Definition path_mkdir (p : path) : io () := λ m,
  match os_makedirs p m with
  | (m', Raise (OSError kind _)) => (m', Raise (OSError kind p))
  | r => r
  end.

Definition clean_and_prepare_dirs (script_path : path) : io () :=
  (λ m, if path_exists m (LUX_PATH script_path)
        then rmtree (LUX_PATH script_path) m else (m, Ok ()));;
  path_mkdir (JAVA_PATH script_path);;
  path_mkdir (LUX_FOLDER script_path);;
  path_mkdir (MAVEN_FOLDER script_path);;
  path_mkdir (FERNFLOWER_FOLDER script_path);;
  path_mkdir (LUXXIT_FOLDER script_path).

(** [str(p)] for an absolute POSIX path. *)
Definition show_path (p : path) : string := "/" +:+ String.concat "/" p.

Definition decompiled_jar (script_path : path) : path :=
  FERNFLOWER_FOLDER script_path ++ ["decompiled"; "LuxCore.jar"].

(** [extract_decompiled_luxcore]; [read_zip] is what [zipfile.ZipFile]
    makes of the bytes of a file.  The members are read from the open jar
    while the loop runs, so the archive is the one found at the opening
    only in the runs that do not write to the jar itself. *)
Definition extract_decompiled_luxcore {L : StrLower} {P : OsPath}
  (o : set_iteration) (read_zip : bytes → ZipFile) (script_path : path)
  (m : fs)
  : fs * outcome () :=
  match path_mkdir (LUXXIT_FOLDER script_path) m with
  | (m1, Raise e) => (m1, Raises (Library e))
  | (m1, Ok _) =>
      match stat m1 (decompiled_jar script_path) with
      | None =>
          (m1, Raises (Exception (show_path (decompiled_jar script_path)
                                  +:+ " does not exist!")))
      | Some Dir =>
          (m1, Raises (Library (OSError IsADirectoryError
                                  (decompiled_jar script_path))))
      | Some (File data) =>
          match extract_jar_case_safe o (read_zip data)
                  (LUXXIT_FOLDER script_path) m1 with
          | (m2, Ok _) => (m2, Returns ())
          | (m2, Raise e) => (m2, Raises (Library e))
          end
      end
  end.

(** A check of [fs_wf] that can be evaluated. *)
Definition fs_wf_check (m : fs) : Prop :=
  map_Forall (λ q _, match last q with
                     | None => True
                     | Some _ => removelast q = []
                                 ∨ m !! removelast q = Some Dir
                     end) m.

#[global] Instance fs_wf_check_dec m : Decision (fs_wf_check m).
Proof. unfold fs_wf_check. apply map_Forall_dec. intros q _. destruct (last q); apply _. Defined.

(** ** Vocabulary of the properties *)

(** The name starts with an ASCII character, or is empty. *)
Definition ascii_initial (name : string) : bool :=
  match name with
  | String c _ => bool_decide (nat_of_ascii c < 128)%nat
  | EmptyString => true
  end.

(** Every segment of the entry name starts with an ASCII character. *)
Definition ascii_segments (name : string) : Prop :=
  Forall (λ part, ascii_initial part = true) (split_slash name).

#[global] Instance ascii_segments_dec name : Decision (ascii_segments name).
Proof. unfold ascii_segments. apply _. Defined.

(** Every name recorded in the ledger starts with an ASCII character. *)
Definition ledger_ascii (dir_contents : ledger) : Prop :=
  map_Forall (λ _ X, set_Forall (λ x, ascii_initial x = true) X)
    dir_contents.

(** [a] and [b] differ only in the case of their first character: same
    remainder, first characters that are different and equal once
    lower-cased. *)
Definition case_variant {L : StrLower} (a b : string) : bool :=
  match a, b with
  | String c t, String d u =>
      bool_decide (t = u) && bool_decide (str_lower c = str_lower d)
      && bool_decide (c ≠ d)
  | _, _ => false
  end.

(** The rewritten form of a non-empty name: the separator right after its
    first character. *)
Definition separated (name : string) : string :=
  match name with
  | EmptyString => EmptyString
  | String c t => String c (String "_" t)
  end.

(** Some name of [existing] differs from [name] only in first-character
    case. *)
Definition has_variant {L : StrLower} (existing : gset string)
  (name : string) : Prop :=
  ∃ e, e ∈ existing ∧ case_variant e name = true.

#[global] Instance has_variant_dec {L : StrLower} existing name :
  Decision (has_variant existing name).
Proof.
  refine (cast_if (decide (set_Exists (λ e, case_variant e name = true)
                             existing)));
    unfold has_variant, set_Exists in *; firstorder.
Defined.

(** Every name recorded in the ledger is non-empty. *)
Definition ledger_ok (dir_contents : ledger) : Prop :=
  map_Forall (λ _ X, "" ∉ X) dir_contents.

#[global] Instance ledger_ok_dec dir_contents :
  Decision (ledger_ok dir_contents).
Proof. unfold ledger_ok. apply _. Defined.

(** The names recorded under [p] ([∅] when [p] has no entry). *)
Definition recorded (dir_contents : ledger) (p : path) : gset string :=
  default ∅ (dir_contents !! p).

(** The ledger once [name] is recorded under [parent]
    ([dir_contents[parent].add(name)]). *)
Definition record (dir_contents : ledger) (parent : path) (name : string)
  : ledger :=
  <[parent := {[name]} ∪ recorded dir_contents parent]> dir_contents.

(** How the components that the walk appends relate to the segments. *)
Inductive renamed : list string → list string → Prop :=
  | renamed_nil : renamed [] []
  | renamed_skip parts names :
      renamed parts names → renamed ("" :: parts) names
  | renamed_cons part parts name names :
      part ≠ "" → name = part ∨ name = separated part →
      renamed parts names → renamed (part :: parts) (name :: names).

(** A path made of '/' only (or empty): every piece of its split is
    empty. *)
Definition only_slashes (s : string) : bool :=
  forallb (λ part, bool_decide (part = "")) (split_slash s).

(** The location a path leads to, from [cur], when every directory on the
    way exists. *)
Fixpoint locate_from (cur : list string) (p : path) : list string :=
  match p with
  | [] => cur
  | c :: rest =>
      if is_dot c then locate_from cur rest
      else if decide (c = "..") then locate_from (removelast cur) rest
      else locate_from (cur ++ [c]) rest
  end.

Definition locate (p : path) : list string := locate_from [] p.

(** A path without [.], [..] or empty components. *)
Definition plain (p : path) : Prop :=
  Forall (λ c, is_dot c = false ∧ c ≠ "..") p.

(** The entries that the loop does not skip, in order, each with the target
    path that the loop builds for it. *)
Fixpoint targets {L : StrLower} {P : OsPath} (o : set_iteration)
  (output_dir : path) (dir_contents : ledger) (infolist : list ZipInfo)
  : list (ZipInfo * path) :=
  match infolist with
  | [] => []
  | file_info :: rest =>
      let parts := split_slash (filename file_info) in
      if decide (parts = [] ∨ parts = [""]) then
        targets o output_dir dir_contents rest
      else match resolve_parts o dir_contents output_dir parts with
           | Ok (dir_contents, target_path) =>
               (file_info, target_path)
               :: targets o output_dir dir_contents rest
           | Raise _ => []
           end
  end.

(** The work done on the file system once the paths are resolved. *)
Fixpoint materialize_all (ts : list (ZipInfo * path)) : io () :=
  match ts with
  | [] => mret ()
  | (file_info, target_path) :: rest =>
      materialize file_info target_path;; materialize_all rest
  end.

(** The name that the rule gives to [name] among the recorded names
    [existing]. *)
Definition rule_name {L : StrLower} (existing : gset string)
  (name : string) : string :=
  if decide (has_variant existing name) then separated name else name.

(** A file entry whose bytes can be read. *)
Definition file_entry (name : string) (data : bytes) : ZipInfo :=
  {| filename := name; content := Readable data |}.

(** A directory entry: a name that ends with '/', and nothing to read. *)
Definition dir_entry (name : string) : ZipInfo :=
  {| filename := name; content := Readable [] |}.

(** The tree is well formed: whatever is stored has a directory for
    parent (the root, which is not stored, or a stored directory). *)
Definition fs_wf (m : fs) : Prop :=
  ∀ q c, is_Some (m !! (q ++ [c])) → q = [] ∨ m !! q = Some Dir.

(** A location that can hold children: the root or a stored directory. *)
Definition holds_children (m : fs) (cur : list string) : Prop :=
  cur = [] ∨ m !! cur = Some Dir.

(** [name[1] == "_"]: the name looks like a rewritten one. *)
Definition second_is_sep (name : string) : bool :=
  match name with
  | String _ (String c _) => bool_decide (c = "_"%char)
  | _ => false
  end.

(** No two names of [X] differ only in first-character case, every name
    of [X] that looks rewritten is the rewritten form of a name of which
    [X] holds a first-character case variant, and every name of [X] starts
    with an ASCII character. *)
Definition siblings_distinct {L : StrLower} (X : gset string) : Prop :=
  (∀ a b, a ∈ X → b ∈ X → case_variant a b = false)
  ∧ (∀ x, x ∈ X → second_is_sep x = true →
       ∃ r e, x = separated r ∧ e ∈ X ∧ case_variant e r = true)
  ∧ (∀ x, x ∈ X → ascii_initial x = true).

(** The property of [siblings_distinct], for every entry of the ledger. *)
Definition ledger_distinct {L : StrLower} (dir_contents : ledger) : Prop :=
  ∀ p, siblings_distinct (recorded dir_contents p).

(** A segment as the rule expects it: it starts with an ASCII character
    and does not look like a rewritten name. *)
Definition tame (part : string) : Prop :=
  ascii_initial part = true ∧ second_is_sep part = false.

(** Every segment of the name is as the rule expects it. *)
Definition tame_name (name : string) : Prop :=
  Forall tame (split_slash name).

#[global] Instance tame_name_dec name : Decision (tame_name name).
Proof. unfold tame_name, tame. apply _. Defined.

(** No segment of the name is [.] or [..]. *)
Definition no_dot_segment (name : string) : Prop :=
  Forall (λ part, part ≠ "." ∧ part ≠ "..") (split_slash name).

#[global] Instance no_dot_segment_dec name : Decision (no_dot_segment name).
Proof. unfold no_dot_segment. apply _. Defined.

(** The non-empty segments of an entry name. *)
Definition segments (name : string) : list string :=
  filter (λ part, part ≠ "") (split_slash name).

(** The segment behind a written name, for segments that do not look
    rewritten: a written name that looks rewritten has lost its
    separator, another one is the segment itself. *)
Definition original_of (name : string) : string :=
  match name with
  | String c (String s t) =>
      if bool_decide (s = "_"%char) then String c t else name
  | _ => name
  end.

(** * Properties *)

Section properties.
Context {L : StrLower}.

(** ** Strings *)

Lemma index0_Ok c t : index0 (String c t) = Ok c.
Proof. reflexivity. Qed.

Lemma separated_ne name : name ≠ "" → separated name ≠ name.
Proof.
  destruct name as [|c t]; [done|]. intros _ H.
  apply (f_equal String.length) in H. simpl in H. lia.
Qed.

Lemma separated_nonempty name : name ≠ "" → separated name ≠ "".
Proof. by destruct name. Qed.

Lemma inject_separator_Ok name :
  name ≠ "" → inject_separator name = Ok (separated name).
Proof. by destruct name. Qed.

Lemma append_inv_head (a x y : string) : a +:+ x = a +:+ y → x = y.
Proof. induction a as [|c a IH]; simpl; [done|]. intros [= H]. auto. Qed.

Lemma str_lower_sep : str_lower "_" = "_".
Proof. by rewrite str_lower_ascii by (vm_compute; lia). Qed.

(** A rewritten name is not equal, case apart, to a name that differs from
    the original only in first-character case. *)
Lemma lower_str_separated c d t :
  str_lower c = str_lower d →
  lower_str (String c (String "_" t)) ≠ lower_str (String d t).
Proof.
  intros Hl. simpl. rewrite Hl, str_lower_sep. intros H.
  apply append_inv_head in H.
  change ("_" +:+ lower_str t) with (String "_" (lower_str t)) in H.
  apply (f_equal String.length) in H. simpl in H. lia.
Qed.

Lemma case_variant_sym a b : case_variant a b = case_variant b a.
Proof.
  destruct a as [|c t], b as [|d u]; try done. simpl.
  apply eq_true_iff_eq.
  rewrite !andb_true_iff, !bool_decide_eq_true.
  split; intros [[-> Hl] Hd]; done.
Qed.

Lemma case_variant_irrefl a : case_variant a a = false.
Proof.
  destruct a as [|c t]; [done|]. simpl.
  rewrite (bool_decide_eq_false_2 (c ≠ c)) by naive_solver.
  by rewrite andb_false_r.
Qed.

Lemma case_variant_inv a b :
  case_variant a b = true →
  ∃ c d t, a = String c t ∧ b = String d t ∧ str_lower c = str_lower d ∧ c ≠ d.
Proof.
  destruct a as [|c t], b as [|d u]; try done. simpl.
  rewrite !andb_true_iff, !bool_decide_eq_true.
  intros [[-> Hl] Hd]. by exists c, d, u.
Qed.

(** Names that differ only in first-character case are equal under a
    case-insensitive comparison. *)
Lemma case_variant_lower a b :
  case_variant a b = true → lower_str a = lower_str b.
Proof.
  intros (c & d & t & -> & -> & Hl & _)%case_variant_inv.
  simpl. by rewrite Hl.
Qed.

(** The test in the loop is [case_variant], as long as neither name is
    empty. *)
Lemma case_conflict_Ok e name :
  e ≠ "" → name ≠ "" → case_conflict e name = Ok (case_variant e name).
Proof.
  destruct e as [|c t], name as [|d u]; try done. intros _ _.
  unfold case_conflict, case_variant. simpl.
  destruct (decide (t = u)) as [->|Hne].
  - rewrite (bool_decide_eq_true_2 (u = u)) by done. simpl.
    destruct (decide (str_lower c = str_lower d)) as [Hl|Hl].
    + by rewrite (bool_decide_eq_true_2 _ Hl).
    + by rewrite (bool_decide_eq_false_2 _ Hl).
  - by rewrite (bool_decide_eq_false_2 _ Hne).
Qed.

(** ** fix_case_conflict *)

Lemma fix_case_conflict_loop_Ok names name :
  Forall (λ e, e ≠ "") names → name ≠ "" →
  fix_case_conflict_loop names name
  = Ok (if existsb (λ e, case_variant e name) names
        then separated name else name).
Proof.
  intros Hne Hn. induction Hne as [|e names He _ IH]; [done|].
  simpl. rewrite case_conflict_Ok by done. simpl.
  destruct (case_variant e name); simpl; [|done].
  by apply inject_separator_Ok.
Qed.

Lemma existsb_variant_iff (o : set_iteration) existing name :
  existsb (λ e, case_variant e name) (iter o existing) = true
  ↔ has_variant existing name.
Proof.
  rewrite existsb_exists. unfold has_variant.
  split; intros (e & He & Hv); exists e; split; try done.
  - apply list_elem_of_In in He. rewrite (iter_perm o) in He.
    by apply elem_of_elements in He.
  - apply list_elem_of_In. rewrite (iter_perm o).
    by apply elem_of_elements.
Qed.

Lemma iter_nonempty (o : set_iteration) (existing : gset string) :
  "" ∉ existing → Forall (λ e, e ≠ "") (iter o existing).
Proof.
  intros H. apply Forall_forall. intros e He ->.
  rewrite (iter_perm o) in He. by apply elem_of_elements in He.
Qed.

(** The rule that [fix_case_conflict] computes on names that are not
    empty: rewrite when some recorded name is a first-character case
    variant, keep otherwise. *)
Lemma fix_case_conflict_Ok o existing name :
  "" ∉ existing → name ≠ "" →
  fix_case_conflict o existing name = Ok (rule_name existing name).
Proof.
  intros Hex Hn. unfold fix_case_conflict, rule_name.
  destruct (decide (existing = ∅)) as [->|_].
  - destruct (decide _) as [(e & He & _)|]; [set_solver|done].
  - rewrite fix_case_conflict_loop_Ok by auto using iter_nonempty.
    f_equal. destruct (decide _) as [Hv|Hv].
    + apply (existsb_variant_iff o) in Hv. by rewrite Hv.
    + destruct (existsb _ _) eqn:E; [|done].
      by apply (existsb_variant_iff o) in E.
Qed.

Lemma fix_case_conflict_order o1 o2 existing name :
  "" ∉ existing → name ≠ "" →
  fix_case_conflict o1 existing name = fix_case_conflict o2 existing name.
Proof. intros. by rewrite !fix_case_conflict_Ok. Qed.

Lemma fix_case_conflict_keep o existing name :
  "" ∉ existing → name ≠ "" → ¬ has_variant existing name →
  fix_case_conflict o existing name = Ok name.
Proof.
  intros. rewrite fix_case_conflict_Ok by done.
  unfold rule_name. by case_decide.
Qed.

Lemma fix_case_conflict_rewrite o existing name :
  "" ∉ existing → name ≠ "" → has_variant existing name →
  fix_case_conflict o existing name = Ok (separated name).
Proof.
  intros. rewrite fix_case_conflict_Ok by done.
  unfold rule_name. by case_decide.
Qed.

Lemma fix_case_conflict_nonempty o existing name fixed :
  "" ∉ existing → name ≠ "" →
  fix_case_conflict o existing name = Ok fixed → fixed ≠ "".
Proof.
  intros Hex Hn. rewrite fix_case_conflict_Ok by done.
  unfold rule_name. case_decide; intros [= <-]; auto using separated_nonempty.
Qed.

Lemma rule_name_cases existing name :
  rule_name existing name = name ∨ rule_name existing name = separated name.
Proof. unfold rule_name. case_decide; auto. Qed.

Lemma rule_name_nonempty existing name :
  name ≠ "" → rule_name existing name ≠ "".
Proof.
  intros. destruct (rule_name_cases existing name) as [->| ->];
    auto using separated_nonempty.
Qed.

(** ** The ledger *)

Lemma ledger_ok_empty : ledger_ok ∅.
Proof. intros p X. by rewrite lookup_empty. Qed.

Lemma recorded_nonempty dir_contents p :
  ledger_ok dir_contents → "" ∉ recorded dir_contents p.
Proof.
  intros Hok. unfold recorded.
  destruct (dir_contents !! p) as [X|] eqn:E; simpl; [eauto|set_solver].
Qed.

Lemma ensure_entry_lookup dir_contents p :
  ensure_entry dir_contents p !!! p = recorded dir_contents p.
Proof.
  unfold ensure_entry, recorded.
  destruct (dir_contents !! p) as [X|] eqn:E; simpl.
  - by rewrite (lookup_total_correct _ _ _ E).
  - by rewrite lookup_total_insert_eq.
Qed.

Lemma insert_ensure_entry dir_contents p (X : gset string) :
  <[p := X]> (ensure_entry dir_contents p) = <[p := X]> dir_contents.
Proof.
  unfold ensure_entry. destruct (dir_contents !! p); [done|].
  by rewrite insert_insert_eq.
Qed.

Lemma recorded_record dir_contents parent name p :
  recorded (record dir_contents parent name) p
  = if decide (parent = p) then {[name]} ∪ recorded dir_contents p
    else recorded dir_contents p.
Proof.
  unfold record, recorded at 1. rewrite lookup_insert.
  by case_decide as Hp; [subst p|].
Qed.

Lemma record_ok dir_contents parent name :
  ledger_ok dir_contents → name ≠ "" →
  ledger_ok (record dir_contents parent name).
Proof.
  intros Hok Hn p X. unfold record. rewrite lookup_insert.
  case_decide as Hp; [subst p|exact (Hok p X)].
  intros [= <-]. pose proof (recorded_nonempty _ parent Hok). set_solver.
Qed.

(** One segment of the walk, on a ledger whose names are non-empty: the
    segment gets the name of the rule, that name is recorded under the
    parent, and the walk goes on below it. *)
Lemma resolve_parts_cons o dir_contents curr_dir part rest :
  ledger_ok dir_contents → part ≠ "" →
  resolve_parts o dir_contents curr_dir (part :: rest)
  = resolve_parts o
      (record dir_contents curr_dir
         (rule_name (recorded dir_contents curr_dir) part))
      (curr_dir ++ [rule_name (recorded dir_contents curr_dir) part]) rest.
Proof.
  intros Hok Hn. simpl. rewrite decide_False by done.
  rewrite ensure_entry_lookup.
  rewrite fix_case_conflict_Ok by auto using recorded_nonempty.
  simpl. by rewrite insert_ensure_entry.
Qed.

Lemma resolve_parts_skip o dir_contents curr_dir rest :
  resolve_parts o dir_contents curr_dir ("" :: rest)
  = resolve_parts o dir_contents curr_dir rest.
Proof. done. Qed.

(** The walk never raises, keeps the names of the ledger non-empty, only
    adds names, and appends one component per non-empty segment. *)
Lemma resolve_parts_Ok o dir_contents curr_dir parts :
  ledger_ok dir_contents →
  ∃ dir_contents' names,
    resolve_parts o dir_contents curr_dir parts
    = Ok (dir_contents', curr_dir ++ names)
    ∧ ledger_ok dir_contents'
    ∧ renamed parts names
    ∧ ∀ p, recorded dir_contents p ⊆ recorded dir_contents' p.
Proof.
  revert dir_contents curr_dir.
  induction parts as [|part rest IH]; intros dc cur Hok.
  - exists dc, []. rewrite app_nil_r. repeat split; auto using renamed_nil.
  - destruct (decide (part = "")) as [->|Hn].
    + rewrite resolve_parts_skip.
      destruct (IH dc cur Hok) as (dc' & names & -> & ? & ? & ?).
      exists dc', names. repeat split; auto using renamed_skip.
    + rewrite resolve_parts_cons by done.
      set (name := rule_name (recorded dc cur) part).
      destruct (IH (record dc cur name) (cur ++ [name]))
        as (dc' & names & -> & ? & ? & Hsub).
      { apply record_ok; [done|]. by apply rule_name_nonempty. }
      exists dc', (name :: names). rewrite <- app_assoc.
      repeat split; [done| |].
      * apply renamed_cons; [done| |done]. apply rule_name_cases.
      * intros p. etrans; [|apply Hsub]. rewrite recorded_record.
        case_decide; set_solver.
Qed.

(** The walk does not depend on the order in which sets are enumerated. *)
Lemma resolve_parts_order o1 o2 dir_contents curr_dir parts :
  ledger_ok dir_contents →
  resolve_parts o1 dir_contents curr_dir parts
  = resolve_parts o2 dir_contents curr_dir parts.
Proof.
  revert dir_contents curr_dir.
  induction parts as [|part rest IH]; intros dc cur Hok; [done|].
  destruct (decide (part = "")) as [->|Hn].
  - rewrite !resolve_parts_skip. by apply IH.
  - rewrite !resolve_parts_cons by done. apply IH.
    apply record_ok; [done|]. by apply rule_name_nonempty.
Qed.

(** ** The file system *)

Lemma locate_from_app cur p1 p2 :
  locate_from cur (p1 ++ p2) = locate_from (locate_from cur p1) p2.
Proof.
  revert cur. induction p1 as [|c p1 IH]; intros cur; [done|].
  simpl. destruct (is_dot c); [done|]. by case_decide.
Qed.

Lemma locate_from_plain_one cur c :
  is_dot c = false → c ≠ ".." → locate_from cur [c] = cur ++ [c].
Proof. intros Hd Hn. simpl. rewrite Hd. by rewrite decide_False. Qed.

Lemma locate_from_plain cur p : plain p → locate_from cur p = cur ++ p.
Proof.
  intros Hp. revert cur.
  induction Hp as [|c p [Hd Hn] _ IH]; intros cur.
  - by rewrite app_nil_r.
  - simpl. rewrite Hd, decide_False by done.
    rewrite IH. by rewrite <- app_assoc.
Qed.

(** Without [..] a walk never leaves the directory it starts from. *)
Lemma locate_from_prefix cur p :
  ".." ∉ p → cur `prefix_of` locate_from cur p.
Proof.
  revert cur. induction p as [|c p IH]; intros cur Hp; [done|].
  simpl. destruct (is_dot c).
  - apply IH. set_solver.
  - rewrite decide_False by set_solver.
    etrans; [|apply IH; set_solver]. by apply prefix_app_r.
Qed.

Lemma lookup_dir_Some m cur p d :
  lookup_dir m cur p = Some d → d = locate_from cur p.
Proof.
  revert cur. induction p as [|c p IH]; intros cur; simpl.
  - by intros [= <-].
  - destruct (is_dot c); [by apply IH|].
    case_decide; [by apply IH|].
    destruct (m !! (cur ++ [c])) as [[|]|]; try done. by apply IH.
Qed.

(** What [os.makedirs] changes: it turns locations on the way, which held
    nothing, into directories, and leaves every other location as it is,
    also when it fails. *)
Lemma makedirs_from_changes cur seen todo m m' r q :
  makedirs_from cur seen todo m = (m', r) →
  m' !! q = m !! q
  ∨ (m !! q = None ∧ m' !! q = Some Dir
     ∧ ∃ k, q = locate_from cur (take k todo)).
Proof.
  revert cur seen m. induction todo as [|c rest IH]; intros cur seen m.
  - intros [= <- <-]. by left.
  - simpl. destruct (is_dot c) eqn:Hd.
    { intros [?|(? & ? & k & ->)]%IH; [by left|right].
      repeat split; try done. exists (S k). simpl. by rewrite Hd. }
    case_decide as Hdd.
    { intros [?|(? & ? & k & ->)]%IH; [by left|right].
      repeat split; try done. exists (S k). simpl.
      by rewrite Hd, decide_True. }
    destruct (m !! (cur ++ [c])) as [[|data]|] eqn:E.
    + intros [?|(? & ? & k & ->)]%IH; [by left|right].
      repeat split; try done. exists (S k). simpl.
      by rewrite Hd, decide_False.
    + destruct rest; intros [= <- <-]; by left.
    + intros H. apply IH in H.
      destruct (decide (q = cur ++ [c])) as [->|Hq].
      * right. rewrite lookup_insert_eq in H.
        destruct H as [?|(? & ? & _)]; [|done].
        repeat split; try done. exists 1. simpl.
        by rewrite Hd, decide_False.
      * rewrite lookup_insert_ne in H by done.
        destruct H as [?|(? & ? & k & ->)]; [by left|right].
        repeat split; try done. exists (S k). simpl.
        by rewrite Hd, decide_False.
Qed.

Lemma makedirs_from_keeps cur seen todo m m' r q n :
  makedirs_from cur seen todo m = (m', r) →
  m !! q = Some n → m' !! q = Some n.
Proof.
  intros H Hq.
  destruct (makedirs_from_changes _ _ _ _ _ _ q H) as [->|(? & _)];
    congruence.
Qed.

Lemma lookup_dir_mono (m m' : fs) cur p d :
  (∀ q, m !! q = Some Dir → m' !! q = Some Dir) →
  lookup_dir m cur p = Some d → lookup_dir m' cur p = Some d.
Proof.
  intros Hm. revert cur. induction p as [|c p IH]; intros cur; [done|].
  simpl. destruct (is_dot c); [by apply IH|].
  case_decide; [by apply IH|].
  destruct (m !! (cur ++ [c])) as [[|]|] eqn:E; try done.
  rewrite (Hm _ E). by apply IH.
Qed.

(** When [os.makedirs] returns, the directory is there. *)
Lemma makedirs_from_Ok cur seen todo m m' :
  makedirs_from cur seen todo m = (m', Ok ()) →
  lookup_dir m' cur todo = Some (locate_from cur todo).
Proof.
  revert cur seen m. induction todo as [|c rest IH]; intros cur seen m.
  - done.
  - simpl. destruct (is_dot c) eqn:Hd; [by apply IH|].
    case_decide as Hdd; [by apply IH|].
    destruct (m !! (cur ++ [c])) as [[|data]|] eqn:E.
    + intros H.
      rewrite (makedirs_from_keeps _ _ _ _ _ _ _ _ H E). by eapply IH.
    + by destruct rest.
    + intros H.
      rewrite (makedirs_from_keeps _ _ _ _ _ _ (cur ++ [c]) Dir H)
        by apply lookup_insert_eq.
      by eapply IH.
Qed.

(** [exist_ok=True]: on a directory that exists, nothing happens. *)
Lemma makedirs_from_exists cur seen todo m d :
  lookup_dir m cur todo = Some d →
  makedirs_from cur seen todo m = (m, Ok ()).
Proof.
  revert cur seen. induction todo as [|c rest IH]; intros cur seen; [done|].
  simpl. destruct (is_dot c); [by apply IH|].
  case_decide; [by apply IH|].
  destruct (m !! (cur ++ [c])) as [[|]|]; try done. by apply IH.
Qed.


Lemma last_plain_locate name c :
  last name = Some c → is_dot c = false → c ≠ ".." →
  name = dirname name ++ [c]
  ∧ locate name = locate (dirname name) ++ [c].
Proof.
  intros [d ->]%last_Some Hd Hn. unfold dirname, locate.
  rewrite removelast_last. split; [done|].
  by rewrite locate_from_app, locate_from_plain_one.
Qed.

(** [open(name, 'wb')]: either it raises and nothing changes, or the file
    at the location of [name] is now empty. *)
Lemma open_wb_inv name m m' r :
  open_wb name m = (m', r) →
  (∃ kind, r = Raise (OSError kind name) ∧ m' = m)
  ∨ (r = Ok (locate name) ∧ m' = <[locate name := File []]> m
     ∧ m !! locate name ≠ Some Dir).
Proof.
  unfold open_wb.
  destruct (lookup_dir m [] (dirname name)) as [d|] eqn:Ed;
    [|intros [= <- <-]; left; eauto].
  destruct (last name) as [c|] eqn:El; [|intros [= <- <-]; left; eauto].
  destruct (is_dot c) eqn:Hd; simpl; [intros [= <- <-]; left; eauto|].
  case_bool_decide as Hdd; simpl; [intros [= <- <-]; left; eauto|].
  destruct (last_plain_locate _ _ El Hd Hdd) as [_ Hloc].
  apply lookup_dir_Some in Ed. fold (locate (dirname name)) in Ed.
  subst d. rewrite <- Hloc.
  destruct (m !! locate name) as [[|data]|] eqn:E;
    intros [= <- <-]; [left; eauto|right..]; by rewrite ?E.
Qed.

(** The five ways the copy of a member can go. *)
Lemma copy_member_inv file_info target_path m m' r :
  copy_member file_info target_path m = (m', r) →
  (∃ kind, r = Raise (OSError kind target_path) ∧ m' = m)
  ∨ (∃ msg, content file_info = Unopenable msg
       ∧ r = Raise (BadZipFile msg) ∧ m' = m)
  ∨ (∃ msg, content file_info = Unreadable msg
       ∧ r = Raise (BadZipFile msg)
       ∧ m' = <[locate target_path := File []]> m
       ∧ m !! locate target_path ≠ Some Dir)
  ∨ (∃ data, content file_info = Readable data
       ∧ r = Ok ()
       ∧ m' = <[locate target_path := File data]> m
       ∧ m !! locate target_path ≠ Some Dir)
  ∨ (∃ data written errno,
       content file_info = Unwritable data written errno
       ∧ r = Raise (WriteError errno)
       ∧ m' = <[locate target_path := File (take written data)]> m
       ∧ m !! locate target_path ≠ Some Dir).
Proof.
  unfold copy_member.
  destruct (content file_info) as [data|msg|msg|data written errno].
  - unfold mbind, io_bind.
    destruct (open_wb target_path m) as [m1 r1] eqn:E.
    apply open_wb_inv in E as [(kind & -> & ->)|(-> & -> & Hnd)].
    + intros [= <- <-]. left. eauto.
    + unfold write. intros [= <- <-]. do 3 right. left.
      exists data. by rewrite insert_insert_eq.
  - unfold mbind, io_bind.
    destruct (open_wb target_path m) as [m1 r1] eqn:E.
    apply open_wb_inv in E as [(kind & -> & ->)|(-> & -> & Hnd)].
    + intros [= <- <-]. left. eauto.
    + unfold raise. intros [= <- <-]. right. right. left. eauto.
  - unfold raise. intros [= <- <-]. right. left. eauto.
  - unfold mbind, io_bind.
    destruct (open_wb target_path m) as [m1 r1] eqn:E.
    apply open_wb_inv in E as [(kind & -> & ->)|(-> & -> & Hnd)].
    + intros [= <- <-]. left. eauto.
    + unfold write_fails. intros [= <- <-]. do 4 right.
      exists data, written, errno. by rewrite insert_insert_eq.
Qed.

Lemma dirname_prefix (p : path) : dirname p `prefix_of` p.
Proof.
  unfold dirname. destruct (last p) as [c|] eqn:E.
  - apply last_Some in E as [d ->]. rewrite removelast_last.
    by apply prefix_app_r.
  - apply last_None in E as ->. done.
Qed.

Lemma take_of_prefix (k : nat) (d p : path) :
  d `prefix_of` p → take k d = take (min k (length d)) p.
Proof.
  intros [s ->]. rewrite take_app_le by lia.
  destruct (decide (k ≤ length d)).
  - by rewrite Nat.min_l.
  - rewrite Nat.min_r by lia. by rewrite !take_ge by lia.
Qed.

Lemma locate_take_dirname k (p : path) :
  ∃ k', locate (take k (dirname p)) = locate (take k' p).
Proof.
  exists (min k (length (dirname p))).
  by rewrite (take_of_prefix k _ p (dirname_prefix p)).
Qed.

(** What one entry changes on the file system, whether it succeeds or
    fails: missing directories on the way to its target are created; for a
    file entry whose bytes are read and written the target holds them; for
    a file entry whose bytes cannot be read the target has been emptied;
    for a file entry whose write fails the target holds what was written
    of them. *)
Lemma materialize_changes file_info target_path m m' r q :
  materialize file_info target_path m = (m', r) →
  m' !! q = m !! q
  ∨ (m !! q = None ∧ m' !! q = Some Dir
     ∧ ∃ k, q = locate (take k target_path))
  ∨ (is_dir file_info = false ∧ q = locate target_path
     ∧ m !! q ≠ Some Dir
     ∧ ((∃ data, content file_info = Readable data ∧ r = Ok ()
                 ∧ m' !! q = Some (File data))
        ∨ (∃ msg, content file_info = Unreadable msg
                  ∧ r = Raise (BadZipFile msg)
                  ∧ m' !! q = Some (File []))
        ∨ (∃ data written errno,
             content file_info = Unwritable data written errno
             ∧ r = Raise (WriteError errno)
             ∧ m' !! q = Some (File (take written data))))).
Proof.
  unfold materialize. destruct (is_dir file_info).
  { intros H. unfold os_makedirs in H.
    destruct (makedirs_from_changes _ _ _ _ _ _ q H) as [?|?]; auto. }
  unfold mbind, io_bind, os_makedirs.
  destruct (makedirs_from [] [] (dirname target_path) m) as [m1 r1] eqn:E1.
  assert (Hmk : m1 !! q = m !! q
     ∨ (m !! q = None ∧ m1 !! q = Some Dir
        ∧ ∃ k, q = locate (take k target_path))).
  { destruct (makedirs_from_changes _ _ _ _ _ _ q E1)
      as [?|(? & ? & k & ->)]; [by left|right].
    repeat split; try done.
    destruct (locate_take_dirname k target_path) as [k' Hk']. by exists k'. }
  destruct r1 as [[]|e]; [|intros [= <- <-]; tauto].
  intros H. apply copy_member_inv in H
    as [(kind & -> & ->)|[(msg & Hc & -> & ->)
       |[(msg & Hc & -> & -> & Hnd)|[(data & Hc & -> & -> & Hnd)
         |(data & written & errno & Hc & -> & -> & Hnd)]]]];
    try tauto.
  - destruct (decide (q = locate target_path)) as [->|Hq].
    + rewrite lookup_insert_eq.
      destruct Hmk as [Hmk|(? & ? & _)]; [|done].
      right. right. rewrite <- Hmk. repeat split; try done.
      right. left. eauto.
    + rewrite lookup_insert_ne by done. tauto.
  - destruct (decide (q = locate target_path)) as [->|Hq].
    + rewrite lookup_insert_eq.
      destruct Hmk as [Hmk|(? & ? & _)]; [|done].
      right. right. rewrite <- Hmk. repeat split; try done. left. eauto.
    + rewrite lookup_insert_ne by done. tauto.
  - destruct (decide (q = locate target_path)) as [->|Hq].
    + rewrite lookup_insert_eq.
      destruct Hmk as [Hmk|(? & ? & _)]; [|done].
      right. right. rewrite <- Hmk. repeat split; try done.
      right. right. eauto 10.
    + rewrite lookup_insert_ne by done. tauto.
Qed.

(** A file entry that is extracted without error had readable bytes, and
    they are now at the location of its target. *)
Lemma materialize_file_Ok file_info target_path m m' :
  is_dir file_info = false →
  materialize file_info target_path m = (m', Ok ()) →
  ∃ data, content file_info = Readable data
          ∧ m' !! locate target_path = Some (File data).
Proof.
  intros Hf. unfold materialize. rewrite Hf.
  unfold mbind, io_bind.
  destruct (os_makedirs (dirname target_path) m) as [m1 [[]|e]]; [|done].
  intros [(kind & ? & _)|[(msg & _ & ? & _)
         |[(msg & _ & ? & _)|[(data & Hc & _ & -> & _)
           |(? & ? & ? & _ & ? & _)]]]]%copy_member_inv;
    try done.
  exists data. by rewrite lookup_insert_eq.
Qed.


(** ** The loop over the entries *)

Lemma split_slash_not_nil s : split_slash s ≠ [].
Proof.
  destruct s as [|c t]; [done|]. simpl.
  case_decide; [done|]. by destruct (split_slash t).
Qed.

Lemma extract_entry_skip o output_dir dir_contents file_info m :
  split_slash (filename file_info) = [""] →
  extract_entry o output_dir dir_contents file_info m = (m, Ok dir_contents).
Proof.
  intros H. unfold extract_entry. rewrite H.
  by rewrite decide_True by auto.
Qed.

Lemma extract_entry_resolved o output_dir dir_contents file_info m
    dir_contents' target_path :
  split_slash (filename file_info) ≠ [""] →
  resolve_parts o dir_contents output_dir (split_slash (filename file_info))
  = Ok (dir_contents', target_path) →
  extract_entry o output_dir dir_contents file_info m
  = match materialize file_info target_path m with
    | (m', Ok _) => (m', Ok dir_contents')
    | (m', Raise e) => (m', Raise e)
    end.
Proof.
  intros Hne Hres. unfold extract_entry.
  rewrite decide_False
    by (intros [?|?]; [by eapply split_slash_not_nil|done]).
  unfold mbind at 1, io_bind at 1, pure. rewrite Hres.
  unfold mbind, io_bind.
  by destruct (materialize file_info target_path m) as [m' [[]|e]].
Qed.

(** The loop is the resolution of the paths followed by the work on the
    file system; the ledger it ends with does not depend on the file
    system. *)
Lemma extract_entries_plan o output_dir dir_contents infolist :
  ledger_ok dir_contents →
  ∃ dir_contents',
    ledger_ok dir_contents'
    ∧ (∀ p, recorded dir_contents p ⊆ recorded dir_contents' p)
    ∧ ∀ m,
        extract_entries o output_dir dir_contents infolist m
        = match materialize_all
                  (targets o output_dir dir_contents infolist) m with
          | (m', Ok _) => (m', Ok dir_contents')
          | (m', Raise e) => (m', Raise e)
          end.
Proof.
  revert dir_contents.
  induction infolist as [|file_info rest IH]; intros dc Hok.
  - exists dc. by repeat split.
  - simpl. destruct (decide (split_slash (filename file_info) = [""]))
      as [Hs|Hs].
    + rewrite decide_True by auto.
      destruct (IH dc Hok) as (dc' & Hok' & Hsub & Hrun).
      exists dc'. repeat split; try done. intros m.
      unfold mbind, io_bind. rewrite extract_entry_skip by done.
      apply Hrun.
    + rewrite decide_False
        by (intros [?|?]; [by eapply split_slash_not_nil|done]).
      destruct (resolve_parts_Ok o dc output_dir
                  (split_slash (filename file_info)) Hok)
        as (dc1 & names & Hres & Hok1 & _ & Hsub1).
      rewrite Hres.
      destruct (IH dc1 Hok1) as (dc' & Hok' & Hsub & Hrun).
      exists dc'. repeat split; try done.
      { intros p. etrans; [apply Hsub1|apply Hsub]. }
      intros m. unfold mbind at 1, io_bind at 1.
      rewrite (extract_entry_resolved _ _ _ _ _ _ _ Hs Hres). simpl.
      unfold mbind, io_bind.
      destruct (materialize file_info (output_dir ++ names) m)
        as [m1 [[]|e]]; [apply Hrun|done].
Qed.

Lemma extract_jar_case_safe_plan o infolist output_dir m :
  extract_jar_case_safe o (Archive infolist) output_dir m
  = materialize_all (targets o output_dir ∅ infolist) m.
Proof.
  destruct (extract_entries_plan o output_dir ∅ infolist ledger_ok_empty)
    as (dc' & _ & _ & Hrun).
  unfold extract_jar_case_safe, mbind, io_bind. rewrite Hrun.
  by destruct (materialize_all _ m) as [m' [[]|e]].
Qed.

Lemma targets_order o1 o2 output_dir dir_contents infolist :
  ledger_ok dir_contents →
  targets o1 output_dir dir_contents infolist
  = targets o2 output_dir dir_contents infolist.
Proof.
  revert dir_contents.
  induction infolist as [|file_info rest IH]; intros dc Hok; [done|].
  simpl. case_decide; [by apply IH|].
  rewrite (resolve_parts_order o1 o2) by done.
  destruct (resolve_parts_Ok o2 dc output_dir
              (split_slash (filename file_info)) Hok)
    as (dc1 & names & -> & Hok1 & _).
  f_equal. by apply IH.
Qed.

(** Every target is the output directory followed by one component per
    non-empty segment of the entry's name, each of them the segment or its
    rewritten form. *)
Lemma targets_shape o output_dir dir_contents infolist file_info target_path :
  ledger_ok dir_contents →
  (file_info, target_path) ∈ targets o output_dir dir_contents infolist →
  file_info ∈ infolist
  ∧ ∃ names, target_path = output_dir ++ names
             ∧ renamed (split_slash (filename file_info)) names.
Proof.
  revert dir_contents.
  induction infolist as [|fi rest IH]; intros dc Hok; simpl.
  - by intros ?%elem_of_nil.
  - case_decide.
    { intros [? ?]%IH; [|done]. split; [by right|done]. }
    destruct (resolve_parts_Ok o dc output_dir
                (split_slash (filename fi)) Hok)
      as (dc1 & names & -> & Hok1 & Hren & _).
    intros [[= -> ->]|Hin]%elem_of_cons.
    + split; [by left|eauto].
    + apply IH in Hin as [? ?]; [|done]. split; [by right|done].
Qed.

Lemma materialize_all_cons file_info target_path rest m :
  materialize_all ((file_info, target_path) :: rest) m
  = match materialize file_info target_path m with
    | (m1, Ok _) => materialize_all rest m1
    | (m1, Raise e) => (m1, Raise e)
    end.
Proof. done. Qed.

Lemma materialize_all_app ts1 ts2 m :
  materialize_all (ts1 ++ ts2) m
  = match materialize_all ts1 m with
    | (m1, Ok _) => materialize_all ts2 m1
    | (m1, Raise e) => (m1, Raise e)
    end.
Proof.
  revert m. induction ts1 as [|[fi t] ts1 IH]; intros m; [done|].
  rewrite <- app_comm_cons, !materialize_all_cons.
  destruct (materialize fi t m) as [m1 [[]|e]]; [apply IH|done].
Qed.


(** Where the extraction changes the file system. *)
Lemma materialize_all_changes ts m m' r q :
  materialize_all ts m = (m', r) →
  m' !! q ≠ m !! q →
  ∃ file_info target_path k,
    (file_info, target_path) ∈ ts ∧ q = locate (take k target_path).
Proof.
  revert m. induction ts as [|[fi t] ts IH]; intros m.
  - by intros [= <- <-].
  - rewrite materialize_all_cons.
    destruct (materialize fi t m) as [m1 r1] eqn:E. intros H Hq.
    assert (Hhere : m1 !! q ≠ m !! q →
      ∃ file_info target_path k,
        (file_info, target_path) ∈ (fi, t) :: ts
        ∧ q = locate (take k target_path)).
    { intros Hne.
      destruct (materialize_changes _ _ _ _ _ q E)
        as [?|[(_ & _ & k & ->)|(_ & -> & _)]]; [done|..].
      - exists fi, t, k. split; [by left|done].
      - exists fi, t, (length t). split; [by left|]. by rewrite take_ge. }
    destruct r1 as [[]|e1].
    + destruct (decide (m1 !! q = m !! q)) as [Heq|Hne]; [|by apply Hhere].
      rewrite <- Heq in Hq.
      destruct (IH _ H Hq) as (fi' & t' & k & Hin & ->).
      exists fi', t', k. split; [by right|done].
    + injection H as <- <-. by apply Hhere.
Qed.

(** A file stays as it is while no later file entry is written at its
    location: directory entries only add directories. *)
Lemma materialize_all_keeps_file ts m m' loc data :
  materialize_all ts m = (m', Ok ()) →
  m !! loc = Some (File data) →
  (∀ file_info target_path,
     (file_info, target_path) ∈ ts → is_dir file_info = false →
     locate target_path ≠ loc) →
  m' !! loc = Some (File data).
Proof.
  revert m. induction ts as [|[fi t] ts IH]; intros m.
  - by intros [= <-].
  - rewrite materialize_all_cons.
    destruct (materialize fi t m) as [m1 [[]|e1]] eqn:E; [|done].
    intros H Hloc Hother. apply (IH m1); [done| |].
    + destruct (materialize_changes _ _ _ _ _ loc E)
        as [->|[(? & _)|(Hf & -> & _)]]; [done|congruence|].
      by destruct (Hother fi t); [left|..].
    + intros fi' t' Hin. apply Hother. by right.
Qed.

(** Running [os.makedirs] again changes nothing and ends the same way. *)
Lemma makedirs_from_again cur seen todo m m' r :
  makedirs_from cur seen todo m = (m', r) →
  makedirs_from cur seen todo m' = (m', r).
Proof.
  revert cur seen m. induction todo as [|c rest IH]; intros cur seen m.
  - by intros [= <- <-].
  - simpl. destruct (is_dot c); [by apply IH|].
    case_decide as Hdd; [by apply IH|].
    destruct (m !! (cur ++ [c])) as [[|data]|] eqn:E.
    + intros H. rewrite (makedirs_from_keeps _ _ _ _ _ _ _ _ H E).
      by eapply IH.
    + destruct rest; intros [= <- <-]; by rewrite E.
    + intros H.
      rewrite (makedirs_from_keeps _ _ _ _ _ _ (cur ++ [c]) Dir H)
        by apply lookup_insert_eq.
      by eapply IH.
Qed.

(** ** The host's [os.path.join]

    When it appends the part as one component, as [posixpath.join] does
    with a part that holds no '/', the extraction is the one with
    [posixpath]. *)

Lemma resolve_parts_posix (P : OsPath) o dir_contents curr_dir parts :
  (∀ a p, os_path_join (OsPath := P) a p = a ++ [p]) →
  resolve_parts (P := P) o dir_contents curr_dir parts
  = resolve_parts (P := posixpath) o dir_contents curr_dir parts.
Proof.
  intros HP. revert dir_contents curr_dir.
  induction parts as [|part rest IH]; intros dc cur; [done|]. simpl.
  case_decide; [apply IH|].
  destruct (fix_case_conflict o _ part) as [fixed|e]; simpl; [|done].
  by rewrite IH, HP.
Qed.

Lemma extract_entry_posix (P : OsPath) o output_dir dir_contents file_info m :
  (∀ a p, os_path_join (OsPath := P) a p = a ++ [p]) →
  extract_entry (P := P) o output_dir dir_contents file_info m
  = extract_entry (P := posixpath) o output_dir dir_contents file_info m.
Proof.
  intros HP. unfold extract_entry. by rewrite (resolve_parts_posix P).
Qed.

Lemma extract_entries_posix (P : OsPath) o output_dir dir_contents infolist m :
  (∀ a p, os_path_join (OsPath := P) a p = a ++ [p]) →
  extract_entries (P := P) o output_dir dir_contents infolist m
  = extract_entries (P := posixpath) o output_dir dir_contents infolist m.
Proof.
  intros HP. revert dir_contents m.
  induction infolist as [|fi rest IH]; intros dc m; [done|]. simpl.
  unfold mbind, io_bind. rewrite (extract_entry_posix P) by done.
  destruct (extract_entry _ _ _ _ m) as [m1 [dc1|e]]; [apply IH|done].
Qed.

Lemma extract_jar_case_safe_posix (P : OsPath) o jar output_dir m :
  (∀ a p, os_path_join (OsPath := P) a p = a ++ [p]) →
  extract_jar_case_safe (P := P) o jar output_dir m
  = extract_jar_case_safe (P := posixpath) o jar output_dir m.
Proof.
  intros HP. destruct jar as [msg|infolist]; [done|].
  unfold extract_jar_case_safe, mbind, io_bind.
  by rewrite (extract_entries_posix P).
Qed.

End properties.

(** ** Names that start with ASCII characters

    On such names the walk is the same for every [str.lower]. *)

Lemma str_lower_ascii_eq (L1 L2 : StrLower) c :
  (nat_of_ascii c < 128)%nat → str_lower (StrLower := L1) c
                                = str_lower (StrLower := L2) c.
Proof. intros Hc. by rewrite !str_lower_ascii. Qed.

Lemma case_variant_ascii (L1 L2 : StrLower) a b :
  ascii_initial a = true → ascii_initial b = true →
  case_variant (L := L1) a b = case_variant (L := L2) a b.
Proof.
  destruct a as [|c t], b as [|d u]; try done. simpl.
  intros Hc%bool_decide_eq_true Hd%bool_decide_eq_true.
  by rewrite (str_lower_ascii_eq L1 L2 c), (str_lower_ascii_eq L1 L2 d).
Qed.

Lemma rule_name_ascii (L1 L2 : StrLower) (X : gset string) name :
  set_Forall (λ x, ascii_initial x = true) X → ascii_initial name = true →
  rule_name (L := L1) X name = rule_name (L := L2) X name.
Proof.
  intros HX Hn. unfold rule_name.
  assert (H : has_variant (L := L1) X name ↔ has_variant (L := L2) X name).
  { unfold has_variant. split; intros (e & He & Hv); exists e;
      (split; [done|]).
    - by rewrite <- (case_variant_ascii L1 L2) by auto.
    - by rewrite (case_variant_ascii L1 L2) by auto. }
  destruct (decide (has_variant (L := L1) X name)) as [Hv|Hv].
  - by rewrite decide_True by by apply H.
  - by rewrite decide_False by by rewrite <- H.
Qed.

Lemma ascii_initial_rule_name {L : StrLower} X name :
  ascii_initial (rule_name X name) = ascii_initial name.
Proof.
  destruct (rule_name_cases X name) as [->| ->]; [done|]. by destruct name.
Qed.

Lemma ledger_ascii_empty : ledger_ascii ∅.
Proof. intros p X. by rewrite lookup_empty. Qed.

Lemma recorded_ascii dir_contents p :
  ledger_ascii dir_contents →
  set_Forall (λ x, ascii_initial x = true) (recorded dir_contents p).
Proof.
  intros Ha. unfold recorded.
  destruct (dir_contents !! p) as [X|] eqn:E; simpl; [by eapply Ha|].
  intros x. set_solver.
Qed.

Lemma record_ascii dir_contents parent name :
  ledger_ascii dir_contents → ascii_initial name = true →
  ledger_ascii (record dir_contents parent name).
Proof.
  intros Ha Hn p X. unfold record. rewrite lookup_insert.
  case_decide as Hp; [subst p|exact (Ha p X)].
  intros [= <-] x [->%elem_of_singleton|Hx]%elem_of_union; [done|].
  by apply (recorded_ascii _ parent Ha).
Qed.

Lemma resolve_parts_ascii (L1 L2 : StrLower) o dir_contents curr_dir parts :
  ledger_ok dir_contents → ledger_ascii dir_contents →
  Forall (λ part, ascii_initial part = true) parts →
  resolve_parts (L := L1) o dir_contents curr_dir parts
  = resolve_parts (L := L2) o dir_contents curr_dir parts
  ∧ ∀ dir_contents' t,
      resolve_parts (L := L2) o dir_contents curr_dir parts
      = Ok (dir_contents', t) →
      ledger_ascii dir_contents'.
Proof.
  intros Hok Ha Hparts. revert dir_contents curr_dir Hok Ha.
  induction Hparts as [|part rest Hp _ IH]; intros dc cur Hok Ha.
  - split; [done|]. by intros dc' t [= <- _].
  - destruct (decide (part = "")) as [->|Hn].
    + rewrite !resolve_parts_skip. by apply IH.
    + rewrite !resolve_parts_cons by done.
      rewrite (rule_name_ascii L1 L2) by auto using recorded_ascii.
      apply IH.
      * apply record_ok; [done|by apply rule_name_nonempty].
      * apply record_ascii; [done|]. by rewrite ascii_initial_rule_name.
Qed.

Lemma targets_ascii (L1 L2 : StrLower) o output_dir dir_contents infolist :
  ledger_ok dir_contents → ledger_ascii dir_contents →
  Forall (λ fi, ascii_segments (filename fi)) infolist →
  targets (L := L1) o output_dir dir_contents infolist
  = targets (L := L2) o output_dir dir_contents infolist.
Proof.
  intros Hok Ha Hall. revert dir_contents Hok Ha.
  induction Hall as [|fi rest Hfi _ IH]; intros dc Hok Ha; [done|].
  simpl. case_decide; [by apply IH|].
  destruct (resolve_parts_ascii L1 L2 o dc output_dir
              (split_slash (filename fi)) Hok Ha Hfi) as [-> Hdc].
  destruct (resolve_parts_Ok (L := L2) o dc output_dir
              (split_slash (filename fi)) Hok)
    as (dc1 & names & Hres & Hok1 & _).
  rewrite Hres. f_equal. apply IH; [done|]. by eapply Hdc.
Qed.

(** ** Runs on concrete archives *)

(** Two outcomes are equal when they list the same nodes and end the same
    way. *)
Lemma run_eq {A} (x y : fs * result A) :
  map_to_list x.1 = map_to_list y.1 → x.2 = y.2 → x = y.
Proof.
  destruct x as [m r], y as [m' r']. simpl. intros Hm ->.
  f_equal. apply map_to_list_inj. by rewrite Hm.
Qed.

Ltac by_eval := apply run_eq; vm_compute; reflexivity.

Ltac by_run :=
  rewrite ?extract_jar_case_safe_plan;
  rewrite ?(targets_order _ sorted_iteration) by apply ledger_ok_empty;
  by_eval.

(** A closed, decidable statement, settled by evaluation. *)
Ltac by_decide := apply (bool_decide_unpack _); vm_compute; exact I.

(** The same for a run on names that start with ASCII characters, with
    any [str.lower]. *)
Ltac by_ascii_run L :=
  rewrite ?extract_jar_case_safe_plan;
  rewrite ?(targets_ascii L python_lower)
    by (first [apply ledger_ok_empty|apply ledger_ascii_empty|by_decide]);
  rewrite ?(targets_order _ sorted_iteration) by apply ledger_ok_empty;
  by_eval.

(** * The claims *)

(** C8. The extraction is deterministic: its outcome (the tree it leaves
    and the way it ends) is the same whatever the order in which Python
    enumerates the sets of the ledger, so that two runs on the same archive
    and the same starting tree agree node for node and byte for byte.  The
    archive made of the directory entry [A/] followed by the file entry
    [A/x.txt] yields, in an empty output directory, one directory [A] that
    holds one file [x.txt]; creating a directory is idempotent: a second
    [os.makedirs] of the same path changes nothing and ends as the first. *)
Theorem extract_deterministic :
  (∀ o1 o2 jar output_dir m,
     extract_jar_case_safe o1 jar output_dir m
     = extract_jar_case_safe o2 jar output_dir m)
  ∧ (∀ o data,
       extract_jar_case_safe o
         (Archive [dir_entry "A/"; file_entry "A/x.txt" data]) ["out"]
         {[ ["out"] := Dir ]}
       = (list_to_map [(["out"], Dir); (["out"; "A"], Dir);
                       (["out"; "A"; "x.txt"], File data)], Ok ()))
  ∧ (∀ name m,
       os_makedirs name (os_makedirs name m).1 = os_makedirs name m).
Proof.
  split; [|split].
  - intros o1 o2 [msg|infolist] output_dir m; [done|].
    rewrite !extract_jar_case_safe_plan.
    by rewrite (targets_order o1 o2) by apply ledger_ok_empty.
  - intros o data. by_run.
  - intros name m. destruct (os_makedirs name m) as [m' r] eqn:E.
    by apply makedirs_from_again in E.
Qed.

(** C2. The archive whose entries are, in order, the directory [pkg/], the
    file [pkg/Main.txt] with payload [b"A"] and the file [pkg/main.txt] with
    payload [b"B"], extracted into an empty output directory, leaves exactly
    the directory [pkg] with the file [Main.txt] holding [A] and the file
    [m_ain.txt] holding [B]. *)
Theorem scenario_pkg_main :
  ∀ o,
    extract_jar_case_safe o
      (Archive [dir_entry "pkg/";
                file_entry "pkg/Main.txt" ["A"%byte];
                file_entry "pkg/main.txt" ["B"%byte]])
      ["out"] {[ ["out"] := Dir ]}
    = (list_to_map [(["out"], Dir); (["out"; "pkg"], Dir);
                    (["out"; "pkg"; "Main.txt"], File ["A"%byte]);
                    (["out"; "pkg"; "m_ain.txt"], File ["B"%byte])], Ok ()).
Proof. intros o. by_run. Qed.

(** C9. For every set of recorded sibling names (none of them empty, as in
    every ledger) and every non-empty segment name, [fix_case_conflict]
    returns the name unchanged or exactly [name[0] + "_" + name[1:]]: the
    first character is the one of the name, and at most one character is
    added.  The loop then records the returned name under the parent as it
    is, whatever its own relation to the names recorded there, and goes on
    below it. *)
Theorem fix_case_conflict_result :
  ∀ o existing name,
    "" ∉ existing → name ≠ "" →
    ∃ fixed,
      fix_case_conflict o existing name = Ok fixed
      ∧ (fixed = name ∨ Ok fixed = inject_separator name)
      ∧ index0 fixed = index0 name
      ∧ String.length fixed ≤ S (String.length name)
      ∧ ∀ dir_contents curr_dir rest,
          ledger_ok dir_contents →
          recorded dir_contents curr_dir = existing →
          resolve_parts o dir_contents curr_dir (name :: rest)
          = resolve_parts o
              (<[curr_dir := {[fixed]} ∪ existing]> dir_contents)
              (curr_dir ++ [fixed]) rest.
Proof.
  intros o existing name Hex Hn. exists (rule_name existing name).
  split; [by apply fix_case_conflict_Ok|].
  split; [|split; [|split]].
  - destruct (rule_name_cases existing name) as [->| ->]; [by left|right].
    by rewrite inject_separator_Ok.
  - destruct (rule_name_cases existing name) as [->| ->]; [done|].
    by destruct name.
  - destruct (rule_name_cases existing name) as [->| ->]; [lia|].
    destruct name; simpl; lia.
  - intros dc cur rest Hok <-. by rewrite resolve_parts_cons.
Qed.

Lemma fix_case_conflict_result_witness :
(("" ∉ ({["file"]} : gset string)) ∧ "File" ≠ "")
  ∧ ∃ fixed,
      fix_case_conflict sorted_iteration {["file"]} "File" = Ok fixed
      ∧ (fixed = "File" ∨ Ok fixed = inject_separator "File")
      ∧ index0 fixed = index0 "File"
      ∧ String.length fixed ≤ S (String.length "File")
      ∧ ∀ dir_contents curr_dir rest,
          ledger_ok dir_contents →
          recorded dir_contents curr_dir = {["file"]} →
          resolve_parts sorted_iteration dir_contents curr_dir
            ("File" :: rest)
          = resolve_parts sorted_iteration
              (<[curr_dir := {[fixed]} ∪ {["file"]}]> dir_contents)
              (curr_dir ++ [fixed]) rest.
Proof.
  split; [split; by_decide|].
  apply (fix_case_conflict_result sorted_iteration {["file"]} "File");
    by_decide.
Defined.

(** C1 (counterexample).  In the archive [File], [file], [F_ile], [f_ile]
    the names [F_ile] and [f_ile] differ only in first-character case and
    [F_ile] comes first, yet it is [F_ile] that is renamed (to [F__ile],
    because the second entry was recorded as [f_ile]) and the later [f_ile]
    that keeps its name. *)
Lemma first_seen_renamed_counterexample :
  case_variant "F_ile" "f_ile" = true
  ∧ targets sorted_iteration ["out"] ∅
      [file_entry "File" ["1"%byte]; file_entry "file" ["2"%byte];
       file_entry "F_ile" ["3"%byte]; file_entry "f_ile" ["4"%byte]]
    = [(file_entry "File" ["1"%byte], ["out"; "File"]);
       (file_entry "file" ["2"%byte], ["out"; "f_ile"]);
       (file_entry "F_ile" ["3"%byte], ["out"; "F__ile"]);
       (file_entry "f_ile" ["4"%byte], ["out"; "f_ile"])]
  ∧ extract_jar_case_safe sorted_iteration
      (Archive
         [file_entry "File" ["1"%byte]; file_entry "file" ["2"%byte];
          file_entry "F_ile" ["3"%byte]; file_entry "f_ile" ["4"%byte]])
      ["out"] {[ ["out"] := Dir ]}
    = (list_to_map [(["out"], Dir);
                    (["out"; "File"], File ["1"%byte]);
                    (["out"; "F__ile"], File ["3"%byte]);
                    (["out"; "f_ile"], File ["4"%byte])], Ok ()).
Proof. split; [done|split]; [by vm_compute|by_run]. Qed.

(** C1 (amended).  For the archive made of the top-level files [File] then
    [file], the first is written as [File] and the second as [f_ile].  In
    general a segment keeps its name whenever no name already recorded under
    its parent directory differs from it only in first-character case, in
    particular when it is the first name seen under that directory; it is
    rewritten, separator after its own first character, whenever such a
    name is recorded; and a recorded name stays recorded, so that once a
    name is kept every later sibling that differs from it only in
    first-character case is rewritten.  Two names differ only in
    first-character case when the code's test says so (same remainder,
    different first characters with the same [str.lower]); all of this
    holds whatever [str.lower] does outside ASCII. *)
Theorem first_writer_wins :
  ∀ (L : StrLower),
    (∀ o d1 d2,
       extract_jar_case_safe o
         (Archive [file_entry "File" d1; file_entry "file" d2]) ["out"]
         {[ ["out"] := Dir ]}
       = (list_to_map [(["out"], Dir); (["out"; "File"], File d1);
                       (["out"; "f_ile"], File d2)], Ok ()))
    ∧ (∀ o dir_contents curr_dir part rest,
         ledger_ok dir_contents → part ≠ "" →
         (dir_contents !! curr_dir = None
          ∨ ¬ has_variant (recorded dir_contents curr_dir) part) →
         resolve_parts o dir_contents curr_dir (part :: rest)
         = resolve_parts o (record dir_contents curr_dir part)
             (curr_dir ++ [part]) rest)
    ∧ (∀ o dir_contents curr_dir part rest,
         ledger_ok dir_contents → part ≠ "" →
         has_variant (recorded dir_contents curr_dir) part →
         resolve_parts o dir_contents curr_dir (part :: rest)
         = resolve_parts o (record dir_contents curr_dir (separated part))
             (curr_dir ++ [separated part]) rest)
    ∧ (∀ o dir_contents curr_dir parts dir_contents' target_path p,
         ledger_ok dir_contents →
         resolve_parts o dir_contents curr_dir parts
         = Ok (dir_contents', target_path) →
         recorded dir_contents p ⊆ recorded dir_contents' p).
Proof.
  intros L. split; [|split; [|split]].
  - intros o d1 d2. by_ascii_run L.
  - intros o dc cur part rest Hok Hn Hfree.
    rewrite resolve_parts_cons by done. unfold rule_name.
    rewrite decide_False; [done|].
    destruct Hfree as [Hnone|Hno]; [|done].
    intros (e & He & _). unfold recorded in He. rewrite Hnone in He.
    set_solver.
  - intros o dc cur part rest Hok Hn Hv.
    rewrite resolve_parts_cons by done. unfold rule_name.
    by rewrite decide_True.
  - intros o dc cur parts dc' t p Hok Hres.
    destruct (resolve_parts_Ok o dc cur parts Hok)
      as (dc1 & names & Hres' & _ & _ & Hsub).
    rewrite Hres in Hres'. injection Hres' as -> _. apply Hsub.
Qed.

Lemma first_writer_wins_witness :
  (ledger_ok (∅ : ledger) ∧ "File" ≠ ""
   ∧ resolve_parts sorted_iteration ∅ ["out"] ["File"]
     = resolve_parts sorted_iteration (record ∅ ["out"] "File")
         (["out"] ++ ["File"]) [])
  ∧ (ledger_ok (record ∅ ["out"] "File")
     ∧ has_variant (recorded (record ∅ ["out"] "File") ["out"]) "file"
     ∧ resolve_parts sorted_iteration (record ∅ ["out"] "File") ["out"]
         ["file"]
       = resolve_parts sorted_iteration
           (record (record ∅ ["out"] "File") ["out"] (separated "file"))
           (["out"] ++ [separated "file"]) [])
  ∧ recorded (record ∅ ["out"] "File") ["out"]
    ⊆ recorded
        (record (record ∅ ["out"] "File") ["out"] "f_ile") ["out"].
Proof.
  destruct (first_writer_wins python_lower)
    as (_ & Hkeep & Hrewrite & Hmono).
  split; [|split].
  - split; [by_decide|]. split; [done|].
    apply Hkeep; [by_decide|done|by left].
  - split; [by_decide|]. split; [by_decide|].
    apply Hrewrite; [by_decide|done|by_decide].
  - apply (Hmono sorted_iteration (record ∅ ["out"] "File") ["out"]
             ["file"] _ ["out"; "f_ile"]); by_decide.
Defined.

(** C3 (counterexample).  In the archive [file], [f_ile], [File], [F_ile],
    [f_ile] the last two entries have original names that differ only in
    first-character case; both are rewritten, to [F__ile] and [f__ile],
    which are recorded under the same directory and are equal under a
    case-insensitive comparison. *)
Lemma both_rewritten_counterexample :
  targets sorted_iteration ["out"] ∅
    [file_entry "file" ["1"%byte]; file_entry "f_ile" ["2"%byte];
     file_entry "File" ["3"%byte]; file_entry "F_ile" ["4"%byte];
     file_entry "f_ile" ["5"%byte]]
  = [(file_entry "file" ["1"%byte], ["out"; "file"]);
     (file_entry "f_ile" ["2"%byte], ["out"; "f_ile"]);
     (file_entry "File" ["3"%byte], ["out"; "F_ile"]);
     (file_entry "F_ile" ["4"%byte], ["out"; "F__ile"]);
     (file_entry "f_ile" ["5"%byte], ["out"; "f__ile"])]
  ∧ case_variant "F_ile" "f_ile" = true
  ∧ "F__ile" ≠ "f__ile"
  ∧ lower_str "F__ile" = lower_str "f__ile".
Proof. repeat split; by vm_compute. Qed.

(** C3 (amended).  At every point of the extraction the names recorded in
    the ledger are non-empty, and whenever a segment is resolved under a
    ledger entry: if the name it is given differs only in first-character
    case from a sibling already recorded there, that name is a rewritten
    one, the original with the separator injected, so that of two such
    recorded names the second one encountered never kept its original form;
    and if the original name of the segment differs only in first-character
    case from a recorded sibling, the segment is rewritten and its final
    name is not equal to that sibling under a case-insensitive comparison.
    (The rewritten name is not checked again: it may still be equal, case
    apart, to another recorded sibling.)  This holds whatever [str.lower]
    does outside ASCII; the names are compared, case apart, by the lower
    cases of their characters. *)
Theorem case_collision_invariant :
  ∀ (L : StrLower) o dir_contents curr_dir part rest,
    ledger_ok dir_contents → part ≠ "" →
    ∃ fixed,
      fix_case_conflict o (recorded dir_contents curr_dir) part = Ok fixed
      ∧ resolve_parts o dir_contents curr_dir (part :: rest)
        = resolve_parts o (record dir_contents curr_dir fixed)
            (curr_dir ++ [fixed]) rest
      ∧ ledger_ok (record dir_contents curr_dir fixed)
      ∧ ∀ e, e ∈ recorded dir_contents curr_dir →
          (case_variant e fixed = true →
           fixed = separated part ∧ fixed ≠ part)
          ∧ (case_variant e part = true →
             fixed = separated part ∧ lower_str fixed ≠ lower_str e).
Proof.
  intros L o dc cur part rest Hok Hn.
  exists (rule_name (recorded dc cur) part).
  split; [apply fix_case_conflict_Ok; [by apply recorded_nonempty|done]|].
  split; [by apply resolve_parts_cons|].
  split; [apply record_ok; [done|by apply rule_name_nonempty]|].
  intros e He. unfold rule_name. case_decide as Hv.
  - split; intros Hc; (split; [done|]); [by apply separated_ne|].
    apply case_variant_inv in Hc as (c & d & t & -> & -> & Hl & _).
    by apply lower_str_separated.
  - split; intros Hc; destruct Hv; by exists e.
Qed.

Lemma case_collision_invariant_witness :
  (ledger_ok (record ∅ ["out"] "file") ∧ "File" ≠ "")
  ∧ ∃ fixed,
      fix_case_conflict sorted_iteration
        (recorded (record ∅ ["out"] "file") ["out"]) "File" = Ok fixed
      ∧ resolve_parts sorted_iteration (record ∅ ["out"] "file") ["out"]
          ["File"]
        = resolve_parts sorted_iteration
            (record (record ∅ ["out"] "file") ["out"] fixed)
            (["out"] ++ [fixed]) []
      ∧ ledger_ok (record (record ∅ ["out"] "file") ["out"] fixed)
      ∧ ∀ e, e ∈ recorded (record ∅ ["out"] "file") ["out"] →
          (case_variant e fixed = true →
           fixed = separated "File" ∧ fixed ≠ "File")
          ∧ (case_variant e "File" = true →
             fixed = separated "File" ∧ lower_str fixed ≠ lower_str e).
Proof.
  split; [split; by_decide|].
  apply (case_collision_invariant python_lower sorted_iteration
           (record ∅ ["out"] "file") ["out"] "File" []); by_decide.
Defined.

(** The ledger of the extraction keeps its names non-empty at every
    point: from the empty ledger, through every walk. *)
Lemma ledger_ok_preserved o dir_contents curr_dir parts dir_contents' target :
  ledger_ok dir_contents →
  resolve_parts o dir_contents curr_dir parts = Ok (dir_contents', target) →
  ledger_ok dir_contents'.
Proof.
  intros Hok Hres.
  destruct (resolve_parts_Ok o dir_contents curr_dir parts Hok)
    as (dc1 & names & Hres' & Hok1 & _).
  rewrite Hres in Hres'. by injection Hres' as -> _.
Qed.

(** ** Degenerate names *)

Lemma resolve_parts_all_empty o dir_contents curr_dir parts :
  forallb (λ part, bool_decide (part = "")) parts = true →
  resolve_parts o dir_contents curr_dir parts = Ok (dir_contents, curr_dir).
Proof.
  induction parts as [|part rest IH]; [done|]. simpl.
  intros [Hp Hrest]%andb_true_iff. apply bool_decide_eq_true in Hp as ->.
  by apply IH.
Qed.

Lemma only_slashes_inv c t :
  only_slashes (String c t) = true → c = "/"%char ∧ only_slashes t = true.
Proof.
  unfold only_slashes. simpl. case_decide as Hc.
  - simpl. by intros ->.
  - by destruct (split_slash t).
Qed.

Lemma only_slashes_is_dir s :
  only_slashes s = true → s ≠ "" → endswith_slash s = true.
Proof.
  induction s as [|c t IH]; [done|].
  intros [-> Ht]%only_slashes_inv _. simpl.
  destruct t as [|c' t']; [done|]. by apply IH.
Qed.

Lemma only_slashes_split s :
  only_slashes s = true → s ≠ "" → split_slash s ≠ [""].
Proof.
  destruct s as [|c t]; [done|].
  intros [-> Ht]%only_slashes_inv _. simpl.
  pose proof (split_slash_not_nil t). by destruct (split_slash t).
Qed.

(** An entry named by slashes only is a directory entry for the output
    directory itself. *)
Lemma extract_entry_slashes o output_dir dir_contents file_info m :
  only_slashes (filename file_info) = true → filename file_info ≠ "" →
  extract_entry o output_dir dir_contents file_info m
  = (os_makedirs output_dir ;; mret dir_contents) m.
Proof.
  intros Hs Hn.
  rewrite (extract_entry_resolved o output_dir dir_contents file_info m
             dir_contents output_dir).
  - unfold materialize, is_dir. rewrite only_slashes_is_dir by done.
    unfold mbind, io_bind, mret, io_ret.
    by destruct (os_makedirs output_dir m) as [m' [[]|e]].
  - by apply only_slashes_split.
  - by apply resolve_parts_all_empty.
Qed.

(** C7 (counterexample).  The entry [/] is not skipped: it makes the
    extractor create the output directory when it is missing, and fail
    when a regular file stands in its place. *)
Lemma slash_entry_counterexample :
  only_slashes "/" = true
  ∧ extract_jar_case_safe sorted_iteration (Archive [dir_entry "/"])
      ["out"] ∅
    = ({[ ["out"] := Dir ]}, Ok ())
  ∧ extract_jar_case_safe sorted_iteration (Archive [dir_entry "/"])
      ["out"] {[ ["out"] := File [] ]}
    = ({[ ["out"] := File [] ]},
       Raise (OSError FileExistsError ["out"])).
Proof. split; [done|split]; by_run. Qed.

(** C7 (amended).  An entry whose path is empty is skipped: nothing is
    created, the ledger is unchanged, the loop goes on.  An entry whose path
    is made of '/' only records nothing in the ledger and is handled as a
    directory entry for the output directory itself, with
    [os.makedirs(output_dir, exist_ok=True)]: when the output directory
    exists this does nothing and raises nothing, and the loop goes on with
    the remaining entries. *)
Theorem degenerate_entry_skipped :
  ∀ o output_dir dir_contents file_info rest m,
    only_slashes (filename file_info) = true →
    (filename file_info = ""
     → extract_entry o output_dir dir_contents file_info m
       = (m, Ok dir_contents))
    ∧ (filename file_info ≠ ""
       → extract_entry o output_dir dir_contents file_info m
         = (os_makedirs output_dir ;; mret dir_contents) m)
    ∧ (filename file_info = "" ∨ is_Some (lookup_dir m [] output_dir)
       → extract_entry o output_dir dir_contents file_info m
         = (m, Ok dir_contents)
         ∧ extract_entries o output_dir dir_contents (file_info :: rest) m
           = extract_entries o output_dir dir_contents rest m).
Proof.
  intros o out dc fi rest m Hs.
  assert (Hempty : filename fi = "" →
                   extract_entry o out dc fi m = (m, Ok dc)).
  { intros Hf. apply extract_entry_skip. by rewrite Hf. }
  split; [done|]. split; [by apply extract_entry_slashes|].
  intros Hcase.
  assert (Hstep : extract_entry o out dc fi m = (m, Ok dc)).
  { destruct (decide (filename fi = "")) as [Hf|Hf]; [by apply Hempty|].
    destruct Hcase as [?|[d Hd]]; [done|].
    rewrite extract_entry_slashes by done.
    unfold mbind, io_bind, os_makedirs.
    by rewrite (makedirs_from_exists _ _ _ _ _ Hd). }
  split; [done|]. simpl. unfold mbind, io_bind. by rewrite Hstep.
Qed.

Lemma degenerate_entry_skipped_witness :
  (only_slashes (filename (dir_entry "//")) = true
   ∧ filename (dir_entry "//") ≠ ""
   ∧ is_Some (lookup_dir {[ ["out"] := Dir ]} [] ["out"]))
  ∧ extract_entry sorted_iteration ["out"] ∅ (dir_entry "//")
      {[ ["out"] := Dir ]}
    = (os_makedirs ["out"] ;; mret ∅) {[ ["out"] := Dir ]}
  ∧ extract_entry sorted_iteration ["out"] ∅ (dir_entry "//")
      {[ ["out"] := Dir ]}
    = ({[ ["out"] := Dir ]}, Ok ∅)
  ∧ extract_entries sorted_iteration ["out"] ∅
      [dir_entry "//"; file_entry "a" ["A"%byte]] {[ ["out"] := Dir ]}
    = extract_entries sorted_iteration ["out"] ∅
        [file_entry "a" ["A"%byte]] {[ ["out"] := Dir ]}.
Proof.
  split; [split; [reflexivity|split; by_decide]|].
  destruct (degenerate_entry_skipped sorted_iteration ["out"] ∅
              (dir_entry "//") [file_entry "a" ["A"%byte]]
              {[ ["out"] := Dir ]}) as (_ & Hslash & Hskip);
    [reflexivity|].
  split; [apply Hslash; by_decide|].
  apply Hskip. right. by_decide.
Defined.

(** ** Entries that share a target *)

Lemma split_slash_degenerate s : split_slash s = [""] → s = "".
Proof.
  destruct s as [|c t]; [done|]. simpl. case_decide.
  - intros [= Ht]. by destruct (split_slash_not_nil t).
  - by destruct (split_slash t).
Qed.

(** Every entry with a non-empty name gets a target. *)
Lemma targets_complete o output_dir dir_contents infolist file_info :
  ledger_ok dir_contents →
  file_info ∈ infolist → filename file_info ≠ "" →
  ∃ target_path,
    (file_info, target_path) ∈ targets o output_dir dir_contents infolist.
Proof.
  intros Hok Hin Hn. revert dir_contents Hok.
  induction infolist as [|fi rest IH]; intros dc Hok.
  - by apply elem_of_nil in Hin.
  - simpl. case_decide as Hdeg.
    + apply elem_of_cons in Hin as [->|Hin]; [|by apply IH].
      destruct Hdeg as [Hd|Hd]; [by destruct (split_slash_not_nil _ Hd)|].
      by apply split_slash_degenerate in Hd.
    + destruct (resolve_parts_Ok o dc output_dir
                  (split_slash (filename fi)) Hok)
        as (dc1 & names & -> & Hok1 & _).
      apply elem_of_cons in Hin as [->|Hin].
      * eexists. by left.
      * destruct (IH Hin dc1 Hok1) as [t Ht]. exists t. by right.
Qed.

Lemma materialize_all_take ts m m' n :
  materialize_all ts m = (m', Ok ()) →
  ∃ m_n, materialize_all (take n ts) m = (m_n, Ok ())
         ∧ materialize_all (drop n ts) m_n = (m', Ok ()).
Proof.
  rewrite <- (take_drop n ts) at 1. rewrite materialize_all_app.
  destruct (materialize_all (take n ts) m) as [m_n [[]|e]]; [|done].
  intros H. by exists m_n.
Qed.

(** A file entry that is part of a successful extraction was written at the
    location of its target when its turn came, and its bytes are still
    there at the end unless a later file entry was written at the same
    location. *)
Lemma written_then_kept ts m m' i file_info target_path :
  materialize_all ts m = (m', Ok ()) →
  ts !! i = Some (file_info, target_path) →
  is_dir file_info = false →
  ∃ data m_i,
    content file_info = Readable data
    ∧ materialize_all (take (S i) ts) m = (m_i, Ok ())
    ∧ m_i !! locate target_path = Some (File data)
    ∧ ((∀ j fj tj, i < j → ts !! j = Some (fj, tj) →
          is_dir fj = false → locate tj ≠ locate target_path) →
       m' !! locate target_path = Some (File data)).
Proof.
  intros Hrun Hi Hf.
  destruct (materialize_all_take ts m m' (S i) Hrun) as (m_i & Hpre & Hpost).
  pose proof Hpre as Hpre'.
  rewrite (take_S_r _ _ _ Hi), materialize_all_app in Hpre'.
  destruct (materialize_all (take i ts) m) as [m0 [[]|e0]]; [|done].
  rewrite materialize_all_cons in Hpre'.
  destruct (materialize file_info target_path m0) as [m1 [[]|e1]] eqn:E;
    [|done].
  injection Hpre' as <-.
  destruct (materialize_file_Ok _ _ _ _ Hf E) as (data & Hc & Hloc).
  exists data, m1. repeat split; try done.
  intros Hlater. eapply materialize_all_keeps_file; [exact Hpost|done|].
  intros fj tj [k Hk]%list_elem_of_lookup Hfj.
  rewrite lookup_drop in Hk. apply (Hlater _ fj tj) in Hk; [done|lia|done].
Qed.

Lemma has_variant_difference {L : StrLower} existing name :
  has_variant (existing ∖ {[name]}) name ↔ has_variant existing name.
Proof.
  unfold has_variant. split; intros (e & He & Hv); exists e.
  - split; [set_solver|done].
  - split; [|done]. apply elem_of_difference. split; [done|].
    intros ->%elem_of_singleton. by rewrite case_variant_irrefl in Hv.
Qed.

(** C10 (counterexample).  The fourth entry, [f_ile], is byte-identical to
    the name recorded for the second one, and yet it is rewritten (to
    [f__ile]), because the third entry was recorded as [F_ile]: the two
    [f_ile] entries are written to different files. *)
Lemma identical_name_rewritten_counterexample :
  fix_case_conflict sorted_iteration
    ({["file"]} ∪ {["f_ile"]} ∪ {["F_ile"]}) "f_ile" = Ok "f__ile"
  ∧ targets sorted_iteration ["out"] ∅
      [file_entry "file" ["1"%byte]; file_entry "f_ile" ["2"%byte];
       file_entry "File" ["3"%byte]; file_entry "f_ile" ["4"%byte]]
    = [(file_entry "file" ["1"%byte], ["out"; "file"]);
       (file_entry "f_ile" ["2"%byte], ["out"; "f_ile"]);
       (file_entry "File" ["3"%byte], ["out"; "F_ile"]);
       (file_entry "f_ile" ["4"%byte], ["out"; "f__ile"])]
  ∧ extract_jar_case_safe sorted_iteration
      (Archive
         [file_entry "file" ["1"%byte]; file_entry "f_ile" ["2"%byte];
          file_entry "File" ["3"%byte]; file_entry "f_ile" ["4"%byte]])
      ["out"] {[ ["out"] := Dir ]}
    = (list_to_map [(["out"], Dir);
                    (["out"; "file"], File ["1"%byte]);
                    (["out"; "f_ile"], File ["2"%byte]);
                    (["out"; "F_ile"], File ["3"%byte]);
                    (["out"; "f__ile"], File ["4"%byte])], Ok ()).
Proof. split; [by vm_compute|split]; [by vm_compute|by_run]. Qed.

(** C10 (amended).  A recorded sibling that is byte-identical to the
    segment is not a conflict: the outcome of [fix_case_conflict] is the
    same with and without it, so the segment is rewritten only when some
    other recorded sibling differs from it only in first-character case.
    Two file entries that resolve to the same output path are both written
    there, and the one that comes last in archive order determines the
    final content of the file.  This holds whatever [str.lower] does. *)
Theorem identical_name_not_a_conflict :
  ∀ (L : StrLower),
    (∀ o existing name,
       "" ∉ existing → name ≠ "" →
       fix_case_conflict o existing name
       = fix_case_conflict o (existing ∖ {[name]}) name
       ∧ (¬ has_variant (existing ∖ {[name]}) name →
          fix_case_conflict o existing name = Ok name))
    ∧ (∀ o infolist output_dir m m' i j fi fj target_path,
         extract_jar_case_safe o (Archive infolist) output_dir m
         = (m', Ok ()) →
         targets o output_dir ∅ infolist !! i = Some (fi, target_path) →
         targets o output_dir ∅ infolist !! j = Some (fj, target_path) →
         i < j → is_dir fi = false → is_dir fj = false →
         (∀ k fk tk, j < k →
            targets o output_dir ∅ infolist !! k = Some (fk, tk) →
            is_dir fk = false → locate tk ≠ locate target_path) →
         ∃ di dj m_i,
           content fi = Readable di ∧ content fj = Readable dj
           ∧ materialize_all
               (take (S i) (targets o output_dir ∅ infolist)) m
             = (m_i, Ok ())
           ∧ m_i !! locate target_path = Some (File di)
           ∧ m' !! locate target_path = Some (File dj)).
Proof.
  intros L. split.
  - intros o existing name Hex Hn.
    assert (Hex' : "" ∉ existing ∖ {[name]}) by set_solver.
    split.
    + rewrite !fix_case_conflict_Ok by done. unfold rule_name.
      f_equal. destruct (decide (has_variant existing name)) as [Hv|Hv];
        [rewrite decide_True|rewrite decide_False];
        by rewrite ?has_variant_difference.
    + intros Hv. apply fix_case_conflict_keep; try done.
      by rewrite <- has_variant_difference.
  - intros o infolist out m m' i j fi fj t Hrun Hi Hj Hij Hfi Hfj Hlast.
    rewrite extract_jar_case_safe_plan in Hrun.
    destruct (written_then_kept _ _ _ _ _ _ Hrun Hi Hfi)
      as (di & m_i & Hci & Hpre & Hloc & _).
    destruct (written_then_kept _ _ _ _ _ _ Hrun Hj Hfj)
      as (dj & m_j & Hcj & _ & _ & Hend).
    exists di, dj, m_i. repeat split; try done. by apply Hend.
Qed.

Lemma identical_name_not_a_conflict_witness :
  ((("" ∉ ({["a.txt"]} : gset string)) ∧ "a.txt" ≠ ""
    ∧ ¬ has_variant ({["a.txt"]} ∖ {["a.txt"]}) "a.txt")
   ∧ fix_case_conflict sorted_iteration {["a.txt"]} "a.txt"
     = fix_case_conflict sorted_iteration ({["a.txt"]} ∖ {["a.txt"]})
         "a.txt"
   ∧ fix_case_conflict sorted_iteration {["a.txt"]} "a.txt" = Ok "a.txt")
  ∧ ∃ di dj m_i,
      content (file_entry "a.txt" ["A"%byte]) = Readable di
      ∧ content (file_entry "a.txt" ["B"%byte]) = Readable dj
      ∧ materialize_all
          (take 1 (targets sorted_iteration ["out"] ∅
                     [file_entry "a.txt" ["A"%byte];
                      file_entry "a.txt" ["B"%byte]]))
          {[ ["out"] := Dir ]}
        = (m_i, Ok ())
      ∧ m_i !! locate ["out"; "a.txt"] = Some (File di)
      ∧ (list_to_map [(["out"], Dir); (["out"; "a.txt"], File ["B"%byte])]
           : fs) !! locate ["out"; "a.txt"] = Some (File dj).
Proof.
  destruct (identical_name_not_a_conflict python_lower) as [Hsame Hlast].
  split.
  - split; [split; [by_decide|split; by_decide]|].
    destruct (Hsame sorted_iteration {["a.txt"]} "a.txt") as [H1 H2];
      [by_decide..|].
    split; [exact H1|apply H2; by_decide].
  - apply (Hlast sorted_iteration
             [file_entry "a.txt" ["A"%byte]; file_entry "a.txt" ["B"%byte]]
             ["out"] {[ ["out"] := Dir ]} _ 0 1
             (file_entry "a.txt" ["A"%byte])
             (file_entry "a.txt" ["B"%byte]) ["out"; "a.txt"]).
    + by_eval.
    + reflexivity.
    + reflexivity.
    + lia.
    + reflexivity.
    + reflexivity.
    + intros [|[|[|k]]] fk tk Hk; try lia; by vm_compute.
Defined.

(** C4 (counterexample).  Two entries named [a.txt]: the second one
    overwrites the first, and after the extraction no file holds the
    payload of the first entry. *)
Lemma overwritten_payload_counterexample :
  extract_jar_case_safe sorted_iteration
    (Archive [file_entry "a.txt" ["A"%byte]; file_entry "a.txt" ["B"%byte]])
    ["out"] {[ ["out"] := Dir ]}
  = (list_to_map [(["out"], Dir); (["out"; "a.txt"], File ["B"%byte])],
     Ok ())
  ∧ map_Forall (λ _ n, n ≠ File ["A"%byte])
      (list_to_map [(["out"], Dir); (["out"; "a.txt"], File ["B"%byte])]
         : fs).
Proof. split; [by_eval|by_decide]. Qed.

(** C4 (amended).  Every entry with a non-empty name gets a target path,
    the output directory followed by one component per non-empty segment,
    each of them the segment or its rewritten form.  When the extraction
    completes, every file entry had readable bytes, and its payload is the
    content of the file at the location of its target path, provided that
    no later file entry resolves to the same location (a later one
    overwrites it). *)
Theorem file_entry_materialized :
  (∀ o output_dir infolist file_info,
     file_info ∈ infolist → filename file_info ≠ "" →
     ∃ names,
       (file_info, output_dir ++ names) ∈ targets o output_dir ∅ infolist
       ∧ renamed (split_slash (filename file_info)) names)
  ∧ (∀ o infolist output_dir m m' i file_info target_path,
       extract_jar_case_safe o (Archive infolist) output_dir m
       = (m', Ok ()) →
       targets o output_dir ∅ infolist !! i = Some (file_info, target_path) →
       is_dir file_info = false →
       (∀ j fj tj, i < j →
          targets o output_dir ∅ infolist !! j = Some (fj, tj) →
          is_dir fj = false → locate tj ≠ locate target_path) →
       ∃ data,
         content file_info = Readable data
         ∧ m' !! locate target_path = Some (File data)).
Proof.
  split.
  - intros o out infolist fi Hin Hn.
    destruct (targets_complete o out ∅ infolist fi ledger_ok_empty Hin Hn)
      as [t Ht].
    destruct (targets_shape _ _ _ _ _ _ ledger_ok_empty Ht)
      as (_ & names & -> & Hren).
    by exists names.
  - intros o infolist out m m' i fi t Hrun Hi Hf Hlater.
    rewrite extract_jar_case_safe_plan in Hrun.
    destruct (written_then_kept _ _ _ _ _ _ Hrun Hi Hf)
      as (data & m_i & Hc & _ & _ & Hend).
    exists data. split; [done|by apply Hend].
Qed.

Lemma file_entry_materialized_witness :
  (file_entry "pkg/main.txt" ["B"%byte]
     ∈ [file_entry "pkg/Main.txt" ["A"%byte];
        file_entry "pkg/main.txt" ["B"%byte]]
   ∧ filename (file_entry "pkg/main.txt" ["B"%byte]) ≠ "")
  ∧ (∃ names,
       (file_entry "pkg/main.txt" ["B"%byte], ["out"] ++ names)
         ∈ targets sorted_iteration ["out"] ∅
             [file_entry "pkg/Main.txt" ["A"%byte];
              file_entry "pkg/main.txt" ["B"%byte]]
       ∧ renamed (split_slash "pkg/main.txt") names)
  ∧ ∃ data,
      content (file_entry "pkg/Main.txt" ["A"%byte]) = Readable data
      ∧ (list_to_map [(["out"], Dir); (["out"; "pkg"], Dir);
                      (["out"; "pkg"; "Main.txt"], File ["A"%byte]);
                      (["out"; "pkg"; "m_ain.txt"], File ["B"%byte])] : fs)
          !! locate ["out"; "pkg"; "Main.txt"] = Some (File data).
Proof.
  destruct file_entry_materialized as [Htarget Hfile].
  split; [split; by_decide|]. split.
  - apply Htarget; by_decide.
  - apply (Hfile sorted_iteration
             [file_entry "pkg/Main.txt" ["A"%byte];
              file_entry "pkg/main.txt" ["B"%byte]]
             ["out"] {[ ["out"] := Dir ]} _ 0
             (file_entry "pkg/Main.txt" ["A"%byte])
             ["out"; "pkg"; "Main.txt"]).
    + by_eval.
    + reflexivity.
    + reflexivity.
    + intros j fj tj Hj Hlk _. vm_compute in Hlk.
      destruct j as [|[|j]]; [lia| |discriminate Hlk].
      injection Hlk as <- <-. by_decide.
Defined.

(** ** Where the extraction writes *)

Lemma plain_take k p : plain p → plain (take k p).
Proof. unfold plain. apply Forall_take. Qed.

(** A prefix of the target lies on the way to the output directory or
    below it, as long as the segments hold no [..]. *)
Lemma locate_take_under k output_dir names :
  plain output_dir → ".." ∉ names →
  output_dir `prefix_of` locate (take k (output_dir ++ names))
  ∨ locate (take k (output_dir ++ names)) `prefix_of` output_dir.
Proof.
  intros Hp Hn. unfold locate. rewrite take_app.
  destruct (decide (k ≤ length output_dir)) as [Hk|Hk].
  - right. replace (k - length output_dir) with 0 by lia.
    rewrite take_0, app_nil_r.
    rewrite locate_from_plain by by apply plain_take.
    apply prefix_take.
  - left. rewrite take_ge by lia.
    rewrite locate_from_app, (locate_from_plain [] output_dir) by done.
    simpl. apply locate_from_prefix. intros Hin. apply Hn.
    by eapply subseteq_take.
Qed.

Lemma separated_not_dotdot part : separated part ≠ "..".
Proof. by destruct part as [|c t]. Qed.

Lemma renamed_no_dotdot parts names :
  renamed parts names → ".." ∉ parts → ".." ∉ names.
Proof.
  induction 1 as [|parts names _ IH|part parts name names Hn Hname _ IH];
    intros Hp.
  - done.
  - apply IH. set_solver.
  - intros [Heq|Hin]%elem_of_cons.
    + destruct Hname as [Hk|Hs]; subst name; [set_solver|].
      by destruct (separated_not_dotdot part).
    + apply IH; [set_solver|done].
Qed.

(** What one entry changes lies below the output directory, except for
    missing directories on the way to it, which are created. *)
Lemma materialize_under output_dir names file_info m m' r q :
  plain output_dir → ".." ∉ names →
  materialize file_info (output_dir ++ names) m = (m', r) →
  m' !! q = m !! q
  ∨ output_dir `prefix_of` q
  ∨ (q `prefix_of` output_dir ∧ m !! q = None ∧ m' !! q = Some Dir).
Proof.
  intros Hp Hn Hrun.
  destruct (materialize_changes _ _ _ _ _ q Hrun)
    as [?|[(Hnone & Hdir & k & ->)|(_ & -> & _)]]; [by left|..].
  - destruct (locate_take_under k output_dir names Hp Hn); tauto.
  - right. left. unfold locate.
    rewrite locate_from_app, (locate_from_plain [] output_dir) by done.
    simpl. by apply locate_from_prefix.
Qed.

Lemma materialize_all_under output_dir ts m m' r q :
  plain output_dir →
  (∀ file_info target_path,
     (file_info, target_path) ∈ ts →
     ∃ names, target_path = output_dir ++ names ∧ ".." ∉ names) →
  materialize_all ts m = (m', r) →
  m' !! q = m !! q
  ∨ output_dir `prefix_of` q
  ∨ (q `prefix_of` output_dir ∧ m !! q = None ∧ m' !! q = Some Dir).
Proof.
  intros Hp. revert m. induction ts as [|[fi t] ts IH]; intros m Hts.
  - intros [= <- <-]. by left.
  - rewrite materialize_all_cons.
    destruct (materialize fi t m) as [m1 r1] eqn:E.
    destruct (Hts fi t) as (names & -> & Hn); [by left|].
    pose proof (materialize_under _ _ _ _ _ _ q Hp Hn E) as Hstep.
    destruct r1 as [[]|e1]; [|by intros [= <- <-]].
    intros Hrest.
    apply IH in Hrest; [|intros fi' t' Hin; apply (Hts fi' t'); by right].
    destruct Hrest as [Heq|[?|(Hq & Hnone & Hdir)]]; [|tauto|].
    + rewrite Heq. exact Hstep.
    + destruct Hstep as [Heq|[?|(_ & ? & ?)]]; [|tauto|congruence].
      right. right. by rewrite <- Heq.
Qed.

(** C5 (counterexample).  An entry named [../x] is written next to the
    output directory, not under it. *)
Lemma zip_slip_counterexample :
  extract_jar_case_safe sorted_iteration
    (Archive [file_entry "../x" ["A"%byte]]) ["out"] {[ ["out"] := Dir ]}
  = (list_to_map [(["out"], Dir); (["x"], File ["A"%byte])], Ok ())
  ∧ ¬ ["out"] `prefix_of` ["x"].
Proof. split; [by_eval|by_decide]. Qed.

(** C5 (amended).  On a host whose [os.path.join] appends each segment to
    the path as one component (a POSIX host: [posixpath.join] does so with
    every segment, which holds no '/'), for every archive none of whose
    entry names has a [..] segment, and every output directory given by a
    path without [.] or [..], whatever the extraction creates or changes
    lies under the output directory (the output directory included),
    except that the missing directories on the way to the output directory
    are created.  This holds whether the extraction completes or fails,
    and whatever [str.lower] does.  The code does nothing about [..]
    segments, nor about the segments that [ntpath.join] does not append (a
    drive letter): those entries are not confined. *)
Theorem extraction_stays_under_output_dir :
  ∀ (L : StrLower) (P : OsPath) o infolist output_dir m m' r q,
    (∀ curr_dir part, os_path_join curr_dir part = curr_dir ++ [part]) →
    plain output_dir →
    (∀ file_info, file_info ∈ infolist →
                  ".." ∉ split_slash (filename file_info)) →
    extract_jar_case_safe o (Archive infolist) output_dir m = (m', r) →
    m' !! q ≠ m !! q →
    output_dir `prefix_of` q
    ∨ (q `prefix_of` output_dir ∧ m !! q = None ∧ m' !! q = Some Dir).
Proof.
  intros L P o infolist out m m' r q HP Hp Hnames Hrun Hq.
  rewrite (extract_jar_case_safe_posix P) in Hrun by done.
  rewrite extract_jar_case_safe_plan in Hrun.
  assert (Hts : ∀ file_info target_path,
            (file_info, target_path)
              ∈ targets (P := posixpath) o out ∅ infolist →
            ∃ names, target_path = out ++ names ∧ ".." ∉ names).
  { intros fi t Hin.
    destruct (targets_shape _ _ _ _ _ _ ledger_ok_empty Hin)
      as (Hfi & names & -> & Hren).
    exists names. split; [done|]. eapply renamed_no_dotdot; eauto. }
  destruct (materialize_all_under out _ _ _ _ q Hp Hts Hrun) as [?|?];
    [done|done].
Qed.

Lemma extraction_stays_under_output_dir_witness :
  ((∀ curr_dir part, os_path_join curr_dir part = curr_dir ++ [part])
   ∧ plain ["out"]
   ∧ (∀ file_info, file_info ∈ [file_entry "pkg/Main.txt" ["A"%byte]] →
                   ".." ∉ split_slash (filename file_info))
   ∧ extract_jar_case_safe sorted_iteration
       (Archive [file_entry "pkg/Main.txt" ["A"%byte]]) ["out"] ∅
     = (list_to_map [(["out"], Dir); (["out"; "pkg"], Dir);
                     (["out"; "pkg"; "Main.txt"], File ["A"%byte])], Ok ())
   ∧ (list_to_map [(["out"], Dir); (["out"; "pkg"], Dir);
                   (["out"; "pkg"; "Main.txt"], File ["A"%byte])] : fs)
       !! ["out"; "pkg"] ≠ (∅ : fs) !! ["out"; "pkg"])
  ∧ (["out"] `prefix_of` ["out"; "pkg"]
     ∨ (["out"; "pkg"] `prefix_of` ["out"]
        ∧ (∅ : fs) !! ["out"; "pkg"] = None
        ∧ (list_to_map [(["out"], Dir); (["out"; "pkg"], Dir);
                        (["out"; "pkg"; "Main.txt"], File ["A"%byte])] : fs)
            !! ["out"; "pkg"] = Some Dir)).
Proof.
  assert (HP : ∀ curr_dir part,
             os_path_join curr_dir part = curr_dir ++ [part]) by done.
  assert (Hp : plain ["out"]) by by_decide.
  assert (Hn : ∀ file_info,
             file_info ∈ [file_entry "pkg/Main.txt" ["A"%byte]] →
             ".." ∉ split_slash (filename file_info)).
  { intros fi ->%list_elem_of_singleton. by_decide. }
  assert (Hrun : extract_jar_case_safe sorted_iteration
       (Archive [file_entry "pkg/Main.txt" ["A"%byte]]) ["out"] ∅
     = (list_to_map [(["out"], Dir); (["out"; "pkg"], Dir);
                     (["out"; "pkg"; "Main.txt"], File ["A"%byte])], Ok ()))
    by by_eval.
  assert (Hq : (list_to_map [(["out"], Dir); (["out"; "pkg"], Dir);
                   (["out"; "pkg"; "Main.txt"], File ["A"%byte])] : fs)
       !! ["out"; "pkg"] ≠ (∅ : fs) !! ["out"; "pkg"]) by by_decide.
  split; [exact (conj HP (conj Hp (conj Hn (conj Hrun Hq))))|].
  exact (extraction_stays_under_output_dir python_lower posixpath
           sorted_iteration _ _ _ _ _ ["out"; "pkg"] HP Hp Hn Hrun Hq).
Defined.

(** ** Failures *)




(** * Further properties of the extraction *)

(** ** Nothing is removed *)

Lemma materialize_keeps_dir file_info target_path m m' r q :
  materialize file_info target_path m = (m', r) →
  m !! q = Some Dir → m' !! q = Some Dir.
Proof.
  intros Hrun Hq.
  destruct (materialize_changes _ _ _ _ _ q Hrun)
    as [->|[(? & _)|(_ & _ & ? & _)]]; congruence.
Qed.

Lemma materialize_keeps_file file_info target_path m m' r q data :
  materialize file_info target_path m = (m', r) →
  m !! q = Some (File data) → ∃ data', m' !! q = Some (File data').
Proof.
  intros Hrun Hq.
  destruct (materialize_changes _ _ _ _ _ q Hrun)
    as [->|[(? & _)|(_ & _ & _ & Hw)]]; [by exists data|congruence|].
  destruct Hw as [(d & _ & _ & ->)|[(msg & _ & _ & ->)
                 |(d & w & errno & _ & _ & ->)]]; eauto.
Qed.

Lemma materialize_all_keeps_dir ts m m' r q :
  materialize_all ts m = (m', r) →
  m !! q = Some Dir → m' !! q = Some Dir.
Proof.
  revert m. induction ts as [|[fi t] ts IH]; intros m.
  - by intros [= <- <-].
  - rewrite materialize_all_cons.
    destruct (materialize fi t m) as [m1 r1] eqn:E. intros Hrun Hq.
    pose proof (materialize_keeps_dir _ _ _ _ _ _ E Hq) as Hq1.
    destruct r1 as [[]|e1]; [by eapply IH|]. by injection Hrun as <- <-.
Qed.

Lemma materialize_all_keeps_a_file ts m m' r q data :
  materialize_all ts m = (m', r) →
  m !! q = Some (File data) → ∃ data', m' !! q = Some (File data').
Proof.
  revert m data. induction ts as [|[fi t] ts IH]; intros m data.
  - intros [= <- <-]. by exists data.
  - rewrite materialize_all_cons.
    destruct (materialize fi t m) as [m1 r1] eqn:E. intros Hrun Hq.
    destruct (materialize_keeps_file _ _ _ _ _ _ _ E Hq) as [d1 Hq1].
    destruct r1 as [[]|e1]; [by eapply IH|].
    injection Hrun as <- <-. by exists d1.
Qed.

(** X1. Whether it completes or fails, the extraction removes nothing and
    never changes the kind of a node: a directory that was there is still
    a directory, a file that was there is still a file (its content may
    have been overwritten). *)
Theorem extraction_never_removes :
  ∀ o jar output_dir m m' r q n,
    extract_jar_case_safe o jar output_dir m = (m', r) →
    m !! q = Some n →
    match n with
    | Dir => m' !! q = Some Dir
    | File _ => ∃ data, m' !! q = Some (File data)
    end.
Proof.
  intros o [msg|infolist] out m m' r q n Hrun Hq.
  { injection Hrun as <- <-. destruct n; eauto. }
  rewrite extract_jar_case_safe_plan in Hrun. destruct n as [|data].
  - by eapply materialize_all_keeps_dir.
  - by eapply materialize_all_keeps_a_file.
Qed.

Lemma extraction_never_removes_witness :
  (extract_jar_case_safe sorted_iteration
     (Archive [file_entry "a" ["A"%byte]; file_entry "b/c" ["C"%byte]])
     ["out"]
     (list_to_map [(["out"], Dir); (["out"; "b"], File ["B"%byte])])
   = (list_to_map [(["out"], Dir); (["out"; "a"], File ["A"%byte]);
                   (["out"; "b"], File ["B"%byte])],
      Raise (OSError FileExistsError ["out"; "b"]))
   ∧ (list_to_map [(["out"], Dir); (["out"; "b"], File ["B"%byte])] : fs)
       !! ["out"; "b"] = Some (File ["B"%byte]))
  ∧ ∃ data,
      (list_to_map [(["out"], Dir); (["out"; "a"], File ["A"%byte]);
                    (["out"; "b"], File ["B"%byte])] : fs)
        !! ["out"; "b"] = Some (File data).
Proof.
  assert (Hrun : extract_jar_case_safe sorted_iteration
     (Archive [file_entry "a" ["A"%byte]; file_entry "b/c" ["C"%byte]])
     ["out"]
     (list_to_map [(["out"], Dir); (["out"; "b"], File ["B"%byte])])
   = (list_to_map [(["out"], Dir); (["out"; "a"], File ["A"%byte]);
                   (["out"; "b"], File ["B"%byte])],
      Raise (OSError FileExistsError ["out"; "b"]))) by by_eval.
  assert (Hq : (list_to_map [(["out"], Dir);
                             (["out"; "b"], File ["B"%byte])] : fs)
       !! ["out"; "b"] = Some (File ["B"%byte])) by by_decide.
  split; [exact (conj Hrun Hq)|].
  exact (extraction_never_removes _ _ _ _ _ _ _ _ Hrun Hq).
Defined.

(** ** Directories are there *)

Lemma materialize_all_lookup_dir ts m m' r cur p d :
  materialize_all ts m = (m', r) →
  lookup_dir m cur p = Some d → lookup_dir m' cur p = Some d.
Proof.
  intros Hrun. apply lookup_dir_mono. intros q.
  by eapply materialize_all_keeps_dir.
Qed.

(** After one entry is extracted, its directory is there: the target for a
    directory entry, the parent of the target for a file entry. *)
Lemma materialize_Ok_dir file_info target_path m m' :
  materialize file_info target_path m = (m', Ok ()) →
  let d := if is_dir file_info then target_path else dirname target_path in
  lookup_dir m' [] d = Some (locate d).
Proof.
  unfold materialize. destruct (is_dir file_info); simpl.
  { apply makedirs_from_Ok. }
  unfold mbind, io_bind, os_makedirs.
  destruct (makedirs_from [] [] (dirname target_path) m) as [m1 r1] eqn:E1.
  destruct r1 as [[]|e1]; [|done].
  apply makedirs_from_Ok in E1. intros Hcopy.
  eapply lookup_dir_mono; [|exact E1]. intros q Hq.
  apply copy_member_inv in Hcopy
    as [(kind & ? & _)|[(msg & _ & ? & _)
       |[(msg & _ & ? & _)|[(data & _ & _ & -> & Hnd)
         |(? & ? & ? & _ & ? & _)]]]]; try done.
  rewrite lookup_insert_ne; [done|]. by intros <-.
Qed.

(** X2. After a successful extraction every directory entry's resolved
    path leads to a directory that exists, and so does the parent of every
    file entry's resolved path. *)
Theorem directories_exist_after_extraction :
  ∀ o infolist output_dir m m' file_info target_path,
    extract_jar_case_safe o (Archive infolist) output_dir m = (m', Ok ()) →
    (file_info, target_path) ∈ targets o output_dir ∅ infolist →
    let d := if is_dir file_info then target_path else dirname target_path in
    lookup_dir m' [] d = Some (locate d).
Proof.
  intros o infolist out m m' fi t Hrun Hin.
  rewrite extract_jar_case_safe_plan in Hrun.
  apply list_elem_of_lookup in Hin as [i Hi].
  destruct (materialize_all_take _ _ _ (S i) Hrun) as (m_i & Hpre & Hpost).
  rewrite (take_S_r _ _ _ Hi), materialize_all_app in Hpre.
  destruct (materialize_all (take i _) m) as [m0 [[]|e0]]; [|done].
  rewrite materialize_all_cons in Hpre.
  destruct (materialize fi t m0) as [m1 [[]|e1]] eqn:E; [|done].
  injection Hpre as <-.
  apply materialize_Ok_dir in E. simpl in *.
  by eapply materialize_all_lookup_dir.
Qed.

Lemma directories_exist_after_extraction_witness :
  (extract_jar_case_safe sorted_iteration
     (Archive [dir_entry "A/b/"; file_entry "c/d.txt" ["D"%byte]])
     ["out"] ∅
   = (list_to_map [(["out"], Dir); (["out"; "A"], Dir);
                   (["out"; "A"; "b"], Dir); (["out"; "c"], Dir);
                   (["out"; "c"; "d.txt"], File ["D"%byte])], Ok ())
   ∧ (dir_entry "A/b/", ["out"; "A"; "b"])
       ∈ targets sorted_iteration ["out"] ∅
           [dir_entry "A/b/"; file_entry "c/d.txt" ["D"%byte]])
  ∧ lookup_dir
      (list_to_map [(["out"], Dir); (["out"; "A"], Dir);
                    (["out"; "A"; "b"], Dir); (["out"; "c"], Dir);
                    (["out"; "c"; "d.txt"], File ["D"%byte])])
      [] ["out"; "A"; "b"]
    = Some (locate ["out"; "A"; "b"]).
Proof.
  assert (Hrun : extract_jar_case_safe sorted_iteration
     (Archive [dir_entry "A/b/"; file_entry "c/d.txt" ["D"%byte]])
     ["out"] ∅
   = (list_to_map [(["out"], Dir); (["out"; "A"], Dir);
                   (["out"; "A"; "b"], Dir); (["out"; "c"], Dir);
                   (["out"; "c"; "d.txt"], File ["D"%byte])], Ok ()))
    by by_eval.
  assert (Hin : (dir_entry "A/b/", ["out"; "A"; "b"])
       ∈ targets sorted_iteration ["out"] ∅
           [dir_entry "A/b/"; file_entry "c/d.txt" ["D"%byte]])
    by by_decide.
  split; [exact (conj Hrun Hin)|].
  exact (directories_exist_after_extraction _ _ _ _ _ _ _ Hrun Hin).
Defined.

(** ** The tree stays a tree *)

Lemma holds_children_parent m cur :
  fs_wf m → holds_children m cur → holds_children m (removelast cur).
Proof.
  intros Hwf [->|Hcur]; [by left|].
  destruct (last cur) as [c|] eqn:E.
  - apply last_Some in E as [q ->]. rewrite removelast_last.
    apply Hwf with c. by rewrite Hcur.
  - apply last_None in E as ->. by left.
Qed.

Lemma fs_wf_insert m cur c n :
  fs_wf m → holds_children m cur →
  (∀ c', m !! ((cur ++ [c]) ++ [c']) = None) →
  fs_wf (<[cur ++ [c] := n]> m).
Proof.
  intros Hwf Hcur Hleaf q c' Hq.
  assert (Hne : cur ≠ cur ++ [c]).
  { intros H. apply (f_equal length) in H. rewrite length_app in H.
    simpl in H. lia. }
  destruct (decide (q ++ [c'] = cur ++ [c])) as [Heq|Hneq].
  - apply app_inj_tail in Heq as [-> ->].
    destruct Hcur as [->|Hcur]; [by left|right].
    by rewrite lookup_insert_ne.
  - rewrite lookup_insert_ne in Hq by done.
    destruct (decide (q = cur ++ [c])) as [->|Hqc].
    + rewrite Hleaf in Hq. by destruct Hq.
    + destruct (Hwf q c' Hq) as [->|Hd]; [by left|right].
      by rewrite lookup_insert_ne.
Qed.

Lemma fs_wf_no_children m q c :
  fs_wf m → q ≠ [] → m !! q ≠ Some Dir → m !! (q ++ [c]) = None.
Proof.
  intros Hwf Hq Hnd. destruct (m !! (q ++ [c])) as [n|] eqn:E; [|done].
  destruct (Hwf q c) as [?|?]; [by rewrite E|done..].
Qed.

Lemma makedirs_from_wf cur seen todo m m' r :
  fs_wf m → holds_children m cur →
  makedirs_from cur seen todo m = (m', r) → fs_wf m'.
Proof.
  revert cur seen m. induction todo as [|c rest IH]; intros cur seen m.
  - by intros ? ? [= <- <-].
  - intros Hwf Hcur. simpl. destruct (is_dot c); [by apply IH|].
    case_decide as Hdd; [by apply IH, holds_children_parent|].
    destruct (m !! (cur ++ [c])) as [[|data]|] eqn:E.
    + apply IH; [done|by right].
    + by destruct rest; intros [= <- <-].
    + apply IH.
      * apply fs_wf_insert; [done..|]. intros c'.
        apply fs_wf_no_children; [done|by destruct cur|by rewrite E].
      * right. apply lookup_insert_eq.
Qed.

Lemma lookup_dir_holds_children m cur p d :
  fs_wf m → holds_children m cur →
  lookup_dir m cur p = Some d → holds_children m d.
Proof.
  intros Hwf. revert cur. induction p as [|c p IH]; intros cur Hcur; simpl.
  - by intros [= <-].
  - destruct (is_dot c); [by apply IH|].
    case_decide; [by apply IH, holds_children_parent|].
    destruct (m !! (cur ++ [c])) as [[|]|] eqn:E; try done.
    apply IH. by right.
Qed.

Lemma open_wb_handle name m m' h :
  open_wb name m = (m', Ok h) →
  ∃ d c, h = d ++ [c] ∧ lookup_dir m [] (dirname name) = Some d
         ∧ m !! h ≠ Some Dir ∧ m' = <[h := File []]> m.
Proof.
  unfold open_wb.
  destruct (lookup_dir m [] (dirname name)) as [d|] eqn:Ed; [|done].
  destruct (last name) as [c|]; [|done].
  destruct (is_dot c || bool_decide (c = "..")); [done|].
  destruct (m !! (d ++ [c])) as [[|data]|] eqn:E; [done|..];
    intros [= <- <-]; exists d, c; by rewrite E.
Qed.

Lemma fs_wf_write m d c data :
  fs_wf m → holds_children m d → m !! (d ++ [c]) ≠ Some Dir →
  fs_wf (<[d ++ [c] := File data]> m).
Proof.
  intros Hwf Hd Hnd. apply fs_wf_insert; [done..|]. intros c'.
  apply fs_wf_no_children; [done|by destruct d|done].
Qed.

Lemma copy_member_wf file_info target_path m m' r :
  fs_wf m → copy_member file_info target_path m = (m', r) → fs_wf m'.
Proof.
  intros Hwf. unfold copy_member.
  assert (Hopen : ∀ m1 h, open_wb target_path m = (m1, Ok h) →
            ∀ data, fs_wf (<[h := File data]> m)
                    ∧ <[h := File data]> m1 = <[h := File data]> m
                    ∧ m1 = <[h := File []]> m).
  { intros m1 h (d & c & -> & Hd & Hnd & ->)%open_wb_handle data.
    split; [|by rewrite insert_insert_eq].
    apply fs_wf_write; [done| |done].
    by eapply lookup_dir_holds_children; [|left|]. }
  assert (Hfail : ∀ m1 e, open_wb target_path m = (m1, Raise e) → m1 = m).
  { by intros m1 e [(kind & _ & ->)|(? & _)]%open_wb_inv. }
  destruct (content file_info) as [data|msg|msg|data written errno].
  - unfold mbind, io_bind.
    destruct (open_wb target_path m) as [m1 [h|e]] eqn:E.
    + destruct (Hopen _ _ eq_refl data) as (Hw & Heq & _).
      unfold write. intros [= <- <-]. by rewrite Heq.
    + intros [= <- <-]. by rewrite (Hfail _ _ eq_refl).
  - unfold mbind, io_bind.
    destruct (open_wb target_path m) as [m1 [h|e]] eqn:E.
    + destruct (Hopen _ _ eq_refl []) as (Hw & _ & ->).
      unfold raise. by intros [= <- <-].
    + intros [= <- <-]. by rewrite (Hfail _ _ eq_refl).
  - unfold raise. by intros [= <- <-].
  - unfold mbind, io_bind.
    destruct (open_wb target_path m) as [m1 [h|e]] eqn:E.
    + destruct (Hopen _ _ eq_refl (take written data)) as (Hw & Heq & _).
      unfold write_fails. intros [= <- <-]. by rewrite Heq.
    + intros [= <- <-]. by rewrite (Hfail _ _ eq_refl).
Qed.

Lemma materialize_wf file_info target_path m m' r :
  fs_wf m → materialize file_info target_path m = (m', r) → fs_wf m'.
Proof.
  intros Hwf. unfold materialize. destruct (is_dir file_info).
  { apply makedirs_from_wf; [done|by left]. }
  unfold mbind, io_bind, os_makedirs.
  destruct (makedirs_from [] [] (dirname target_path) m) as [m1 r1] eqn:E1.
  apply makedirs_from_wf in E1; [|done|by left].
  destruct r1 as [[]|e1]; [by apply copy_member_wf|by intros [= <- <-]].
Qed.

(** X3. The extraction keeps the tree well formed, whether it completes or
    fails: if every stored node had a directory for parent before, this is
    still so afterwards.  In particular, a file is never written below
    another file, and no node is left without its parent directory. *)
Theorem extraction_keeps_tree :
  ∀ o jar output_dir m m' r,
    fs_wf m →
    extract_jar_case_safe o jar output_dir m = (m', r) →
    fs_wf m'.
Proof.
  intros o [msg|infolist] out m m' r Hwf Hrun.
  { by injection Hrun as <- <-. }
  rewrite extract_jar_case_safe_plan in Hrun.
  revert m Hwf Hrun.
  induction (targets o out ∅ infolist) as [|[fi t] ts IH]; intros m Hwf.
  - by intros [= <- <-].
  - rewrite materialize_all_cons.
    destruct (materialize fi t m) as [m1 r1] eqn:E.
    apply materialize_wf in E; [|done].
    destruct r1 as [[]|e1]; [by apply IH|by intros [= <- <-]].
Qed.

Lemma fs_wf_empty : fs_wf ∅.
Proof. intros q c [n Hn]. by rewrite lookup_empty in Hn. Qed.

Lemma extraction_keeps_tree_witness :
  (fs_wf ∅
   ∧ extract_jar_case_safe sorted_iteration
       (Archive [file_entry "a/b.txt" ["B"%byte]]) ["out"] ∅
     = (list_to_map [(["out"], Dir); (["out"; "a"], Dir);
                     (["out"; "a"; "b.txt"], File ["B"%byte])], Ok ()))
  ∧ fs_wf (list_to_map [(["out"], Dir); (["out"; "a"], Dir);
                        (["out"; "a"; "b.txt"], File ["B"%byte])]).
Proof.
  assert (Hrun : extract_jar_case_safe sorted_iteration
       (Archive [file_entry "a/b.txt" ["B"%byte]]) ["out"] ∅
     = (list_to_map [(["out"], Dir); (["out"; "a"], Dir);
                     (["out"; "a"; "b.txt"], File ["B"%byte])], Ok ()))
    by by_eval.
  split; [exact (conj fs_wf_empty Hrun)|].
  exact (extraction_keeps_tree _ _ _ _ _ _ fs_wf_empty Hrun).
Defined.

(** ** Archives with ASCII initials and without names that look rewritten *)

(** Two different characters with the same ASCII lower case: one is the
    lower case of the other. *)
Lemma ascii_lower_eq_cases c d :
  ascii_lower c = ascii_lower d →
  c = d ∨ d = ascii_lower c ∨ c = ascii_lower d.
Proof.
  unfold ascii_lower.
  destruct ((65 <=? nat_of_ascii c) && (nat_of_ascii c <=? 90)) eqn:Ec,
           ((65 <=? nat_of_ascii d) && (nat_of_ascii d <=? 90)) eqn:Ed;
    auto.
  intros H. left.
  apply andb_true_iff in Ec as [_ Hc%Nat.leb_le].
  apply andb_true_iff in Ed as [_ Hd%Nat.leb_le].
  apply (f_equal nat_of_ascii) in H.
  rewrite !nat_ascii_embedding in H by lia.
  rewrite <- (ascii_nat_embedding c), <- (ascii_nat_embedding d).
  f_equal. lia.
Qed.

(** At most two characters share an ASCII lower case. *)
Lemma ascii_lower_class_two c d e :
  ascii_lower c = ascii_lower d → ascii_lower c = ascii_lower e →
  c ≠ d → c ≠ e → d = e.
Proof.
  intros Hcd Hce Hd He.
  destruct (ascii_lower_eq_cases c d Hcd) as [?|[Hd1|Hd1]]; [done|..];
    destruct (ascii_lower_eq_cases c e Hce) as [?|[He1|He1]]; try done.
  - congruence.
  - destruct Hd. congruence.
  - destruct He. congruence.
  - assert (Hde : ascii_lower d = ascii_lower e) by congruence.
    destruct (ascii_lower_eq_cases d e Hde) as [?|[?|?]]; [done|..].
    + destruct He. congruence.
    + destruct Hd. congruence.
Qed.

Section distinct.
Context {L : StrLower}.

(** Among the ASCII characters at most two share a lower case, whatever
    [str.lower] does elsewhere. *)
Lemma str_lower_class_two c d e :
  (nat_of_ascii c < 128)%nat → (nat_of_ascii d < 128)%nat →
  (nat_of_ascii e < 128)%nat →
  str_lower c = str_lower d → str_lower c = str_lower e →
  c ≠ d → c ≠ e → d = e.
Proof.
  intros Hc Hd He. rewrite !str_lower_ascii by done.
  intros [= Hcd] [= Hce]. by apply ascii_lower_class_two.
Qed.

Lemma ascii_initial_cons c t :
  ascii_initial (String c t) = true → (nat_of_ascii c < 128)%nat.
Proof. simpl. by intros ?%bool_decide_eq_true. Qed.

Lemma second_is_sep_separated r :
  r ≠ "" → second_is_sep (separated r) = true.
Proof. by destruct r. Qed.

Lemma case_variant_second a b :
  case_variant a b = true → second_is_sep a = second_is_sep b.
Proof. by intros (c & d & t & -> & -> & _)%case_variant_inv. Qed.

Lemma separated_inj a b :
  a ≠ "" → b ≠ "" → separated a = separated b → a = b.
Proof. destruct a, b; try done. intros _ _. simpl. by intros [= -> ->]. Qed.

Lemma separated_empty_inv r : separated r = "" → r = "".
Proof. by destruct r. Qed.

Lemma case_variant_cons_inv e c t :
  case_variant e (String c t) = true →
  ∃ d, e = String d t ∧ str_lower d = str_lower c ∧ d ≠ c.
Proof.
  intros (d & c' & t' & -> & [= <- <-] & Hl & Hd)%case_variant_inv.
  by exists d.
Qed.

Lemma separated_cons_inv r c t :
  separated r = String c (String "_" t) → r = String c t.
Proof. destruct r as [|c0 t0]; [done|]. simpl. by intros [= -> ->]. Qed.

Lemma case_variant_same_tail c d t :
  str_lower c = str_lower d → c ≠ d →
  case_variant (String c t) (String d t) = true.
Proof.
  intros Hl Hd. simpl.
  by rewrite !bool_decide_eq_true_2.
Qed.

(** Recording the name that the rule gives to a segment that starts with
    an ASCII character and does not look rewritten keeps the recorded
    siblings distinct. *)
Lemma siblings_distinct_add (X : gset string) part :
  siblings_distinct X → "" ∉ X → part ≠ "" →
  tame part →
  siblings_distinct ({[rule_name X part]} ∪ X).
Proof.
  intros (HB & HA & HS) Hne Hpart [Hascii Hsep].
  assert (HS' : ∀ x, x ∈ {[rule_name X part]} ∪ X → ascii_initial x = true).
  { intros x [->%elem_of_singleton|Hx]%elem_of_union; [|by apply HS].
    by rewrite ascii_initial_rule_name. }
  unfold rule_name in *.
  destruct (decide (has_variant X part)) as [(e & He & Hv)|Hno].
  - (* the segment is rewritten *)
    assert (Hnew : ∀ x, x ∈ X → case_variant x (separated part) = false).
    { intros x Hx. destruct (case_variant x (separated part)) eqn:Hc; [|done].
      exfalso.
      assert (Hx2 : second_is_sep x = true).
      { rewrite (case_variant_second _ _ Hc).
        by apply second_is_sep_separated. }
      pose proof (HS x Hx) as Hxa.
      destruct (HA x Hx Hx2) as (r & e' & -> & He' & Hv').
      destruct part as [|c t]; [done|]. simpl in Hc.
      apply case_variant_cons_inv in Hc as (c' & Hr & Hl & Hcc).
      apply separated_cons_inv in Hr as ->.
      apply case_variant_cons_inv in Hv as (d & -> & Hld & Hdc).
      apply case_variant_cons_inv in Hv' as (d' & -> & Hld' & Hdc').
      assert (Hdd : d = d').
      { destruct (decide (d = d')) as [|Hne']; [done|].
        specialize (HB _ _ He He').
        rewrite case_variant_same_tail in HB; [done|congruence|done]. }
      subst d'. destruct Hcc. symmetry.
      apply (str_lower_class_two d);
        [exact (ascii_initial_cons _ _ (HS _ He))
        |exact (ascii_initial_cons _ _ Hascii)
        |exact (ascii_initial_cons _ _ Hxa)|congruence..]. }
    split; [|split; [|done]].
    + intros a b [->%elem_of_singleton|Ha]%elem_of_union
                 [->%elem_of_singleton|Hb]%elem_of_union.
      * apply case_variant_irrefl.
      * rewrite case_variant_sym. by apply Hnew.
      * by apply Hnew.
      * by apply HB.
    + intros x [->%elem_of_singleton|Hx]%elem_of_union Hx2.
      * exists part, e. split; [done|]. split; [set_solver|done].
      * destruct (HA x Hx Hx2) as (r & e' & -> & He' & Hv').
        exists r, e'. split; [done|]. split; [set_solver|done].
  - (* the segment is kept *)
    assert (Hnew : ∀ x, x ∈ X → case_variant x part = false).
    { intros x Hx. destruct (case_variant x part) eqn:Hc; [|done].
      destruct Hno. by exists x. }
    split; [|split; [|done]].
    + intros a b [->%elem_of_singleton|Ha]%elem_of_union
                 [->%elem_of_singleton|Hb]%elem_of_union.
      * apply case_variant_irrefl.
      * rewrite case_variant_sym. by apply Hnew.
      * by apply Hnew.
      * by apply HB.
    + intros x [->%elem_of_singleton|Hx]%elem_of_union Hx2.
      * congruence.
      * destruct (HA x Hx Hx2) as (r & e' & -> & He' & Hv').
        exists r, e'. split; [done|]. split; [set_solver|done].
Qed.

Lemma siblings_distinct_empty : siblings_distinct ∅.
Proof. repeat split; intros; set_solver. Qed.

Lemma ledger_distinct_empty : ledger_distinct ∅.
Proof.
  intros p. unfold recorded. rewrite lookup_empty.
  apply siblings_distinct_empty.
Qed.

Lemma ledger_distinct_record dir_contents curr_dir part :
  ledger_ok dir_contents → ledger_distinct dir_contents →
  part ≠ "" → tame part →
  ledger_distinct
    (record dir_contents curr_dir
       (rule_name (recorded dir_contents curr_dir) part)).
Proof.
  intros Hok Hd Hn Hs p. rewrite recorded_record. case_decide as Hp.
  - subst p. apply siblings_distinct_add; auto using recorded_nonempty.
  - apply Hd.
Qed.

Lemma resolve_parts_distinct o dir_contents curr_dir parts dir_contents' t :
  ledger_ok dir_contents → ledger_distinct dir_contents →
  Forall tame parts →
  resolve_parts o dir_contents curr_dir parts = Ok (dir_contents', t) →
  ledger_distinct dir_contents'.
Proof.
  intros Hok Hd Hparts. revert dir_contents curr_dir Hok Hd.
  induction Hparts as [|part rest Hs _ IH]; intros dc cur Hok Hd.
  - by intros [= <- _].
  - destruct (decide (part = "")) as [->|Hn].
    + rewrite resolve_parts_skip. by apply IH.
    + rewrite resolve_parts_cons by done. apply IH.
      * apply record_ok; [done|by apply rule_name_nonempty].
      * by apply ledger_distinct_record.
Qed.


End distinct.



(** ** Same name, same path *)

Section same_path.
Context {L : StrLower}.

Lemma resolve_parts_filter o dir_contents curr_dir parts :
  resolve_parts o dir_contents curr_dir parts
  = resolve_parts o dir_contents curr_dir (filter (λ part, part ≠ "") parts).
Proof.
  revert dir_contents curr_dir.
  induction parts as [|part rest IH]; intros dc cur; [done|].
  destruct (decide (part = "")) as [->|Hn].
  - rewrite filter_cons_False by naive_solver. apply IH.
  - rewrite filter_cons_True by done. simpl.
    rewrite !decide_False by done.
    destruct (fix_case_conflict _ _ _); simpl; [apply IH|done].
Qed.

Lemma recorded_record_mono dir_contents parent name p :
  recorded dir_contents p ⊆ recorded (record dir_contents parent name) p.
Proof. rewrite recorded_record. case_decide; set_solver. Qed.

Lemma recorded_record_elem dir_contents parent name :
  name ∈ recorded (record dir_contents parent name) parent.
Proof. rewrite recorded_record, decide_True by done. set_solver. Qed.

(** Once a walk has been made, making it again on a later ledger leads to
    the same path, as long as the segments do not look rewritten. *)
Lemma resolve_parts_again o parts :
  ∀ dcA curr_dir dcA' t dcB,
    ledger_ok dcA → ledger_ok dcB → ledger_distinct dcB →
    Forall tame parts →
    resolve_parts o dcA curr_dir parts = Ok (dcA', t) →
    (∀ p, recorded dcA' p ⊆ recorded dcB p) →
    ∃ dcB', resolve_parts o dcB curr_dir parts = Ok (dcB', t).
Proof.
  induction parts as [|part rest IH];
    intros dcA cur dcA' t dcB HokA HokB HdB Hparts Hres Hsub.
  - injection Hres as <- <-. by exists dcB.
  - apply Forall_cons in Hparts as [Hs Hrest].
    destruct (decide (part = "")) as [->|Hn].
    { rewrite resolve_parts_skip in *.
      exact (IH _ _ _ _ _ HokA HokB HdB Hrest Hres Hsub). }
    rewrite resolve_parts_cons in Hres by done.
    rewrite resolve_parts_cons by done.
    set (fA := rule_name (recorded dcA cur) part) in *.
    assert (HokA1 : ledger_ok (record dcA cur fA))
      by (apply record_ok; [done|by apply rule_name_nonempty]).
    destruct (resolve_parts_Ok o (record dcA cur fA) (cur ++ [fA]) rest HokA1)
      as (dc1 & names & Hres1 & _ & _ & Hmono).
    rewrite Hres in Hres1. injection Hres1 as <- _.
    assert (HfA : ∀ x, x ∈ recorded (record dcA cur fA) cur →
                       x ∈ recorded dcB cur).
    { intros x Hx. by apply Hsub, Hmono. }
    assert (Hf : rule_name (recorded dcB cur) part = fA).
    { unfold fA, rule_name.
      destruct (decide (has_variant (recorded dcA cur) part))
        as [(e & He & Hv)|HnoA].
      - rewrite decide_True; [done|]. exists e. split; [|done].
        by apply HfA, recorded_record_mono.
      - rewrite decide_False; [done|]. intros (e & He & Hv).
        assert (Hpart : part ∈ recorded dcB cur).
        { apply HfA. unfold fA, rule_name. rewrite decide_False by done.
          apply recorded_record_elem. }
        destruct (HdB cur) as [HB _]. by rewrite (HB e part) in Hv. }
    rewrite Hf.
    apply (IH (record dcA cur fA) (cur ++ [fA]) dcA' t (record dcB cur fA));
      try done.
    + apply record_ok; [done|by apply rule_name_nonempty].
    + rewrite <- Hf. by apply ledger_distinct_record.
    + intros p. etrans; [apply Hsub|apply recorded_record_mono].
Qed.

Lemma original_of_kept part :
  second_is_sep part = false → original_of part = part.
Proof.
  destruct part as [|c [|s t]]; try done. simpl.
  by intros ->.
Qed.

Lemma original_of_separated part :
  part ≠ "" → original_of (separated part) = part.
Proof. by destruct part. Qed.

(** The written names determine the segments. *)
Lemma renamed_original parts names :
  renamed parts names →
  Forall tame parts →
  filter (λ part, part ≠ "") parts = original_of <$> names.
Proof.
  induction 1 as [|parts names _ IH|part parts name names Hn Hname _ IH];
    intros Hparts.
  - done.
  - apply Forall_cons in Hparts as [_ Hparts].
    rewrite filter_cons_False by naive_solver. by apply IH.
  - apply Forall_cons in Hparts as [[_ Hs] Hparts].
    rewrite filter_cons_True by done. rewrite fmap_cons, IH by done.
    f_equal. destruct Hname as [->| ->].
    + by rewrite original_of_kept.
    + by rewrite original_of_separated.
Qed.

Lemma Forall_nonempty_filter (P : string → Prop) parts :
  Forall P parts → Forall P (filter (λ part, part ≠ "") parts).
Proof.
  rewrite !Forall_forall. intros H x [_ Hx]%list_elem_of_filter. by apply H.
Qed.

(** A path that was resolved earlier and a later entry: the later entry
    resolves to that path exactly when it has the same segments. *)
Lemma targets_same_name_later o output_dir parts dcA dcA' t rest :
  ledger_ok dcA →
  Forall tame parts →
  resolve_parts o dcA output_dir parts = Ok (dcA', t) →
  ∀ dcB k fj tj,
    ledger_ok dcB → ledger_distinct dcB →
    (∀ p, recorded dcA' p ⊆ recorded dcB p) →
    Forall (λ fi, tame_name (filename fi)) rest →
    targets o output_dir dcB rest !! k = Some (fj, tj) →
    (t = tj ↔ filter (λ part, part ≠ "") parts = segments (filename fj)).
Proof.
  intros HokA Hparts HresA.
  destruct (resolve_parts_Ok o dcA output_dir parts HokA)
    as (dc0 & namesA & HresA' & _ & HrenA & _).
  rewrite HresA in HresA'. injection HresA' as <- ->.
  induction rest as [|fj0 rest IH]; intros dcB k fj tj HokB HdB Hsub Hall.
  - done.
  - apply Forall_cons in Hall as [Hfj0 Hrest]. simpl.
    case_decide as Hdeg; [by apply IH|].
    destruct (resolve_parts_Ok o dcB output_dir
                (split_slash (filename fj0)) HokB)
      as (dcB1 & namesB & HresB & HokB1 & HrenB & HmonoB).
    rewrite HresB. destruct k as [|k]; simpl.
    + intros [= <- <-]. unfold segments. split.
      * intros ->%app_inv_head.
        by rewrite (renamed_original _ _ HrenA),
          (renamed_original _ _ HrenB).
      * intros Heq.
        rewrite resolve_parts_filter in HresA, HresB.
        rewrite <- Heq in HresB.
        destruct (resolve_parts_again o
                    (filter (λ part, part ≠ "") parts) dcA output_dir dcA'
                    (output_dir ++ namesA) dcB HokA HokB HdB
                    (Forall_nonempty_filter _ _ Hparts) HresA Hsub)
          as [dcB' HresB'].
        rewrite HresB in HresB'. by injection HresB' as _ ->.
    + apply IH; try done.
      * exact (resolve_parts_distinct _ _ _ _ _ _ HokB HdB Hfj0 HresB).
      * intros p. etrans; [apply Hsub|apply HmonoB].
Qed.

(** Two entries are given the same path exactly when their names have the
    same non-empty segments. *)
Lemma same_path_text o infolist output_dir i j fi fj ti tj :
  Forall (λ fi, tame_name (filename fi)) infolist →
  i < j →
  targets o output_dir ∅ infolist !! i = Some (fi, ti) →
  targets o output_dir ∅ infolist !! j = Some (fj, tj) →
  (ti = tj ↔ segments (filename fi) = segments (filename fj)).
Proof.
  revert i j fi fj ti tj.
  generalize (ledger_ok_empty), (ledger_distinct_empty).
  generalize (∅ : ledger) as dc.
  induction infolist as [|fi0 rest IH];
    intros dc Hok Hd i j fi fj ti tj Hall Hij; [done|].
  apply Forall_cons in Hall as [Hfi0 Hrest]. simpl.
  case_decide as Hdeg; [by apply IH|].
  destruct (resolve_parts_Ok o dc output_dir (split_slash (filename fi0)) Hok)
    as (dc1 & names & Hres & Hok1 & _).
  rewrite Hres.
  assert (Hd1 : ledger_distinct dc1)
    by exact (resolve_parts_distinct _ _ _ _ _ _ Hok Hd Hfi0 Hres).
  destruct i as [|i], j as [|j]; try lia; simpl.
  - intros [= <- <-] Hj.
    by eapply (targets_same_name_later o output_dir _ dc dc1 _ rest Hok
                 Hfi0 Hres dc1 j fj tj).
  - apply IH; try done. lia.
Qed.

Lemma is_dot_false part : part ≠ "" → part ≠ "." → is_dot part = false.
Proof.
  intros H1 H2. unfold is_dot.
  by rewrite !bool_decide_eq_false_2.
Qed.

Lemma is_dot_separated part : part ≠ "" → is_dot (separated part) = false.
Proof.
  destruct part as [|c t]; [done|]. intros _.
  apply is_dot_false; [done|]. simpl. by intros [= _ ?].
Qed.

(** The components that the walk appends for segments other than [.] and
    [..] are ordinary names. *)
Lemma renamed_plain parts names :
  renamed parts names →
  Forall (λ part, part ≠ "." ∧ part ≠ "..") parts → plain names.
Proof.
  induction 1 as [|parts names _ IH|part parts name names Hn Hname _ IH];
    intros Hparts.
  - constructor.
  - apply Forall_cons in Hparts as [_ Hparts]. by apply IH.
  - apply Forall_cons in Hparts as [[Hd Hdd] Hparts].
    constructor; [|by apply IH].
    destruct Hname as [->| ->].
    + split; [by apply is_dot_false|done].
    + split; [by apply is_dot_separated|apply separated_not_dotdot].
Qed.

(** The target of an entry without [.] and [..] segments, under an output
    directory without them, is the location that it leads to. *)
Lemma target_located o output_dir infolist file_info target_path :
  plain output_dir → no_dot_segment (filename file_info) →
  (file_info, target_path) ∈ targets o output_dir ∅ infolist →
  locate target_path = target_path.
Proof.
  intros Hp Hdots Hin.
  destruct (targets_shape _ _ _ _ _ _ ledger_ok_empty Hin)
    as (_ & names & -> & Hren).
  unfold locate. rewrite locate_from_plain; [done|].
  apply Forall_app. split; [done|]. by eapply renamed_plain.
Qed.

End same_path.

(** X5. For an archive in which every segment of every entry name starts
    with an ASCII character and none has ["_"] as its second character,
    two entries are given the same output path exactly when their names
    have the same non-empty segments.  When moreover the two names have no
    [.] or [..] segment and the output directory is given without them,
    the two entries are written at the same location of the tree exactly
    when their names have the same non-empty segments: such entries with
    different segments do not overwrite each other, and the entries of one
    directory are all written into the same directory.  (A [.] segment
    changes the path and not the location: [a/x] and [./a/x] are one
    file.) *)
Theorem same_path_iff_same_name :
  ∀ (L : StrLower) o infolist output_dir i j fi fj ti tj,
    plain output_dir →
    Forall (λ fi, tame_name (filename fi)) infolist →
    no_dot_segment (filename fi) → no_dot_segment (filename fj) →
    i < j →
    targets o output_dir ∅ infolist !! i = Some (fi, ti) →
    targets o output_dir ∅ infolist !! j = Some (fj, tj) →
    (ti = tj ↔ segments (filename fi) = segments (filename fj))
    ∧ (locate ti = locate tj
       ↔ segments (filename fi) = segments (filename fj)).
Proof.
  intros L o infolist out i j fi fj ti tj Hp Hall Hdi Hdj Hij Hi Hj.
  pose proof (same_path_text o infolist out i j fi fj ti tj Hall Hij Hi Hj)
    as Htext.
  split; [done|].
  rewrite (target_located o out infolist fi ti Hp Hdi)
    by by eapply list_elem_of_lookup_2.
  by rewrite (target_located o out infolist fj tj Hp Hdj)
    by by eapply list_elem_of_lookup_2.
Qed.

Lemma same_path_iff_same_name_witness :
  (plain ["out"]
   ∧ Forall (λ fi, tame_name (filename fi))
       [file_entry "Pkg/a.txt" ["1"%byte]; file_entry "pkg/a.txt" ["2"%byte];
        file_entry "pkg//a.txt" ["3"%byte]]
   ∧ no_dot_segment (filename (file_entry "pkg/a.txt" ["2"%byte]))
   ∧ no_dot_segment (filename (file_entry "pkg//a.txt" ["3"%byte]))
   ∧ 1 < 2
   ∧ targets sorted_iteration ["out"] ∅
       [file_entry "Pkg/a.txt" ["1"%byte]; file_entry "pkg/a.txt" ["2"%byte];
        file_entry "pkg//a.txt" ["3"%byte]] !! 1
     = Some (file_entry "pkg/a.txt" ["2"%byte], ["out"; "p_kg"; "a.txt"])
   ∧ targets sorted_iteration ["out"] ∅
       [file_entry "Pkg/a.txt" ["1"%byte]; file_entry "pkg/a.txt" ["2"%byte];
        file_entry "pkg//a.txt" ["3"%byte]] !! 2
     = Some (file_entry "pkg//a.txt" ["3"%byte], ["out"; "p_kg"; "a.txt"]))
  ∧ (["out"; "p_kg"; "a.txt"] = ["out"; "p_kg"; "a.txt"]
     ↔ segments (filename (file_entry "pkg/a.txt" ["2"%byte]))
       = segments (filename (file_entry "pkg//a.txt" ["3"%byte])))
  ∧ (locate ["out"; "p_kg"; "a.txt"] = locate ["out"; "p_kg"; "a.txt"]
     ↔ segments (filename (file_entry "pkg/a.txt" ["2"%byte]))
       = segments (filename (file_entry "pkg//a.txt" ["3"%byte]))).
Proof.
  assert (Hp : plain ["out"]) by by_decide.
  assert (Hall : Forall (λ fi, tame_name (filename fi))
     [file_entry "Pkg/a.txt" ["1"%byte]; file_entry "pkg/a.txt" ["2"%byte];
      file_entry "pkg//a.txt" ["3"%byte]]) by by_decide.
  assert (Hdi : no_dot_segment (filename (file_entry "pkg/a.txt" ["2"%byte])))
    by by_decide.
  assert (Hdj : no_dot_segment
                  (filename (file_entry "pkg//a.txt" ["3"%byte])))
    by by_decide.
  assert (Hij : 1 < 2) by lia.
  assert (Hi : targets sorted_iteration ["out"] ∅
       [file_entry "Pkg/a.txt" ["1"%byte]; file_entry "pkg/a.txt" ["2"%byte];
        file_entry "pkg//a.txt" ["3"%byte]] !! 1
     = Some (file_entry "pkg/a.txt" ["2"%byte], ["out"; "p_kg"; "a.txt"]))
    by (vm_compute; reflexivity).
  assert (Hj : targets sorted_iteration ["out"] ∅
       [file_entry "Pkg/a.txt" ["1"%byte]; file_entry "pkg/a.txt" ["2"%byte];
        file_entry "pkg//a.txt" ["3"%byte]] !! 2
     = Some (file_entry "pkg//a.txt" ["3"%byte], ["out"; "p_kg"; "a.txt"]))
    by (vm_compute; reflexivity).
  split; [exact (conj Hp (conj Hall (conj Hdi (conj Hdj
                   (conj Hij (conj Hi Hj))))))|].
  exact (same_path_iff_same_name python_lower _ _ _ _ _ _ _ _ _
           Hp Hall Hdi Hdj Hij Hi Hj).
Defined.

(** ** The empty name *)

Lemma case_conflict_empty_name e :
  case_conflict e ""
  = if decide (String.length e ≤ 1) then Raise IndexError else Ok false.
Proof.
  unfold case_conflict. by destruct e as [|c [|c' t]].
Qed.

Lemma fix_case_conflict_loop_empty_name names :
  fix_case_conflict_loop names ""
  = if decide (Exists (λ e, String.length e ≤ 1) names)
    then Raise IndexError else Ok "".
Proof.
  induction names as [|e names IH].
  - destruct (decide (Exists _ [])) as [Hx|_]; [|done].
    by apply Exists_nil in Hx.
  - cbn [fix_case_conflict_loop]. rewrite case_conflict_empty_name, IH.
    destruct (decide (String.length e ≤ 1)) as [He|He],
             (decide (Exists _ names)) as [Hx|Hx],
             (decide (Exists _ (e :: names))) as [Hy|Hy]; try done.
    + destruct Hy. by left.
    + destruct Hy. by left.
    + destruct Hy. by right.
    + by apply Exists_cons in Hy as [?|?].
Qed.

(** X6. On the empty name [fix_case_conflict] raises [IndexError] exactly
    when some recorded name has at most one character, whatever the order
    in which the set is enumerated, and returns the empty name otherwise
    (in particular on the empty set).  The extraction never gets there:
    it skips empty segments before it calls [fix_case_conflict]. *)
Theorem fix_case_conflict_empty_name :
  ∀ o existing,
    fix_case_conflict o existing ""
    = if decide (set_Exists (λ e, String.length e ≤ 1) existing)
      then Raise IndexError else Ok "".
Proof.
  intros o existing. unfold fix_case_conflict.
  destruct (decide (existing = ∅)) as [->|_].
  - destruct (decide (set_Exists _ ∅)) as [(e & He & _)|_]; [|done].
    set_solver.
  - rewrite fix_case_conflict_loop_empty_name.
    destruct (decide (Exists _ (iter o existing))) as [Hx|Hx],
             (decide (set_Exists _ existing)) as [Hy|Hy]; try done.
    + destruct Hy. apply Exists_exists in Hx as (e & He & Hlen).
      exists e. split; [|done]. rewrite (iter_perm o) in He.
      by apply elem_of_elements in He.
    + destruct Hx. destruct Hy as (e & He & Hlen).
      apply Exists_exists. exists e. split; [|done].
      rewrite (iter_perm o). by apply elem_of_elements.
Qed.

(** * The rename file *)

Lemma append_nil_l (s : string) : "" +:+ s = s.
Proof. done. Qed.

Lemma append_cons c (t s : string) : String c t +:+ s = String c (t +:+ s).
Proof. done. Qed.

Lemma append_nil_inv (a b : string) : a +:+ b = "" → a = "" ∧ b = "".
Proof. destruct a; [by rewrite append_nil_l|by rewrite append_cons]. Qed.

Lemma rstrip_idemp s : rstrip (rstrip s) = rstrip s.
Proof.
  induction s as [|c t IH]; [done|]. simpl.
  destruct (rstrip t) as [|c' t'] eqn:E.
  - destruct (isspace c) eqn:Ec; [done|]. simpl. by rewrite Ec.
  - simpl. simpl in IH. by rewrite IH.
Qed.

Lemma lstrip_head s :
  lstrip s = "" ∨ ∃ c t, lstrip s = String c t ∧ isspace c = false.
Proof.
  induction s as [|c t IH]; [by left|]. simpl.
  destruct (isspace c) eqn:Ec; [done|]. right. by exists c, t.
Qed.

Lemma lstrip_fixed c t : isspace c = false → lstrip (String c t) = String c t.
Proof. intros H. simpl. by rewrite H. Qed.

Lemma rstrip_head c t :
  isspace c = false → ∃ t', rstrip (String c t) = String c t'.
Proof.
  intros Hc. simpl. destruct (rstrip t); rewrite ?Hc; eauto.
Qed.

(** What [strip] returns has no white space at either end. *)
Lemma strip_stripped s :
  lstrip (strip s) = strip s ∧ rstrip (strip s) = strip s.
Proof.
  unfold strip. split; [|apply rstrip_idemp].
  destruct (lstrip_head s) as [->|(c & t & -> & Hc)]; [done|].
  destruct (rstrip_head c t Hc) as [t' ->]. by apply lstrip_fixed.
Qed.

Lemma strip_idemp s : strip (strip s) = strip s.
Proof.
  destruct (strip_stripped s) as [Hl Hr]. unfold strip at 1.
  by rewrite Hl, Hr.
Qed.

Lemma startswith_char_append ch a s :
  a ≠ "" → startswith_char ch (a +:+ s) = startswith_char ch a.
Proof. destruct a; [done|]. by rewrite append_cons. Qed.

(** The parts of a split: with an arrow, the text before the first arrow
    and the text after it; without, the whole text. *)
Lemma split_arrow_cases s :
  if contains_arrow s
  then ∃ a b, split_arrow s = [a; b] ∧ contains_arrow a = false
              ∧ s = a +:+ "=>" +:+ b
  else split_arrow s = [s].
Proof.
  induction s as [|c t IH]; [done|].
  cbn [contains_arrow split_arrow].
  destruct (startswith_arrow (String c t)) eqn:Ea.
  - simpl. exists "", (slice1 t). split; [done|]. split; [done|].
    simpl in Ea. apply andb_true_iff in Ea as [->%bool_decide_eq_true Ht].
    destruct t as [|c' t']; [done|]. simpl in Ht.
    by apply bool_decide_eq_true in Ht as ->.
  - simpl. destruct (contains_arrow t).
    + destruct IH as (a & b & -> & Ha & ->). exists (String c a), b.
      split; [done|]. split; [|by rewrite append_cons].
      cbn [contains_arrow]. rewrite Ha, orb_false_r.
      destruct a as [|x a'].
      * simpl. by rewrite andb_false_r.
      * rewrite <- Ea. by rewrite append_cons.
    + by rewrite IH.
Qed.

(** X7. What the loop does with a line is decided by the line without the
    white space at its ends, and each outcome has its own condition, which
    excludes the other two: the line is skipped exactly when that text is
    empty or starts with a hash sign; it is reported as invalid, as it
    stands once stripped, exactly when it is neither and holds no arrow;
    otherwise it gives rise to a rename, of the text before the first arrow
    into the text after it, both without white space at their ends.  The
    unpacking of the split never fails. *)
Theorem rename_line_of_spec :
  ∀ line,
    match rename_line_of line with
    | Some Skipped =>
        strip line = "" ∨ startswith_char "#" (strip line) = true
    | Some (Invalid l) =>
        l = strip line ∧ l ≠ "" ∧ startswith_char "#" l = false
        ∧ contains_arrow l = false
    | Some (Renames src_rel dst_rel) =>
        strip line ≠ "" ∧ startswith_char "#" (strip line) = false
        ∧ contains_arrow (strip line) = true
        ∧ strip src_rel = src_rel ∧ strip dst_rel = dst_rel
        ∧ ∃ a b, strip line = a +:+ "=>" +:+ b
                 ∧ contains_arrow a = false
                 ∧ src_rel = strip a ∧ dst_rel = strip b
    | None => False
    end.
Proof.
  intros line. unfold rename_line_of.
  destruct (bool_decide (strip line = "")) eqn:E1; simpl.
  { left. by apply bool_decide_eq_true in E1. }
  apply bool_decide_eq_false in E1.
  destruct (startswith_char "#" (strip line)) eqn:E2; simpl; [by right|].
  pose proof (split_arrow_cases (strip line)) as Hs.
  destruct (contains_arrow (strip line)) eqn:E3; simpl.
  - destruct Hs as (a & b & -> & Ha & Heq). simpl.
    rewrite !strip_idemp. repeat split; try done. by exists a, b.
  - by repeat split.
Qed.

Lemma lstrip_length s : String.length (lstrip s) ≤ String.length s.
Proof.
  induction s as [|c t IH]; [done|]. simpl.
  destruct (isspace c); simpl; lia.
Qed.

Lemma lstrip_fixed_inv c t :
  lstrip (String c t) = String c t → isspace c = false.
Proof.
  simpl. destruct (isspace c); [|done]. intros H.
  pose proof (lstrip_length t) as Hl. rewrite H in Hl. simpl in Hl. lia.
Qed.

Lemma lstrip_all_space w s : all_space w = true → lstrip (w +:+ s) = lstrip s.
Proof.
  induction w as [|c w IH]; [done|]. rewrite append_cons. simpl.
  intros [Hc Hw]%andb_true_iff. rewrite Hc. by apply IH.
Qed.

Lemma rstrip_all_space_nil w : all_space w = true → rstrip w = "".
Proof.
  induction w as [|c w IH]; [done|]. simpl.
  intros [Hc Hw]%andb_true_iff. by rewrite IH, Hc.
Qed.

Lemma rstrip_append a b :
  rstrip b ≠ "" → rstrip (a +:+ b) = a +:+ rstrip b.
Proof.
  intros Hb. induction a as [|c a IH]; [done|].
  rewrite !append_cons. simpl. rewrite IH.
  destruct (a +:+ rstrip b) eqn:E; [|done].
  by apply append_nil_inv in E as [_ ?].
Qed.

Lemma rstrip_all_space s w : all_space w = true → rstrip (s +:+ w) = rstrip s.
Proof.
  intros Hw. induction s as [|c s IH].
  - rewrite append_nil_l. by apply rstrip_all_space_nil.
  - rewrite append_cons. simpl. by rewrite IH.
Qed.

Lemma append_assoc (a b c : string) : (a +:+ b) +:+ c = a +:+ b +:+ c.
Proof.
  induction a as [|x a IH]; [done|]. by rewrite !append_cons, IH.
Qed.

Lemma all_space_no_arrow w : all_space w = true → contains_arrow w = false.
Proof.
  induction w as [|c w IH]; [done|]. simpl.
  intros [Hc Hw]%andb_true_iff. rewrite IH by done.
  rewrite orb_false_r. case_bool_decide as Heq; [|done].
  subst c. done.
Qed.

Lemma contains_arrow_append_space a w :
  contains_arrow a = false → all_space w = true →
  contains_arrow (a +:+ w) = false.
Proof.
  intros Ha Hw. induction a as [|c a IH].
  - by apply all_space_no_arrow.
  - rewrite append_cons. cbn [contains_arrow] in *.
    apply orb_false_iff in Ha as [Hh Ha]. rewrite IH, orb_false_r by done.
    simpl in *. case_bool_decide as Heq; [|done]. simpl in *.
    destruct a as [|x a']; [|by rewrite append_cons].
    rewrite append_nil_l. destruct w as [|y w']; [done|]. simpl.
    simpl in Hw. apply andb_true_iff in Hw as [Hy _].
    case_bool_decide as Hgt; [|done]. by subst y.
Qed.

Lemma split_arrow_first a b :
  contains_arrow a = false →
  split_arrow (a +:+ "=>" +:+ b) = [a; b]
  ∧ contains_arrow (a +:+ "=>" +:+ b) = true.
Proof.
  induction a as [|c a IH]; intros Ha.
  - done.
  - rewrite append_cons. cbn [contains_arrow] in Ha.
    apply orb_false_iff in Ha as [Hh Ha].
    destruct (IH Ha) as [IH1 IH2].
    cbn [split_arrow contains_arrow]. rewrite IH1, IH2, orb_true_r.
    split; [|done].
    assert (Hno : startswith_arrow (String c (a +:+ "=>" +:+ b)) = false).
    { simpl in *. case_bool_decide as Heq; [|done]. simpl in *.
      destruct a as [|x a']; [done|]. by rewrite append_cons. }
    by rewrite Hno.
Qed.

Lemma lstrip_append a b : a ≠ "" → lstrip a = a → lstrip (a +:+ b) = a +:+ b.
Proof.
  destruct a as [|c a]; [done|]. intros _ Hc%lstrip_fixed_inv.
  rewrite append_cons. by apply lstrip_fixed.
Qed.

Lemma stripped_inv s : strip s = s → lstrip s = s ∧ rstrip s = s.
Proof. intros H. pose proof (strip_stripped s) as Hs. by rewrite H in Hs. Qed.

(** White space around a text without white space at its ends is all that
    [strip] removes. *)
Lemma strip_padded w1 body w2 :
  all_space w1 = true → all_space w2 = true →
  body ≠ "" → lstrip body = body → rstrip body = body →
  strip (w1 +:+ body +:+ w2) = body.
Proof.
  intros Hw1 Hw2 Hne Hl Hr. unfold strip.
  rewrite lstrip_all_space, lstrip_append by done.
  by rewrite rstrip_all_space.
Qed.

(** X8. A line made of a source name, an arrow and a destination name,
    with any white space before, between and after them, is read back as
    the rename of the one into the other, provided the names are not empty,
    carry no white space at their ends, and the source name holds no arrow
    and does not start with a hash sign. *)
Theorem rename_line_round_trip :
  ∀ w1 src w2 w3 dst w4,
    all_space w1 = true → all_space w2 = true →
    all_space w3 = true → all_space w4 = true →
    src ≠ "" → dst ≠ "" → strip src = src → strip dst = dst →
    contains_arrow src = false → startswith_char "#" src = false →
    rename_line_of (w1 +:+ src +:+ w2 +:+ "=>" +:+ w3 +:+ dst +:+ w4)
    = Some (Renames src dst).
Proof.
  intros w1 src w2 w3 dst w4 Hw1 Hw2 Hw3 Hw4 Hsrc Hdst Hss Hsd Harrow Hhash.
  apply stripped_inv in Hss as [Hls Hrs].
  apply stripped_inv in Hsd as [Hld Hrd].
  set (A := src +:+ w2). set (B := w3 +:+ dst).
  assert (HA : A ≠ "").
  { unfold A. by intros [? _]%append_nil_inv. }
  assert (Hline : w1 +:+ src +:+ w2 +:+ "=>" +:+ w3 +:+ dst +:+ w4
                  = w1 +:+ (A +:+ "=>" +:+ B) +:+ w4).
  { unfold A, B. by rewrite !append_assoc. }
  assert (Hbody : strip (w1 +:+ (A +:+ "=>" +:+ B) +:+ w4)
                  = A +:+ "=>" +:+ B).
  { apply strip_padded; try done.
    - by intros [? _]%append_nil_inv.
    - unfold A. rewrite !append_assoc. by apply lstrip_append.
    - unfold B. rewrite <- !append_assoc.
      rewrite rstrip_append by by rewrite Hrd. by rewrite Hrd. }
  assert (HsA : strip A = src).
  { unfold strip, A. rewrite lstrip_append by done.
    by rewrite rstrip_all_space. }
  assert (HsB : strip B = dst).
  { unfold strip, B. by rewrite lstrip_all_space, Hld. }
  assert (HnoA : contains_arrow A = false)
    by by apply contains_arrow_append_space.
  destruct (split_arrow_first A B HnoA) as [Hsplit Hcontains].
  unfold rename_line_of. rewrite Hline, Hbody.
  rewrite bool_decide_eq_false_2 by by intros [? _]%append_nil_inv.
  rewrite startswith_char_append by done.
  unfold A at 1. rewrite startswith_char_append, Hhash by done. simpl.
  rewrite Hcontains, Hsplit. simpl. by rewrite HsA, HsB.
Qed.

Lemma rename_line_round_trip_witness :
  (all_space "  " = true ∧ all_space " " = true
   ∧ all_space (String (ascii_of_nat 9) "") = true
   ∧ all_space (String (ascii_of_nat 10) "") = true
   ∧ "com/a/B.java" ≠ "" ∧ "com/c/D.java" ≠ ""
   ∧ strip "com/a/B.java" = "com/a/B.java"
   ∧ strip "com/c/D.java" = "com/c/D.java"
   ∧ contains_arrow "com/a/B.java" = false
   ∧ startswith_char "#" "com/a/B.java" = false)
  ∧ rename_line_of
      ("  " +:+ "com/a/B.java" +:+ " " +:+ "=>"
       +:+ String (ascii_of_nat 9) "" +:+ "com/c/D.java"
       +:+ String (ascii_of_nat 10) "")
    = Some (Renames "com/a/B.java" "com/c/D.java").
Proof.
  split; [repeat split; by vm_compute|].
  apply rename_line_round_trip; by vm_compute.
Defined.

(** * Splitting names *)

Lemma concat_cons_cons sep (x y : string) l :
  String.concat sep (x :: y :: l) = x +:+ sep +:+ String.concat sep (y :: l).
Proof. done. Qed.

(** X9. Splitting a name at '/' loses nothing and leaves no '/' behind:
    the parts joined with '/' give the name back, and no part holds a '/',
    so that every part is one component of a path. *)
Theorem split_slash_lossless :
  ∀ s,
    String.concat "/" (split_slash s) = s
    ∧ Forall (λ part, contains_slash part = false) (split_slash s).
Proof.
  induction s as [|c t [IHc IHf]]; [by split; [|repeat constructor]|].
  simpl. case_decide as Hc.
  - subst c. pose proof (split_slash_not_nil t) as Hne.
    destruct (split_slash t) as [|p ps] eqn:E; [done|]. split.
    + by rewrite concat_cons_cons, IHc.
    + by constructor.
  - destruct (split_slash t) as [|p ps] eqn:E.
    + by destruct (split_slash_not_nil t).
    + apply Forall_cons in IHf as [Hp Hps]. split.
      * destruct ps as [|p' ps'].
        -- simpl in *. by rewrite IHc.
        -- rewrite concat_cons_cons in *. rewrite append_cons. by rewrite IHc.
      * constructor; [|done]. simpl.
        by rewrite bool_decide_eq_false_2.
Qed.

(** * find_java_bin_dir *)

Lemma elem_of_children m loc c n :
  (c, n) ∈ children m loc ↔ m !! (loc ++ [c]) = Some n.
Proof.
  unfold children. rewrite list_elem_of_omap. split.
  - intros ([q n'] & Hin & Hsome). apply elem_of_map_to_list in Hin.
    destruct (last q) as [c'|]; simpl in Hsome; [|done].
    case_decide as Hq; [|done]. injection Hsome as -> ->. by subst q.
  - intros Hm. exists (loc ++ [c], n). split.
    + by apply elem_of_map_to_list.
    + rewrite last_snoc. simpl. by rewrite decide_True.
Qed.

Lemma enter_dir_Ok name m cur p loc :
  enter_dir name m cur p = Ok loc ↔ lookup_dir m cur p = Some loc.
Proof.
  revert cur. induction p as [|c rest IH]; intros cur; simpl.
  - split; by intros [= ->].
  - destruct (is_dot c); [apply IH|]. case_decide; [apply IH|].
    destruct (m !! (cur ++ [c])) as [[|data]|]; [apply IH|done..].
Qed.

Lemma enter_dir_Raise name m cur p e :
  enter_dir name m cur p = Raise e →
  e = OSError NotADirectoryError name ∨ e = OSError FileNotFoundError name.
Proof.
  revert cur. induction p as [|c rest IH]; intros cur; simpl; [done|].
  destruct (is_dot c); [apply IH|]. case_decide; [apply IH|].
  destruct (m !! (cur ++ [c])) as [[|data]|]; [apply IH|..];
    intros [= <-]; auto.
Qed.

Lemma first_bin_dir_spec m loc java_path entries :
  match first_bin_dir m loc java_path entries with
  | Returns p =>
      ∃ name, p = java_path ++ [name; "bin"] ∧ (name, Dir) ∈ entries
              ∧ is_Some (m !! (loc ++ [name; "bin"]))
  | Raises (Exception msg) =>
      msg = "Could not find Java bin directory"
      ∧ ∀ name, (name, Dir) ∈ entries → m !! (loc ++ [name; "bin"]) = None
  | Raises (Library _) => False
  end.
Proof.
  induction entries as [|[name n] rest IH]; simpl.
  - split; [done|]. by intros name ?%elem_of_nil.
  - assert (Hskip : (n = Dir → m !! (loc ++ [name; "bin"]) = None) →
      match first_bin_dir m loc java_path rest with
      | Returns p =>
          ∃ name0, p = java_path ++ [name0; "bin"]
                   ∧ (name0, Dir) ∈ (name, n) :: rest
                   ∧ is_Some (m !! (loc ++ [name0; "bin"]))
      | Raises (Exception msg) =>
          msg = "Could not find Java bin directory"
          ∧ ∀ name0, (name0, Dir) ∈ (name, n) :: rest →
                     m !! (loc ++ [name0; "bin"]) = None
      | Raises (Library _) => False
      end).
    { intros Hn. destruct (first_bin_dir m loc java_path rest) as [p|[msg|e]].
      - destruct IH as (name0 & -> & Hin & Hbin). exists name0.
        split; [done|]. split; [by right|done].
      - destruct IH as [-> IH]. split; [done|].
        intros name0 [[= -> <-]|Hin]%elem_of_cons; [by apply Hn|by apply IH].
      - done. }
    destruct n as [|data]; [|by apply Hskip].
    destruct (m !! (loc ++ [name; "bin"])) as [b|] eqn:E; [|by apply Hskip].
    exists name. split; [done|]. split; [by left|by rewrite E].
Qed.

(** X10. When [java_path] is a directory, [find_java_bin_dir] returns
    [java_path/d/bin] for an entry [d] of [java_path] that is a directory
    and holds something named [bin] (a directory or a regular file: only
    its existence is tested), and it raises its exception exactly when no
    entry qualifies, whatever the order in which the entries are scanned;
    when [java_path] is not a directory the [OSError] of the scan comes
    out. *)
Theorem find_java_bin_dir_spec :
  ∀ d java_path m,
    match lookup_dir m [] java_path, find_java_bin_dir d java_path m with
    | Some loc, Returns p =>
        ∃ name, p = java_path ++ [name; "bin"]
                ∧ m !! (loc ++ [name]) = Some Dir
                ∧ is_Some (m !! (loc ++ [name; "bin"]))
    | Some loc, Raises (Exception msg) =>
        msg = "Could not find Java bin directory"
        ∧ ∀ name, m !! (loc ++ [name]) = Some Dir →
                  m !! (loc ++ [name; "bin"]) = None
    | Some _, Raises (Library _) => False
    | None, Raises (Library e) =>
        e = OSError NotADirectoryError java_path
        ∨ e = OSError FileNotFoundError java_path
    | None, _ => False
    end.
Proof.
  intros d java_path m. unfold find_java_bin_dir.
  destruct (enter_dir java_path m [] java_path) as [loc|e] eqn:E.
  - apply enter_dir_Ok in E as ->.
    pose proof (first_bin_dir_spec m loc java_path (scan d m loc)) as H.
    destruct (first_bin_dir m loc java_path (scan d m loc)) as [p|[msg|e]];
      [| |done].
    + destruct H as (name & -> & Hin & Hbin). exists name.
      split; [done|]. split; [|done].
      rewrite (scan_perm d) in Hin. by apply elem_of_children in Hin.
    + destruct H as [-> H]. split; [done|]. intros name Hname.
      apply H. rewrite (scan_perm d). by apply elem_of_children.
  - destruct (lookup_dir m [] java_path) as [loc|] eqn:El.
    + apply (enter_dir_Ok java_path) in El. congruence.
    + by apply enter_dir_Raise in E.
Qed.


(** ** The directories of the tool: clean_and_prepare_dirs *)

Lemma fs_wf_checked m : fs_wf_check m → fs_wf m.
Proof.
  intros Hc q c [n Hn]. specialize (Hc _ _ Hn). simpl in Hc.
  rewrite last_snoc, removelast_last in Hc. exact Hc.
Qed.

Lemma lookup_dir_app m cur p1 p2 :
  lookup_dir m cur (p1 ++ p2)
  = lookup_dir m cur p1 ≫= λ d, lookup_dir m d p2.
Proof.
  revert cur. induction p1 as [|c p1 IH]; intros cur; [done|]. simpl.
  destruct (is_dot c); [apply IH|]. case_decide; [apply IH|].
  destruct (m !! (cur ++ [c])) as [[|]|]; [apply IH|done..].
Qed.

Lemma lookup_dir_one m cur c :
  is_dot c = false → c ≠ ".." → m !! (cur ++ [c]) = Some Dir →
  lookup_dir m cur [c] = Some (cur ++ [c]).
Proof. intros Hd Hn Hm. simpl. by rewrite Hd, decide_False, Hm. Qed.

Lemma lookup_dir_snoc m cur p c d :
  lookup_dir m cur p = Some d →
  is_dot c = false → c ≠ ".." → m !! (d ++ [c]) = Some Dir →
  lookup_dir m cur (p ++ [c]) = Some (d ++ [c]).
Proof.
  intros Hp Hd Hn Hm. rewrite lookup_dir_app, Hp.
  by apply lookup_dir_one.
Qed.

(** Nothing is stored below a name that is not there. *)
Lemma fs_wf_absent_below m p q :
  fs_wf m → p ≠ [] → m !! p = None → p `prefix_of` q → m !! q = None.
Proof.
  intros Hwf Hp Hnone [s ->]. induction s as [|c s IH] using rev_ind.
  - by rewrite app_nil_r.
  - destruct (m !! (p ++ s ++ [c])) as [n|] eqn:E; [|done].
    rewrite app_assoc in E. destruct (Hwf (p ++ s) c) as [Hnil|Hdir].
    + by rewrite E.
    + by destruct p.
    + congruence.
Qed.

Lemma makedirs_from_skip cur seen p rest m d :
  lookup_dir m cur p = Some d →
  makedirs_from cur seen (p ++ rest) m
  = makedirs_from d (seen ++ p) rest m.
Proof.
  revert cur seen. induction p as [|c p IH]; intros cur seen; simpl.
  - intros [= ->]. by rewrite app_nil_r.
  - replace (seen ++ c :: p) with ((seen ++ [c]) ++ p)
      by by rewrite <- app_assoc.
    destruct (is_dot c); [apply IH|]. case_decide; [apply IH|].
    destruct (m !! (cur ++ [c])) as [[|]|]; [apply IH|done..].
Qed.

Lemma makedirs_from_new cur seen c rest m :
  is_dot c = false → c ≠ ".." → m !! (cur ++ [c]) = None →
  makedirs_from cur seen (c :: rest) m
  = makedirs_from (cur ++ [c]) (seen ++ [c]) rest (<[cur ++ [c] := Dir]> m).
Proof. intros Hd Hn Hm. simpl. by rewrite Hd, decide_False, Hm. Qed.

Lemma path_mkdir_Ok p m m' :
  os_makedirs p m = (m', Ok ()) → path_mkdir p m = (m', Ok ()).
Proof. unfold path_mkdir. by intros ->. Qed.

(** A new directory right below a directory that exists. *)
Lemma path_mkdir_child D c m :
  is_dot c = false → c ≠ ".." →
  lookup_dir m [] D = Some D → m !! (D ++ [c]) = None →
  path_mkdir (D ++ [c]) m = (<[D ++ [c] := Dir]> m, Ok ()).
Proof.
  intros Hd Hn HD Hc. apply path_mkdir_Ok. unfold os_makedirs.
  rewrite (makedirs_from_skip _ _ _ _ _ _ HD).
  by rewrite makedirs_from_new.
Qed.

(** Two new directories, one below the other, below a directory that
    exists. *)
Lemma path_mkdir_two D c1 c2 m :
  is_dot c1 = false → c1 ≠ ".." → is_dot c2 = false → c2 ≠ ".." →
  lookup_dir m [] D = Some D →
  m !! (D ++ [c1]) = None → m !! ((D ++ [c1]) ++ [c2]) = None →
  path_mkdir ((D ++ [c1]) ++ [c2]) m
  = (<[(D ++ [c1]) ++ [c2] := Dir]> (<[D ++ [c1] := Dir]> m), Ok ()).
Proof.
  intros Hd1 Hn1 Hd2 Hn2 HD H1 H2. apply path_mkdir_Ok. unfold os_makedirs.
  rewrite <- app_assoc. rewrite (makedirs_from_skip _ _ _ _ _ _ HD).
  change ([c1] ++ [c2]) with (c1 :: [c2]).
  rewrite makedirs_from_new by done.
  rewrite makedirs_from_new; [|done|done|].
  - simpl. by rewrite <- app_assoc.
  - rewrite lookup_insert_ne; [done|]. intros H.
    apply (f_equal length) in H. rewrite !length_app in H. simpl in H. lia.
Qed.

Lemma lookup_dir_insert_dir m k cur p d :
  lookup_dir m cur p = Some d →
  lookup_dir (<[k := Dir]> m) cur p = Some d.
Proof.
  apply lookup_dir_mono. intros q Hq.
  destruct (decide (k = q)) as [->|Hk];
    [apply lookup_insert_eq|by rewrite lookup_insert_ne].
Qed.

Lemma plain_lookup_dir_inv m cur p d :
  plain p → lookup_dir m cur p = Some d →
  d = cur ++ p
  ∧ ∀ k, k < length p → m !! (cur ++ take (S k) p) = Some Dir.
Proof.
  intros Hp. revert cur.
  induction Hp as [|c p [Hd Hn] _ IH]; intros cur; simpl.
  - intros [= <-]. split; [by rewrite app_nil_r|].
    intros k Hk. simpl in Hk. lia.
  - rewrite Hd, decide_False by done.
    destruct (m !! (cur ++ [c])) as [[|]|] eqn:E; try done.
    intros [-> Hall]%IH. split; [by rewrite <- app_assoc|].
    intros [|k] Hk; [by rewrite take_0|]. simpl in Hk.
    specialize (Hall k ltac:(lia)). by rewrite <- app_assoc in Hall.
Qed.

Lemma plain_lookup_dir m cur p :
  plain p →
  (∀ k, k < length p → m !! (cur ++ take (S k) p) = Some Dir) →
  lookup_dir m cur p = Some (cur ++ p).
Proof.
  intros Hp. revert cur.
  induction Hp as [|c p [Hd Hn] _ IH]; intros cur Hall; simpl.
  - by rewrite app_nil_r.
  - rewrite Hd, decide_False by done.
    assert (H0 : m !! (cur ++ [c]) = Some Dir).
    { specialize (Hall 0). simpl in Hall. rewrite take_0 in Hall.
      apply Hall. lia. }
    rewrite H0. rewrite IH; [by rewrite <- app_assoc|].
    intros k Hk. specialize (Hall (S k)). simpl in Hall.
    rewrite <- app_assoc. apply Hall. lia.
Qed.

Lemma snoc_not_prefix_of_take (p : path) c k :
  ¬ (p ++ [c]) `prefix_of` take k p.
Proof.
  intros Hpre%prefix_length. rewrite length_app, length_take in Hpre.
  simpl in Hpre. lia.
Qed.

Ltac ne_path :=
  let H := fresh in
  intros H;
  first [ apply app_inv_head in H; discriminate H
        | apply (f_equal length) in H; rewrite ?length_app in H;
          simpl in H; lia ].

(** X11. When the directory of the script exists and [.luxxit] is not a
    regular file, [clean_and_prepare_dirs] succeeds and leaves a clean
    slate: the tree is the old one without anything that was under
    [.luxxit], plus [.luxxit] itself and its five directories, which are
    empty; nothing outside [.luxxit] is touched. *)
Theorem clean_and_prepare_dirs_spec :
  ∀ script_path m,
    plain script_path → fs_wf m →
    lookup_dir m [] script_path = Some script_path →
    (∀ data, m !! LUX_PATH script_path ≠ Some (File data)) →
    clean_and_prepare_dirs script_path m
    = (<[LUXXIT_FOLDER script_path := Dir]>
         (<[FERNFLOWER_FOLDER script_path := Dir]>
            (<[MAVEN_FOLDER script_path := Dir]>
               (<[LUX_FOLDER script_path := Dir]>
                  (<[JAVA_PATH script_path := Dir]>
                     (<[LUX_PATH script_path := Dir]>
                        (filter (λ kv, ¬ LUX_PATH script_path
                                         `prefix_of` kv.1) m)))))),
       Ok ()).
Proof.
  intros sp m Hp Hwf Hsp Hfile.
  unfold JAVA_PATH, LUX_FOLDER, MAVEN_FOLDER, FERNFLOWER_FOLDER,
    LUXXIT_FOLDER.
  set (L := LUX_PATH sp) in *.
  set (m0 := filter (λ kv : list string * node, ¬ L `prefix_of` kv.1) m).
  assert (HL : L ≠ []) by (unfold L, LUX_PATH; by destruct sp).
  assert (Hin : ∀ q, L `prefix_of` q → m0 !! q = None).
  { intros q Hq. apply map_lookup_filter_None. right. intros n _. simpl.
    by intros []. }
  assert (Hout : ∀ q, ¬ L `prefix_of` q → m0 !! q = m !! q).
  { intros q Hq. destruct (m !! q) as [n|] eqn:E.
    - by apply map_lookup_filter_Some.
    - apply map_lookup_filter_None. by left. }
  (* the first statement *)
  assert (Hstat : stat m L = m !! L).
  { unfold stat, L, LUX_PATH, dirname. rewrite removelast_last, Hsp. simpl.
    by rewrite last_snoc. }
  assert (Hfirst :
    (if path_exists m L then rmtree L m else (m, Ok ())) = (m0, Ok ())).
  { unfold path_exists. rewrite Hstat.
    destruct (m !! L) as [[|data]|] eqn:E.
    - rewrite bool_decide_eq_true_2 by eauto. unfold rmtree.
      assert (Hent : enter_dir L m [] L = Ok L).
      { apply enter_dir_Ok. by apply lookup_dir_snoc. }
      by rewrite Hent.
    - by destruct (Hfile data).
    - rewrite bool_decide_eq_false_2 by by intros [? ?].
      f_equal. symmetry. apply map_filter_id. intros q n Hq. simpl.
      intros Hpre.
      by rewrite (fs_wf_absent_below m L q Hwf HL E Hpre) in Hq. }
  (* the directory of the script is still there *)
  assert (Hsp0 : lookup_dir m0 [] sp = Some sp).
  { apply (plain_lookup_dir m0 [] sp Hp). intros k Hk. simpl.
    rewrite Hout by apply snoc_not_prefix_of_take.
    by apply (plain_lookup_dir_inv m [] sp sp Hp Hsp). }
  (* JAVA_PATH: two new directories *)
  assert (Hjava : path_mkdir (L ++ [".java"]) m0
                  = (<[L ++ [".java"] := Dir]> (<[L := Dir]> m0), Ok ())).
  { apply (path_mkdir_two sp ".luxxit" ".java" m0); try done.
    - by apply Hin.
    - apply Hin. by apply prefix_app_r. }
  set (m1 := <[L ++ [".java"] := Dir]> (<[L := Dir]> m0)) in *.
  assert (HL1 : lookup_dir m1 [] L = Some L).
  { apply lookup_dir_insert_dir. apply lookup_dir_snoc; [|done..|].
    - by apply lookup_dir_insert_dir.
    - apply lookup_insert_eq. }
  assert (Hchild : ∀ c, L `prefix_of` L ++ [c]) by (intros c; by apply prefix_app_r).
  unfold clean_and_prepare_dirs, mbind, io_bind.
  fold L. rewrite Hfirst.
  unfold JAVA_PATH, LUX_FOLDER, MAVEN_FOLDER, FERNFLOWER_FOLDER,
    LUXXIT_FOLDER. fold L. rewrite Hjava.
  rewrite (path_mkdir_child L ".lux" m1); [|done|done|done|].
  2: { unfold m1. rewrite !lookup_insert_ne by ne_path. by apply Hin. }
  rewrite (path_mkdir_child L ".maven"); [|done|done| |].
  2: { by apply lookup_dir_insert_dir. }
  2: { unfold m1. rewrite !lookup_insert_ne by ne_path. by apply Hin. }
  rewrite (path_mkdir_child L ".fernflower"); [|done|done| |].
  2: { by do 2 apply lookup_dir_insert_dir. }
  2: { unfold m1. rewrite !lookup_insert_ne by ne_path. by apply Hin. }
  rewrite (path_mkdir_child L "Luxxit"); [done|done|done| |].
  - by do 3 apply lookup_dir_insert_dir.
  - unfold m1. rewrite !lookup_insert_ne by ne_path. by apply Hin.
Qed.

Lemma clean_and_prepare_dirs_spec_witness :
  (plain ["home"]
   ∧ fs_wf (list_to_map
              [(["home"], Dir); (["home"; "keep.txt"], File ["K"%byte]);
               (["home"; ".luxxit"], Dir);
               (["home"; ".luxxit"; "old"], Dir);
               (["home"; ".luxxit"; "old"; "a.jar"], File ["A"%byte])])
   ∧ lookup_dir (list_to_map
              [(["home"], Dir); (["home"; "keep.txt"], File ["K"%byte]);
               (["home"; ".luxxit"], Dir);
               (["home"; ".luxxit"; "old"], Dir);
               (["home"; ".luxxit"; "old"; "a.jar"], File ["A"%byte])])
       [] ["home"] = Some ["home"]
   ∧ (∀ data,
        (list_to_map
              [(["home"], Dir); (["home"; "keep.txt"], File ["K"%byte]);
               (["home"; ".luxxit"], Dir);
               (["home"; ".luxxit"; "old"], Dir);
               (["home"; ".luxxit"; "old"; "a.jar"], File ["A"%byte])] : fs)
          !! LUX_PATH ["home"] ≠ Some (File data)))
  ∧ clean_and_prepare_dirs ["home"]
      (list_to_map
              [(["home"], Dir); (["home"; "keep.txt"], File ["K"%byte]);
               (["home"; ".luxxit"], Dir);
               (["home"; ".luxxit"; "old"], Dir);
               (["home"; ".luxxit"; "old"; "a.jar"], File ["A"%byte])])
    = (<[LUXXIT_FOLDER ["home"] := Dir]>
         (<[FERNFLOWER_FOLDER ["home"] := Dir]>
            (<[MAVEN_FOLDER ["home"] := Dir]>
               (<[LUX_FOLDER ["home"] := Dir]>
                  (<[JAVA_PATH ["home"] := Dir]>
                     (<[LUX_PATH ["home"] := Dir]>
                        (filter (λ kv, ¬ LUX_PATH ["home"] `prefix_of` kv.1)
                           (list_to_map
              [(["home"], Dir); (["home"; "keep.txt"], File ["K"%byte]);
               (["home"; ".luxxit"], Dir);
               (["home"; ".luxxit"; "old"], Dir);
               (["home"; ".luxxit"; "old"; "a.jar"],
                File ["A"%byte])]))))))),
       Ok ()).
Proof.
  assert (Hp : plain ["home"]) by by_decide.
  assert (Hwf : fs_wf (list_to_map
              [(["home"], Dir); (["home"; "keep.txt"], File ["K"%byte]);
               (["home"; ".luxxit"], Dir);
               (["home"; ".luxxit"; "old"], Dir);
               (["home"; ".luxxit"; "old"; "a.jar"], File ["A"%byte])]))
    by (apply fs_wf_checked; by_decide).
  assert (Hl : lookup_dir (list_to_map
              [(["home"], Dir); (["home"; "keep.txt"], File ["K"%byte]);
               (["home"; ".luxxit"], Dir);
               (["home"; ".luxxit"; "old"], Dir);
               (["home"; ".luxxit"; "old"; "a.jar"], File ["A"%byte])])
       [] ["home"] = Some ["home"]) by by_decide.
  assert (Hf : ∀ data,
        (list_to_map
              [(["home"], Dir); (["home"; "keep.txt"], File ["K"%byte]);
               (["home"; ".luxxit"], Dir);
               (["home"; ".luxxit"; "old"], Dir);
               (["home"; ".luxxit"; "old"; "a.jar"], File ["A"%byte])] : fs)
          !! LUX_PATH ["home"] ≠ Some (File data)).
  { intros data.
    assert (H : (list_to_map
              [(["home"], Dir); (["home"; "keep.txt"], File ["K"%byte]);
               (["home"; ".luxxit"], Dir);
               (["home"; ".luxxit"; "old"], Dir);
               (["home"; ".luxxit"; "old"; "a.jar"], File ["A"%byte])] : fs)
          !! LUX_PATH ["home"] = Some Dir) by by_decide.
    rewrite H. discriminate. }
  exact (conj (conj Hp (conj Hwf (conj Hl Hf)))
              (clean_and_prepare_dirs_spec _ _ Hp Hwf Hl Hf)).
Defined.

(** ** The extraction of the decompiled jar *)

Lemma plain_snoc p c :
  plain p → is_dot c = false → c ≠ ".." → plain (p ++ [c]).
Proof.
  intros Hp Hd Hn. apply Forall_app. split; [done|]. by repeat constructor.
Qed.

Lemma plain_LUXXIT_FOLDER script_path :
  plain script_path → plain (LUXXIT_FOLDER script_path).
Proof.
  intros Hp. unfold LUXXIT_FOLDER, LUX_PATH. by repeat apply plain_snoc.
Qed.

(** What [Path.mkdir] changes, also when it fails. *)
Lemma path_mkdir_changes p m m' r q :
  plain p → path_mkdir p m = (m', r) →
  m' !! q = m !! q
  ∨ (q `prefix_of` p ∧ m !! q = None ∧ m' !! q = Some Dir).
Proof.
  intros Hp. unfold path_mkdir, os_makedirs.
  destruct (makedirs_from [] [] p m) as [m1 r1] eqn:E. intros H.
  assert (m' = m1) as -> by (destruct r1 as [|[]]; by injection H).
  destruct (makedirs_from_changes _ _ _ _ _ _ q E)
    as [?|(? & ? & k & ->)]; [by left|right].
  split; [|done]. rewrite locate_from_plain by by apply Forall_take.
  apply prefix_take.
Qed.

Lemma extract_jar_case_safe_under {L : StrLower} o jar output_dir m m' r q :
  plain output_dir →
  (∀ infolist file_info,
     jar = Archive infolist → file_info ∈ infolist →
     ".." ∉ split_slash (filename file_info)) →
  extract_jar_case_safe o jar output_dir m = (m', r) →
  m' !! q = m !! q
  ∨ output_dir `prefix_of` q
  ∨ (q `prefix_of` output_dir ∧ m !! q = None ∧ m' !! q = Some Dir).
Proof.
  intros Hp Hnames Hrun. destruct jar as [msg|infolist].
  - injection Hrun as <- _. by left.
  - rewrite extract_jar_case_safe_plan in Hrun.
    apply (materialize_all_under output_dir
             (targets o output_dir ∅ infolist) m m' r q Hp); [|done].
    intros fi t Hin.
    destruct (targets_shape _ _ _ _ _ _ ledger_ok_empty Hin)
      as (Hfi & names & -> & Hren).
    exists names. split; [done|].
    apply (renamed_no_dotdot _ _ Hren). by apply (Hnames infolist).
Qed.

(** A regular file found by [os.stat] is stored at the path. *)
Lemma stat_file m p c data :
  plain p → is_dot c = false → c ≠ ".." →
  stat m (p ++ [c]) = Some (File data) → m !! (p ++ [c]) = Some (File data).
Proof.
  intros Hp Hd Hn. unfold stat, dirname. rewrite removelast_last, last_snoc.
  destruct (lookup_dir m [] p) as [d|] eqn:E; [|done]. simpl.
  rewrite Hd, decide_False by done.
  by apply (plain_lookup_dir_inv _ _ _ _ Hp) in E as [-> _].
Qed.

Lemma decompiled_jar_outside script_path :
  ¬ LUXXIT_FOLDER script_path `prefix_of` decompiled_jar script_path
  ∧ ¬ decompiled_jar script_path `prefix_of` LUXXIT_FOLDER script_path.
Proof.
  unfold decompiled_jar, FERNFLOWER_FOLDER, LUXXIT_FOLDER. split.
  - intros [s Hs]. rewrite <- !app_assoc in Hs.
    apply app_inv_head in Hs. discriminate Hs.
  - intros H%prefix_length. rewrite !length_app in H. simpl in H. lia.
Qed.

Lemma run_outcome_eq {A} (x y : fs * outcome A) :
  map_to_list x.1 = map_to_list y.1 → x.2 = y.2 → x = y.
Proof.
  destruct x as [m r], y as [m' r']. simpl. intros Hm ->.
  f_equal. apply map_to_list_inj. by rewrite Hm.
Qed.

(** X12. On a host whose [os.path.join] appends each segment to the path
    as one component (a POSIX host), when no entry name of the decompiled
    jar has a [..] segment, [extract_decompiled_luxcore] creates or changes
    nothing outside the [Luxxit] folder, apart from creating the missing
    directories on the way to it, whether it returns or raises; in
    particular the jar that it reads is left as it was. *)
Theorem extract_decompiled_luxcore_frame :
  ∀ (L : StrLower) (P : OsPath) o read_zip script_path m m' r,
    (∀ curr_dir part, os_path_join curr_dir part = curr_dir ++ [part]) →
    plain script_path →
    (∀ data infolist file_info,
       m !! decompiled_jar script_path = Some (File data) →
       read_zip data = Archive infolist → file_info ∈ infolist →
       ".." ∉ split_slash (filename file_info)) →
    extract_decompiled_luxcore o read_zip script_path m = (m', r) →
    (∀ q, m' !! q ≠ m !! q →
          LUXXIT_FOLDER script_path `prefix_of` q
          ∨ (q `prefix_of` LUXXIT_FOLDER script_path
             ∧ m !! q = None ∧ m' !! q = Some Dir))
    ∧ m' !! decompiled_jar script_path = m !! decompiled_jar script_path.
Proof.
  intros L P o read_zip sp m m' r HP Hp Hnames Hrun.
  pose proof (plain_LUXXIT_FOLDER sp Hp) as Hout.
  assert (Hframe : ∀ q, m' !! q ≠ m !! q →
            LUXXIT_FOLDER sp `prefix_of` q
            ∨ (q `prefix_of` LUXXIT_FOLDER sp
               ∧ m !! q = None ∧ m' !! q = Some Dir)).
  { intros q Hq. unfold extract_decompiled_luxcore in Hrun.
    destruct (path_mkdir (LUXXIT_FOLDER sp) m) as [m1 r1] eqn:E1.
    pose proof (path_mkdir_changes _ _ _ _ q Hout E1) as H1.
    assert (Hstop : m' = m1 → q `prefix_of` LUXXIT_FOLDER sp
                              ∧ m !! q = None ∧ m' !! q = Some Dir).
    { intros ->. destruct H1 as [?|?]; [done|done]. }
    destruct r1 as [[]|e]; [|right; apply Hstop; by injection Hrun].
    destruct (stat m1 (decompiled_jar sp)) as [[|data]|] eqn:Es;
      [right; apply Hstop; by injection Hrun| |
       right; apply Hstop; by injection Hrun].
    destruct (extract_jar_case_safe o (read_zip data)
                (LUXXIT_FOLDER sp) m1) as [m2' r2'] eqn:E2.
    rewrite (extract_jar_case_safe_posix P) in E2 by done.
    assert (m' = m2') as -> by (destruct r2'; by injection Hrun).
    assert (Hjar : m !! decompiled_jar sp = Some (File data)).
    { unfold decompiled_jar in *.
      replace (FERNFLOWER_FOLDER sp ++ ["decompiled"; "LuxCore.jar"])
        with ((FERNFLOWER_FOLDER sp ++ ["decompiled"]) ++ ["LuxCore.jar"])
        in * by by rewrite <- app_assoc.
      apply stat_file in Es; [|
        unfold FERNFLOWER_FOLDER, LUX_PATH; by repeat apply plain_snoc
        |done|done].
      destruct (path_mkdir_changes _ _ _ _
                  ((FERNFLOWER_FOLDER sp ++ ["decompiled"])
                   ++ ["LuxCore.jar"]) Hout E1) as [H|(_ & _ & H)].
      - exact (eq_trans (eq_sym H) Es).
      - discriminate (eq_trans (eq_sym H) Es). }
    destruct (extract_jar_case_safe_under o (read_zip data)
                (LUXXIT_FOLDER sp) m1 m2' r2' q Hout
                (λ infolist fi Hz Hin, Hnames data infolist fi Hjar Hz Hin)
                E2) as [H2|[H2|(H2 & H3 & H4)]].
    - right. destruct H1 as [H1|H1]; [congruence|].
      destruct H1 as (? & ? & ?). split; [done|]. split; [done|congruence].
    - by left.
    - right. split; [done|]. split; [|done].
      destruct H1 as [H1|(_ & _ & H1)]; congruence. }
  split; [done|].
  destruct (decide (m' !! decompiled_jar sp = m !! decompiled_jar sp))
    as [|Hne]; [done|].
  destruct (decompiled_jar_outside sp) as [Ha Hb].
  destruct (Hframe _ Hne) as [?|(? & _)]; done.
Qed.

Lemma extract_decompiled_luxcore_frame_witness :
  ((∀ curr_dir part, os_path_join curr_dir part = curr_dir ++ [part])
   ∧ plain ["home"]
   ∧ (∀ data infolist file_info,
        (list_to_map
           [(["home"], Dir); (["home"; ".luxxit"], Dir);
            (["home"; ".luxxit"; ".fernflower"], Dir);
            (["home"; ".luxxit"; ".fernflower"; "decompiled"], Dir);
            (["home"; ".luxxit"; ".fernflower"; "decompiled"; "LuxCore.jar"],
             File ["A"%byte])] : fs)
          !! decompiled_jar ["home"] = Some (File data) →
        Archive [file_entry "pkg/Main.java" data] = Archive infolist →
        file_info ∈ infolist →
        ".." ∉ split_slash (filename file_info))
   ∧ extract_decompiled_luxcore sorted_iteration
       (λ data, Archive [file_entry "pkg/Main.java" data]) ["home"]
       (list_to_map
          [(["home"], Dir); (["home"; ".luxxit"], Dir);
           (["home"; ".luxxit"; ".fernflower"], Dir);
           (["home"; ".luxxit"; ".fernflower"; "decompiled"], Dir);
           (["home"; ".luxxit"; ".fernflower"; "decompiled"; "LuxCore.jar"],
            File ["A"%byte])])
     = (list_to_map
          [(["home"], Dir); (["home"; ".luxxit"], Dir);
           (["home"; ".luxxit"; ".fernflower"], Dir);
           (["home"; ".luxxit"; ".fernflower"; "decompiled"], Dir);
           (["home"; ".luxxit"; ".fernflower"; "decompiled"; "LuxCore.jar"],
            File ["A"%byte]);
           (["home"; ".luxxit"; "Luxxit"], Dir);
           (["home"; ".luxxit"; "Luxxit"; "pkg"], Dir);
           (["home"; ".luxxit"; "Luxxit"; "pkg"; "Main.java"],
            File ["A"%byte])],
        Returns ()))
  ∧ ((∀ q,
        (list_to_map
          [(["home"], Dir); (["home"; ".luxxit"], Dir);
           (["home"; ".luxxit"; ".fernflower"], Dir);
           (["home"; ".luxxit"; ".fernflower"; "decompiled"], Dir);
           (["home"; ".luxxit"; ".fernflower"; "decompiled"; "LuxCore.jar"],
            File ["A"%byte]);
           (["home"; ".luxxit"; "Luxxit"], Dir);
           (["home"; ".luxxit"; "Luxxit"; "pkg"], Dir);
           (["home"; ".luxxit"; "Luxxit"; "pkg"; "Main.java"],
            File ["A"%byte])] : fs) !! q
        ≠ (list_to_map
           [(["home"], Dir); (["home"; ".luxxit"], Dir);
            (["home"; ".luxxit"; ".fernflower"], Dir);
            (["home"; ".luxxit"; ".fernflower"; "decompiled"], Dir);
            (["home"; ".luxxit"; ".fernflower"; "decompiled"; "LuxCore.jar"],
             File ["A"%byte])] : fs) !! q →
        LUXXIT_FOLDER ["home"] `prefix_of` q
        ∨ (q `prefix_of` LUXXIT_FOLDER ["home"]
           ∧ (list_to_map
           [(["home"], Dir); (["home"; ".luxxit"], Dir);
            (["home"; ".luxxit"; ".fernflower"], Dir);
            (["home"; ".luxxit"; ".fernflower"; "decompiled"], Dir);
            (["home"; ".luxxit"; ".fernflower"; "decompiled"; "LuxCore.jar"],
             File ["A"%byte])] : fs) !! q = None
           ∧ (list_to_map
          [(["home"], Dir); (["home"; ".luxxit"], Dir);
           (["home"; ".luxxit"; ".fernflower"], Dir);
           (["home"; ".luxxit"; ".fernflower"; "decompiled"], Dir);
           (["home"; ".luxxit"; ".fernflower"; "decompiled"; "LuxCore.jar"],
            File ["A"%byte]);
           (["home"; ".luxxit"; "Luxxit"], Dir);
           (["home"; ".luxxit"; "Luxxit"; "pkg"], Dir);
           (["home"; ".luxxit"; "Luxxit"; "pkg"; "Main.java"],
            File ["A"%byte])] : fs) !! q = Some Dir))
     ∧ (list_to_map
          [(["home"], Dir); (["home"; ".luxxit"], Dir);
           (["home"; ".luxxit"; ".fernflower"], Dir);
           (["home"; ".luxxit"; ".fernflower"; "decompiled"], Dir);
           (["home"; ".luxxit"; ".fernflower"; "decompiled"; "LuxCore.jar"],
            File ["A"%byte]);
           (["home"; ".luxxit"; "Luxxit"], Dir);
           (["home"; ".luxxit"; "Luxxit"; "pkg"], Dir);
           (["home"; ".luxxit"; "Luxxit"; "pkg"; "Main.java"],
            File ["A"%byte])] : fs) !! decompiled_jar ["home"]
       = (list_to_map
           [(["home"], Dir); (["home"; ".luxxit"], Dir);
            (["home"; ".luxxit"; ".fernflower"], Dir);
            (["home"; ".luxxit"; ".fernflower"; "decompiled"], Dir);
            (["home"; ".luxxit"; ".fernflower"; "decompiled"; "LuxCore.jar"],
             File ["A"%byte])] : fs) !! decompiled_jar ["home"]).
Proof.
  assert (Hp : plain ["home"]) by by_decide.
  assert (Hnames : ∀ data infolist file_info,
        (list_to_map
           [(["home"], Dir); (["home"; ".luxxit"], Dir);
            (["home"; ".luxxit"; ".fernflower"], Dir);
            (["home"; ".luxxit"; ".fernflower"; "decompiled"], Dir);
            (["home"; ".luxxit"; ".fernflower"; "decompiled"; "LuxCore.jar"],
             File ["A"%byte])] : fs)
          !! decompiled_jar ["home"] = Some (File data) →
        Archive [file_entry "pkg/Main.java" data] = Archive infolist →
        file_info ∈ infolist →
        ".." ∉ split_slash (filename file_info)).
  { intros data infolist file_info _ [= <-] ->%list_elem_of_singleton.
    simpl filename. by_decide. }
  assert (Hrun : extract_decompiled_luxcore sorted_iteration
       (λ data, Archive [file_entry "pkg/Main.java" data]) ["home"]
       (list_to_map
          [(["home"], Dir); (["home"; ".luxxit"], Dir);
           (["home"; ".luxxit"; ".fernflower"], Dir);
           (["home"; ".luxxit"; ".fernflower"; "decompiled"], Dir);
           (["home"; ".luxxit"; ".fernflower"; "decompiled"; "LuxCore.jar"],
            File ["A"%byte])])
     = (list_to_map
          [(["home"], Dir); (["home"; ".luxxit"], Dir);
           (["home"; ".luxxit"; ".fernflower"], Dir);
           (["home"; ".luxxit"; ".fernflower"; "decompiled"], Dir);
           (["home"; ".luxxit"; ".fernflower"; "decompiled"; "LuxCore.jar"],
            File ["A"%byte]);
           (["home"; ".luxxit"; "Luxxit"], Dir);
           (["home"; ".luxxit"; "Luxxit"; "pkg"], Dir);
           (["home"; ".luxxit"; "Luxxit"; "pkg"; "Main.java"],
            File ["A"%byte])],
        Returns ())).
  { apply run_outcome_eq; vm_compute; reflexivity. }
  assert (HP : ∀ curr_dir part,
             os_path_join curr_dir part = curr_dir ++ [part]) by done.
  exact (conj (conj HP (conj Hp (conj Hnames Hrun)))
           (extract_decompiled_luxcore_frame python_lower posixpath
              _ _ _ _ _ _ HP Hp Hnames Hrun)).
Defined.
